(** * AviSuite acoustic analysis core: a shallow embedding of [Combined.py]

    The development follows Module 1 ("DSP core") of [Combined.py]:
    the signal conditioner ([pre_emphasis], [normalize_audio],
    [frame_signal]), the pitch, LPC and cepstral engines, the feature
    extraction driver [extract_all_features] and the indicator synthesizer
    [compute_indicators].  Of Module 3 it covers the turn segmentation of a
    transcription ([_segment_by_silence]) and the adaptive engine of the
    training session ([adaptive_difficulty], [rl_get_state],
    [rl_choose_action], [rl_update], [rl_update_weak_areas]).

    State.  The module-level caches and the entries of [st.session_state]
    are records that the functions take and return; what the random source
    draws is an argument of the function that draws it.

    Numbers.  Python and NumPy floats are modelled by the type [num]: a finite
    value is an exact rational (no rounding, no overflow, an unsigned zero),
    and the three IEEE special values [PosInf], [NegInf] and [NaN] are kept
    with the IEEE rules for arithmetic and comparison, because the code relies
    on them (a NaN fails every comparison, NumPy divides by zero without
    raising).  Transcendental library functions ([np.exp], [np.sqrt],
    [np.hamming], the FFT, ...) are the fields of the class [NumPy]; what a
    proof needs to know about one of them is a section hypothesis.

    Exceptions.  A Python exception is a value of [result]; the functions that
    can raise are written in the error monad. *)

From Stdlib Require Import QArith Qabs Qround Lqa ZArith Lia.
From Stdlib.Strings Require Import Byte.
From stdpp Require Import gmap strings list pretty.

(* ===================================================================== *)
(** * Numbers *)
(* ===================================================================== *)

Inductive num : Type :=
  | Finite (q : Q)
  | PosInf
  | NegInf
  | NaN.

Definition Qltb (a b : Q) : bool := negb (Qle_bool b a).

Module Num.

Definition is_nan (x : num) : bool :=
  match x with NaN => true | _ => false end.

Definition is_finite (x : num) : bool :=
  match x with Finite _ => true | _ => false end.

Definition neg (x : num) : num :=
  match x with
  | Finite q => Finite (- q)
  | PosInf => NegInf
  | NegInf => PosInf
  | NaN => NaN
  end.

Definition add (x y : num) : num :=
  match x, y with
  | NaN, _ | _, NaN => NaN
  | Finite a, Finite b => Finite (a + b)
  | PosInf, NegInf | NegInf, PosInf => NaN
  | PosInf, _ | _, PosInf => PosInf
  | NegInf, _ | _, NegInf => NegInf
  end.

Definition sub (x y : num) : num := add x (neg y).

(** The infinity of the sign of [q] times [inf]; [0 * inf] is NaN. *)
Definition scale_inf (q : Q) (inf : num) : num :=
  if Qeq_bool q 0 then NaN
  else if Qltb 0 q then inf else neg inf.

Definition mul (x y : num) : num :=
  match x, y with
  | NaN, _ | _, NaN => NaN
  | Finite a, Finite b => Finite (a * b)
  | Finite a, inf => scale_inf a inf
  | inf, Finite b => scale_inf b inf
  | PosInf, PosInf | NegInf, NegInf => PosInf
  | PosInf, NegInf | NegInf, PosInf => NegInf
  end.

(** NumPy division: a zero divisor gives an infinity, or NaN for [0/0],
    and never raises. *)
Definition div (x y : num) : num :=
  match x, y with
  | NaN, _ | _, NaN => NaN
  | Finite a, Finite b =>
      if Qeq_bool b 0 then
        if Qeq_bool a 0 then NaN
        else if Qltb 0 a then PosInf else NegInf
      else Finite (a / b)
  | Finite _, _ => Finite 0
  | inf, Finite b => if Qltb b 0 then neg inf else inf
  | _, _ => NaN
  end.

Definition abs (x : num) : num :=
  match x with
  | Finite q => Finite (Qabs q)
  | PosInf | NegInf => PosInf
  | NaN => NaN
  end.

Definition ltb (x y : num) : bool :=
  match x, y with
  | NaN, _ | _, NaN => false
  | Finite a, Finite b => Qltb a b
  | NegInf, NegInf | PosInf, _ | _, NegInf => false
  | _, _ => true
  end.

Definition leb (x y : num) : bool :=
  match x, y with
  | NaN, _ | _, NaN => false
  | Finite a, Finite b => Qle_bool a b
  | NegInf, _ | _, PosInf => true
  | _, _ => false
  end.

Definition eqb (x y : num) : bool :=
  match x, y with
  | Finite a, Finite b => Qeq_bool a b
  | PosInf, PosInf | NegInf, NegInf => true
  | _, _ => false
  end.

(** [int(x)] and [np.floor(x)] of a finite value. *)
Definition trunc (q : Q) : Z := Z.quot (Qnum q) (Zpos (Qden q)).
Definition floor (q : Q) : Z := Z.div (Qnum q) (Zpos (Qden q)).

Definition of_Z (z : Z) : num := Finite (inject_Z z).
Definition of_nat (n : nat) : num := of_Z (Z.of_nat n).

End Num.

Declare Scope num_scope.
Delimit Scope num_scope with num.
Bind Scope num_scope with num.
Infix "+" := Num.add : num_scope.
Infix "-" := Num.sub : num_scope.
Infix "*" := Num.mul : num_scope.
Infix "/" := Num.div : num_scope.
Notation "- x" := (Num.neg x) : num_scope.
Infix "<?" := Num.ltb : num_scope.
Infix "<=?" := Num.leb : num_scope.
Infix "=?" := Num.eqb : num_scope.
Coercion Finite : Q >-> num.

(** Decimal literals in [num_scope] are rationals, read as finite numbers. *)
Number Notation Q QArith_base.of_number QArith_base.to_number
  (via QArith_base.IQ mapping
     [Qmake => QArith_base.IQmake, Qmult => QArith_base.IQmult,
      Qdiv => QArith_base.IQdiv, Z.pow_pos => QArith_base.IZpow_pos,
      Z0 => QArith_base.IZ0, Zpos => QArith_base.IZpos,
      Zneg => QArith_base.IZneg])
  : num_scope.

(** Python's [x > y] and [x >= y] are [y < x] and [y <= x]. *)
Notation "x >? y" := (Num.ltb y x) (only parsing) : num_scope.
Notation "x >=? y" := (Num.leb y x) (only parsing) : num_scope.

(** The builtins [max(a, b)] and [min(a, b)]: the first argument unless the
    second is strictly better (so a NaN first argument is returned). *)
Definition py_max (a b : num) : num := if (b >? a)%num then b else a.
Definition py_min (a b : num) : num := if (b <? a)%num then b else a.

(** [np.maximum], [np.minimum] and [np.clip] propagate NaN. *)
Definition np_maximum (a b : num) : num :=
  if Num.is_nan a then a else if Num.is_nan b then b
  else if (a <? b)%num then b else a.
Definition np_minimum (a b : num) : num :=
  if Num.is_nan a then a else if Num.is_nan b then b
  else if (b <? a)%num then b else a.
Definition np_clip (x lo hi : num) : num :=
  np_minimum (np_maximum x lo) hi.

(** [sum(xs)]: left to right from the integer 0. *)
Definition py_sum (xs : list num) : num :=
  fold_left Num.add xs 0%num.

(** [lo <= x <= hi] for a finite [x]. *)
Definition within (lo hi : Q) (x : num) : Prop :=
  exists q, x = Finite q /\ (lo <= q <= hi)%Q.

(* ===================================================================== *)
(** * Exceptions *)
(* ===================================================================== *)

Inductive exn : Type :=
  | ValueError
  | IndexError
  | ZeroDivisionError
  | KeyError (key : string).

Inductive result (A : Type) : Type :=
  | Ok (a : A)
  | Raise (e : exn).
Arguments Ok {A} a.
Arguments Raise {A} e.

#[global] Instance result_ret : MRet result := @Ok.
#[global] Instance result_bind : MBind result := fun A B k m =>
  match m with
  | Ok a => k a
  | Raise e => Raise e
  end.

Definition raises {A} (m : result A) : bool :=
  match m with Ok _ => false | Raise _ => true end.

(** [d[k]] on a dictionary: a missing key raises [KeyError]. *)
Definition getitem {V} (d : gmap string V) (k : string) : result V :=
  match d !! k with
  | Some v => Ok v
  | None => Raise (KeyError k)
  end.

(** [d.get(k, dflt)]. *)
Definition dict_get {V} (d : gmap string V) (k : string) (dflt : V) : V :=
  default dflt (d !! k).

(** [xs[i]] on a sequence, for an index that is never negative. *)
Definition seq_item {A} (xs : list A) (i : nat) : result A :=
  match xs !! i with
  | Some x => Ok x
  | None => Raise IndexError
  end.

(* ===================================================================== *)
(** * Library functions *)
(* ===================================================================== *)

(** The NumPy and SciPy functions that have no rational closed form.  The
    model is parametric in them; [rfft x n] is the one-sided transform of
    [x] padded or cut to [n] points, as pairs (real, imaginary). *)
Class NumPy : Type := {
  np_exp : num -> num;
  np_log : num -> num;
  np_log10 : num -> num;
  np_sqrt : num -> num;
  np_cos : num -> num;
  np_pi : num;
  np_power : num -> num -> num;
  np_hamming : nat -> list num;
  rfft : list num -> nat -> list (num * num);
}.

(* ===================================================================== *)
(** * Constants *)
(* ===================================================================== *)

Definition SR : Z := 22050.
Definition FRAME_MS : Z := 25.
Definition HOP_MS : Z := 10.
(** [int(SR * FRAME_MS / 1000)]: true division, then truncation. *)
Definition FRAME_N : nat :=
  Z.to_nat (Num.trunc (inject_Z (SR * FRAME_MS) / 1000)).
Definition HOP_N : nat :=
  Z.to_nat (Num.trunc (inject_Z (SR * HOP_MS) / 1000)).
Definition N_MFCC : nat := 13.
Definition N_LPC : nat := 16.
Definition PRE_EMP : num := 0.97%num.

(** Rounding as the specification of the framing words it, [round(x)]:
    to the nearest integer, a tie upward.  The code does not round. *)
Definition round_half_up (q : Q) : Z := Num.floor (q + (1 # 2)).

(* ===================================================================== *)
(** * Signal conditioner *)
(* ===================================================================== *)

(** [np.max(xs)]: a NaN wins; an empty array raises [ValueError]. *)
Definition np_max (xs : list num) : result num :=
  match xs with
  | [] => Raise ValueError
  | x :: rest => Ok (fold_left np_maximum rest x)
  end.

(** [np.append(audio[0], audio[1:] - coef * audio[:-1])] *)
Definition pre_emphasis (audio : list num) (coef : num) : result (list num) :=
  match audio with
  | [] => Raise IndexError
  | x0 :: rest =>
      Ok (x0 :: zip_with (fun x prev => (x - coef * prev)%num)
                         rest (removelast audio))
  end.

Definition normalize_audio (audio : list num) : result (list num) :=
  peak ← np_max (map Num.abs audio);
  mret (map (fun x => (x / (peak + 0.000000001))%num) audio).

(** [frame_signal]: [//] is floor division; both call sites pass a positive
    [hop].  Row [i] of [audio[idx]] holds [audio[j + hop*i]] for
    [j < frame_len]: the slice of [frame_len] samples from [hop * i]. *)
Definition frame_signal (audio : list num) (frame_len hop : nat)
  : list (list num) :=
  let n_frames :=
    (1 + (Z.of_nat (length audio) - Z.of_nat frame_len) / Z.of_nat hop)%Z in
  if (n_frames <=? 0)%Z then [repeat (Finite 0) frame_len]
  else map (fun i => take frame_len (drop (hop * i) audio))
           (seq 0 (Z.to_nat n_frames)).

(* ===================================================================== *)
(** * Array helpers *)
(* ===================================================================== *)

(** [np.sum] of the products of two arrays, cut to the shorter one. *)
Definition dot (xs ys : list num) : num :=
  py_sum (zip_with Num.mul xs ys).

(** [np.correlate(a, a, mode='full')[len(a)-1:]]: the autocorrelation at the
    lags [0 .. len(a)-1], lag [k] being the sum of [a[n+k] * a[n]]. *)
Definition autocorr (a : list num) : list num :=
  map (fun k => dot (drop k a) a) (seq 0 (length a)).

(** [int(a / b)] on integers: true division, then truncation. *)
Definition int_div (a b : Z) : Z := Num.trunc (inject_Z a / inject_Z b).

(** [xs[lo:hi]] for two indices that are not negative. *)
Definition slice {A} (xs : list A) (lo hi : nat) : list A :=
  take (hi - lo) (drop lo xs).

(** [np.correlate(a, a, mode='full')[len(a)-1:]]; NumPy refuses an empty
    input with [ValueError]. *)
Definition np_correlate_tail (a : list num) : result (list num) :=
  match a with
  | [] => Raise ValueError
  | _ => Ok (autocorr a)
  end.

(** [np.mean(xs)]: the sum over the length, NaN ([0/0]) for an empty array. *)
Definition np_mean (xs : list num) : num :=
  (py_sum xs / Num.of_nat (length xs))%num.

(** [np.diff(xs)]: [xs[i+1] - xs[i]]. *)
Definition np_diff (xs : list num) : list num :=
  zip_with (fun a b => (b - a)%num) xs (tail xs).

(** [xs[mask]] for a boolean mask of the same length. *)
Definition select_mask {A} (xs : list A) (mask : list bool) : list A :=
  (filter (fun xm => xm.2 = true) (zip xs mask)).*1.

(** [xs ** 2] *)
Definition squares (xs : list num) : list num :=
  map (fun x => (x * x)%num) xs.

(** A loop [for x in xs: acc = step(acc, x)] whose body may raise. *)
Fixpoint foldlM {A B} (step : A -> B -> result A) (acc : A) (xs : list B)
  : result A :=
  match xs with
  | [] => Ok acc
  | x :: rest => acc' ← step acc x; foldlM step acc' rest
  end.

(** [range(a, b)] on integers. *)
Definition py_range (a b : Z) : list Z :=
  map (fun i => (a + Z.of_nat i)%Z) (seq 0 (Z.to_nat (b - a))).

(** [row[k] = v] on an array: a negative [k] counts from the end, an index
    outside the array raises [IndexError]. *)
Definition np_setitem (row : list num) (k : Z) (v : num)
  : result (list num) :=
  let n := Z.of_nat (length row) in
  if ((0 <=? k) && (k <? n))%Z then Ok (<[Z.to_nat k := v]> row)
  else if ((- n <=? k) && (k <? 0))%Z then Ok (<[Z.to_nat (k + n) := v]> row)
  else Raise IndexError.

(** Arithmetic on [np.int64] wraps around. *)
Definition wrap64 (z : Z) : Z := ((z + 2 ^ 63) mod 2 ^ 64 - 2 ^ 63)%Z.

(** [np.floor(x).astype(int)]: a 64-bit integer; a value that is not finite
    or does not fit casts to the smallest one. *)
Definition astype_int (x : num) : Z :=
  match x with
  | Finite q =>
      let z := Num.floor q in
      if ((- 2 ^ 63 <=? z) && (z <? 2 ^ 63))%Z then z else (- 2 ^ 63)%Z
  | _ => (- 2 ^ 63)%Z
  end.

(** [np.linspace(a, b, n)] *)
Definition np_linspace (a b : num) (n : nat) : list num :=
  map (fun i => (a + Num.of_nat i * ((b - a) / Num.of_nat (n - 1)))%num)
      (seq 0 n).

(** [np.dot(A, B.T)] for two matrices given by rows: entry [t, m] is the dot
    product of row [t] of [A] and row [m] of [B]; rows of different lengths
    raise [ValueError].  A matrix [B] without rows gives rows without
    entries. *)
Definition np_dot_T (A B : list (list num)) : result (list (list num)) :=
  match B with
  | [] => Ok (map (fun _ => []) A)
  | b :: _ =>
      if forallb (fun a => (length a =? length b)%nat) A
      then Ok (map (fun a => map (fun b => dot a b) B) A)
      else Raise ValueError
  end.

(** [np.sign] *)
Definition np_sign (x : num) : num :=
  match x with
  | Finite q => if Qltb q 0 then Finite (-1) else
                if Qltb 0 q then Finite 1 else Finite 0
  | PosInf => Finite 1
  | NegInf => Finite (-1)
  | NaN => NaN
  end.

(** [np.cumsum] *)
Fixpoint cumsum_from (acc : num) (xs : list num) : list num :=
  match xs with
  | [] => []
  | x :: rest => (acc + x)%num :: cumsum_from (acc + x)%num rest
  end.
Definition np_cumsum (xs : list num) : list num :=
  match xs with
  | [] => []
  | x :: rest => x :: cumsum_from x rest
  end.

(** [np.argmax] of a boolean array: the first [True], 0 when there is none;
    an empty array raises [ValueError]. *)
Fixpoint first_true (bs : list bool) (i : nat) : nat :=
  match bs with
  | [] => 0
  | b :: rest => if b then i else first_true rest (S i)
  end.
Definition np_argmax_bool (bs : list bool) : result nat :=
  match bs with
  | [] => Raise ValueError
  | _ => Ok (first_true bs 0)
  end.

(** [np.where(mask)[0]]: the indices where the mask holds. *)
Definition np_where {A} (test : A -> bool) (xs : list A) : list nat :=
  (filter (fun ix => test ix.2 = true) (imap (fun i x => (i, x)) xs)).*1.

(** [np.min] of an array that is not empty, NaN winning. *)
Definition np_min (xs : list num) : result num :=
  match xs with
  | [] => Raise ValueError
  | x :: rest => Ok (fold_left np_minimum rest x)
  end.

(** Python's [a / b] on integers: a zero divisor raises. *)
Definition py_truediv (a b : Z) : result num :=
  if (b =? 0)%Z then Raise ZeroDivisionError
  else Ok (Num.of_Z a / Num.of_Z b)%num.

(** Python's [a / b] when [b] is a Python float: a zero divisor raises,
    where NumPy would return an infinity or a NaN. *)
Definition py_floatdiv (a b : num) : result num :=
  if (b =? 0)%num then Raise ZeroDivisionError else Ok (a / b)%num.

(** [np.argmax(xs)]: the first index of the maximum, a NaN counting as the
    maximum; an empty array raises [ValueError]. *)
Fixpoint argmax_from (xs : list num) (i best_i : nat) (best : num) : nat :=
  match xs with
  | [] => best_i
  | x :: rest =>
      if negb (Num.is_nan best) && (Num.is_nan x || (best <? x)%num)
      then argmax_from rest (S i) i x
      else argmax_from rest (S i) best_i best
  end.

Definition np_argmax (xs : list num) : result nat :=
  match xs with
  | [] => Raise ValueError
  | x :: rest => Ok (argmax_from rest 1 0 x)
  end.

(** SciPy's [_local_maxima_1d]: the midpoints of the strict local maxima of
    [x], flat tops included, never the first or the last sample.  The two
    [while] loops advance an index towards [i_max = len(x) - 1]; [fuel] bounds
    the number of iterations and [len(x)] is enough. *)
Fixpoint plateau_end (x : list num) (i_max : nat) (xi : num)
    (fuel i_ahead : nat) : nat :=
  match fuel with
  | O => i_ahead
  | S fuel' =>
      if (i_ahead <? i_max)%nat && (nth i_ahead x NaN =? xi)%num
      then plateau_end x i_max xi fuel' (S i_ahead)
      else i_ahead
  end.

Fixpoint local_maxima_loop (x : list num) (i_max fuel i : nat) : list nat :=
  match fuel with
  | O => []
  | S fuel' =>
      if (i <? i_max)%nat then
        if (nth (i - 1) x NaN <? nth i x NaN)%num then
          let i_ahead := plateau_end x i_max (nth i x NaN) (length x) (i + 1) in
          if (nth i_ahead x NaN <? nth i x NaN)%num then
            ((i + (i_ahead - 1)) / 2)%nat
              :: local_maxima_loop x i_max fuel' (i_ahead + 1)
          else local_maxima_loop x i_max fuel' (i + 1)
        else local_maxima_loop x i_max fuel' (i + 1)
      else []
  end.

Definition local_maxima_1d (x : list num) : list nat :=
  local_maxima_loop x (length x - 1) (length x) 1.

(** [find_peaks(x, height=0)[0]]: the local maxima whose value is at least 0. *)
Definition find_peaks_height0 (x : list num) : list nat :=
  filter (fun p => (0 <=? nth p x NaN)%num = true) (local_maxima_1d x).

#[global] Instance result_fmap : FMap result := fun A B g m =>
  match m with
  | Ok a => Ok (g a)
  | Raise e => Raise e
  end.

(** [sub in s] on strings. *)
Fixpoint str_in (sub s : string) : bool :=
  String.prefix sub s ||
  match s with
  | EmptyString => false
  | String _ s' => str_in sub s'
  end.

(* ===================================================================== *)
(** * Input buffer *)
(* ===================================================================== *)

(** The IEEE binary32 value of a 32-bit pattern. *)
Definition float32_of_bits (b : Z) : num :=
  let negative := Z.testbit b 31 in
  let e := Z.land (Z.shiftr b 23) 255 in
  let m := Z.land b 8388607 in
  let signed (q : Q) : num := Finite (if negative then (- q)%Q else q) in
  if (e =? 255)%Z then
    if (m =? 0)%Z then (if negative then NegInf else PosInf) else NaN
  else if (e =? 0)%Z then signed (inject_Z m / inject_Z (2 ^ 149))%Q
  else if (e <? 150)%Z
       then signed (inject_Z (8388608 + m) / inject_Z (2 ^ (150 - e)))%Q
       else signed (inject_Z ((8388608 + m) * 2 ^ (e - 150))).

(** Groups of four bytes, least significant first. *)
Fixpoint words_of_bytes (bs : list byte) : list Z :=
  match bs with
  | b0 :: b1 :: b2 :: b3 :: rest =>
      (Z.of_N (Byte.to_N b0) + 256 * Z.of_N (Byte.to_N b1)
       + 65536 * Z.of_N (Byte.to_N b2)
       + 16777216 * Z.of_N (Byte.to_N b3))%Z :: words_of_bytes rest
  | _ => []
  end.

(** [np.frombuffer(audio_bytes, dtype=np.float32)]: a buffer whose size is
    not a multiple of 4 raises [ValueError]. *)
Definition np_frombuffer_float32 (audio_bytes : list byte)
  : result (list num) :=
  if (length audio_bytes mod 4 =? 0)%nat
  then Ok (map float32_of_bits (words_of_bytes audio_bytes))
  else Raise ValueError.

(* ===================================================================== *)
(** * Spectral and cepstral engine *)
(* ===================================================================== *)

#[global] Instance byte_eq_dec : EqDecision byte := Byte.byte_eq_dec.
#[global] Instance byte_countable : Countable byte :=
  inj_countable Byte.to_N Byte.of_N Byte.of_to_N.

(** The dictionary [extract_all_features] returns: the scalar features by
    name, and the three entries that are not scalars. *)
Record features : Type := {
  scalars : gmap string num;
  _f0_track : list num;
  _mfcc : list (list num);
  _sr : Z;
}.

(** The state that outlives a call: the module-level [_FBANK_CACHE], keyed
    by [(sr, n_fft, n_mels)], and the memo table that the decorator
    [st.cache_data] keeps for [extract_all_features], keyed by its
    arguments. *)
Record store : Type := {
  fbank_cache : gmap (Z * nat * nat) (list (list num));
  data_cache : gmap (list byte * Z) features;
}.

Definition empty_store : store :=
  {| fbank_cache := ∅; data_cache := ∅ |}.

Section Spectral.
Context `{NumPy}.

(** [frame * np.hamming(len(frame))] *)
Definition hamming_windowed (frame : list num) : list num :=
  zip_with Num.mul frame (np_hamming (length frame)).

(** [frames * np.hamming(frames.shape[1])[None,:]]: every row has
    [frames.shape[1]] samples. *)
Definition apply_window (frames : list (list num)) : list (list num) :=
  map hamming_windowed frames.

(** [np.abs(rfft(frames, n=n_fft, axis=1)) ** 2]; SciPy refuses [n=0] with
    [ValueError]. *)
Definition power_spectrum (frames : list (list num)) (n_fft : nat)
  : result (list (list num)) :=
  if (n_fft =? 0)%nat then Raise ValueError else
  Ok (map (fun fr =>
             map (fun c : num * num =>
                    let mag := np_sqrt (c.1 * c.1 + c.2 * c.2)%num in
                    (mag * mag)%num)
                 (rfft fr n_fft))
          frames).

Definition hz_to_mel (hz : num) : num :=
  (2595 * np_log10 (1 + hz / 700))%num.
Definition mel_to_hz (mel : num) : num :=
  (700 * (np_power 10 (mel / 2595) - 1))%num.

(** Filter [m] (from 1) of [mel_filterbank]: the two [for k] loops write
    the rising and the falling edge into a row of zeros.  The bin points are
    [np.int64], so their differences wrap around. *)
Definition fbank_row (bin_pts : list Z) (n_bins m : nat)
  : result (list num) :=
  let lo := nth (m - 1) bin_pts 0%Z in
  let mid := nth m bin_pts 0%Z in
  let hi := nth (m + 1) bin_pts 0%Z in
  row ← foldlM (fun row k =>
            np_setitem row k
              (Num.of_Z (wrap64 (k - lo))
               / (Num.of_Z (wrap64 (mid - lo)) + 0.0000000001))%num)
          (repeat (Finite 0) n_bins) (py_range lo mid);
  foldlM (fun row k =>
            np_setitem row k
              (Num.of_Z (wrap64 (hi - k))
               / (Num.of_Z (wrap64 (hi - mid)) + 0.0000000001))%num)
         row (py_range mid (Z.min hi (Z.of_nat n_bins))).

Definition mel_filterbank (sr : Z) (n_fft n_mels : nat) (fmin fmax : num)
  : result (list (list num)) :=
  let n_bins := (n_fft / 2 + 1)%nat in
  let mel_pts := np_linspace (hz_to_mel fmin) (hz_to_mel fmax) (n_mels + 2) in
  let hz_pts := map mel_to_hz mel_pts in
  let bin_pts :=
    map (fun hz => astype_int (Num.of_nat (n_fft + 1) * hz / Num.of_Z sr)%num)
        hz_pts in
  mapM (fbank_row bin_pts n_bins) (seq 1 n_mels).

(** [get_fbank]: builds the filterbank on the first call for a key and
    returns the cached one afterwards. *)
Definition get_fbank (sr : Z) (n_fft n_mels : nat) (s : store)
  : result (list (list num)) * store :=
  let key := (sr, n_fft, n_mels) in
  match fbank_cache s !! key with
  | Some fbank => (Ok fbank, s)
  | None =>
      match mel_filterbank sr n_fft n_mels 80%num 8000%num with
      | Ok fbank =>
          (Ok fbank, {| fbank_cache := <[key := fbank]> (fbank_cache s);
                        data_cache := data_cache s |})
      | Raise e => (Raise e, s)
      end
  end.

(** The frame matrix [compute_mfcc] analyses: the first two lines of the
    function. *)
Definition mfcc_frames (audio : list num) : result (list (list num)) :=
  audio ← pre_emphasis audio PRE_EMP;
  mret (frame_signal audio FRAME_N HOP_N).

(** The cepstral coefficients of a frame matrix under a filterbank: the
    lines of [compute_mfcc] after [get_fbank].  [log_me.shape[1]] is the
    number of filters; [np.pi*i/n_mels] divides Python numbers, so no filter
    at all raises [ZeroDivisionError]. *)
Definition mfcc_of_power (power fbank : list (list num)) (n_mfcc : nat)
  : result (list (list num)) :=
  mel_e ← np_dot_T power fbank;
  let mel_e :=
    map (map (fun v => if (v <? 0.0000000001)%num
                       then Finite 0.0000000001 else v)) mel_e in
  let log_me := map (map np_log) mel_e in
  let n_mels := length fbank in
  if (n_mels =? 0)%nat && (0 <? n_mfcc)%nat then Raise ZeroDivisionError else
  let dct_mat :=
    map (fun i =>
           map (fun k => np_cos (np_pi * Num.of_nat i / Num.of_nat n_mels
                                 * (Num.of_nat k + 0.5))%num)
               (seq 0 n_mels))
        (seq 0 n_mfcc) in
  mret (map (fun row => map (fun fr => dot fr row) log_me) dct_mat).

Definition compute_mfcc (audio : list num) (sr : Z) (n_mfcc n_fft : nat)
    (s : store) : result (list (list num)) * store :=
  match mfcc_frames audio with
  | Raise e => (Raise e, s)
  | Ok frames =>
      let frames := apply_window frames in
      match power_spectrum frames n_fft with
      | Raise e => (Raise e, s)
      | Ok power =>
          let '(fbank, s) := get_fbank sr n_fft 40 s in
          (fbank ← fbank; mfcc_of_power power fbank n_mfcc, s)
      end
  end.

(** One row of [delta_features(feat, width)]: edge padding, then the
    regression over [2*width+1] columns. *)
Definition delta_row (row : list num) (width : nat) : list num :=
  let pad := repeat (hd NaN row) width ++ row
             ++ repeat (List.last row NaN) width in
  let denom :=
    (2 * fold_left Z.add (map (fun i => (i * i)%Z)
                              (py_range 1 (Z.of_nat width + 1))) 0)%Z in
  map (fun t =>
         (py_sum (map (fun n => (Num.of_nat n
                                 * (nth (t + width + n) pad NaN
                                    - nth (t + width - n) pad NaN))%num)
                      (seq 1 width))
          / Num.of_Z denom)%num)
      (seq 0 (length row)).

(** [delta_features(feat, width)].  [np.pad] in mode [edge] refuses to
    extend an axis of length 0 with [ValueError].  With [width=0] nothing is
    padded and [denom] is 0: the first column, if there is one, divides
    Python's [0] by it.  A matrix without rows stands for the shape
    [(0, T)] with columns, as [compute_mfcc] returns it for [n_mfcc=0].
    Both calls use the default [width=2], where [denom] is 10. *)
Definition delta_features (feat : list (list num)) (width : nat)
  : result (list (list num)) :=
  let no_columns := existsb (fun row => (length row =? 0)%nat) feat in
  if (0 <? width)%nat then
    if no_columns then Raise ValueError
    else Ok (map (fun row => delta_row row width) feat)
  else
    if no_columns then Ok (map (fun row => delta_row row width) feat)
    else Raise ZeroDivisionError.

End Spectral.

(* ===================================================================== *)
(** * Pitch and voicing engine *)
(* ===================================================================== *)

Section Pitch.
Context `{NumPy}.

(** The centre-clipped autocorrelation [corr] of [estimate_f0_frame]. *)
Definition clipped_autocorr (frame : list num) : result (list num) :=
  let frame := hamming_windowed frame in
  peak ← np_max (map Num.abs frame);
  let thresh := (0.3 * peak)%num in
  let fc := map (fun x => if (Num.abs x >? thresh)%num then x
                          else Finite 0) frame in
  np_correlate_tail fc.

(** [estimate_f0_frame(frame, sr)] with the default [f0_min=60],
    [f0_max=500]; [sr] is not negative. *)
Definition estimate_f0_frame (frame : list num) (sr : Z) : result num :=
  let f0_min := 60%Z in
  let f0_max := 500%Z in
  corr ← clipped_autocorr frame;
  let lag_min := int_div sr f0_max in
  let lag_max := Z.min (int_div sr f0_min) (Z.of_nat (length corr) - 1) in
  if (lag_max <=? lag_min)%Z then Ok (Finite 0) else
  corr0 ← seq_item corr 0;
  if (corr0 <? 0.000000000001)%num then Ok (Finite 0) else
  let window := slice corr (Z.to_nat lag_min) (Z.to_nat lag_max) in
  let peaks := find_peaks_height0 window in
  if (length peaks =? 0)%nat then Ok (Finite 0) else
  k ← np_argmax (map (fun p => nth p window NaN) peaks);
  p ← seq_item peaks k;
  let best := (p + Z.to_nat lag_min)%nat in
  corr_best ← seq_item corr best;
  if (corr_best / (corr0 + 0.000000000001) >=? 0.3)%num
  then Ok (Num.of_Z sr / Num.of_nat best)%num
  else Ok (Finite 0).

(** [np.array([estimate_f0_frame(f, sr) for f in frame_signal(...)])] *)
Definition compute_f0_track (audio : list num) (sr : Z) : result (list num) :=
  mapM (fun f => estimate_f0_frame f sr) (frame_signal audio FRAME_N HOP_N).

(** One pass of the loop of [compute_hnr]: [None] for a frame that is
    skipped with [continue]. *)
Definition hnr_of_frame (frame : list num) (sr : Z) : result (option num) :=
  let frame := hamming_windowed frame in
  corr ← np_correlate_tail frame;
  corr0 ← seq_item corr 0;
  if (corr0 <? 0.000000000001)%num then Ok None else
  let lmin := int_div sr 500 in
  let lmax := Z.min (int_div sr 60) (Z.of_nat (length corr) - 1) in
  if (lmax <=? lmin)%Z then Ok None else
  top ← np_max (slice corr (Z.to_nat lmin) (Z.to_nat lmax));
  let r := np_clip (top / (corr0 + 0.000000000001))%num 0%num 0.9999%num in
  Ok (Some (10 * np_log10 (r / (1 - r + 0.000000000001)))%num).

Definition compute_hnr (audio : list num) (sr : Z) : result num :=
  per_frame ← mapM (fun frame => hnr_of_frame frame sr)
                   (frame_signal audio FRAME_N HOP_N);
  let hnrs := omap id per_frame in
  mret (if (length hnrs =? 0)%nat then Finite 0 else np_mean hnrs).

(** [compute_jitter_shimmer(audio, sr)]; the returned dictionary has the
    four keys "jitter_local", "jitter_rap", "shimmer_local", "shimmer_db". *)
Definition jitter_shimmer_dict (jl jr sl sd : num) : gmap string num :=
  list_to_map [("jitter_local", jl); ("jitter_rap", jr);
               ("shimmer_local", sl); ("shimmer_db", sd)].

Definition compute_jitter_shimmer (audio : list num) (sr : Z)
  : result (gmap string num) :=
  f0 ← compute_f0_track audio sr;
  let voiced := filter (fun v => (v >? 0)%num = true) f0 in
  if (length voiced <? 4)%nat
  then Ok (jitter_shimmer_dict 0%num 0%num 0%num 0%num) else
  let periods := map (fun v => (1 / v)%num) voiced in
  let jitter_local :=
    (np_mean (map Num.abs (np_diff periods))
     / (np_mean periods + 0.000000000001))%num in
  let rap :=
    map (fun i => Num.abs (nth i periods NaN
                           - np_mean (slice periods (i - 1) (i + 2)))%num)
        (seq 1 (length periods - 1 - 1)) in
  let jitter_rap :=
    if (length rap =? 0)%nat then Finite 0
    else (np_mean rap / np_mean periods)%num in
  let amps :=
    map (fun fr => (np_sqrt (np_mean (squares fr)) + 0.000000000001)%num)
        (frame_signal audio FRAME_N HOP_N) in
  let vamps := select_mask (take (length f0) amps)
                           (map (fun v => (v >? 0)%num) f0) in
  if (length vamps <? 2)%nat
  then Ok (jitter_shimmer_dict jitter_local jitter_rap 0%num 0%num) else
  let sh_local :=
    (np_mean (map Num.abs (np_diff vamps)) / np_mean vamps)%num in
  Ok (jitter_shimmer_dict jitter_local jitter_rap sh_local
        (20 * np_log10 (1 + sh_local + 0.000000000001))%num).

End Pitch.

(* ===================================================================== *)
(** * Linear predictive engine *)
(* ===================================================================== *)

Section LPC.
Context `{NumPy}.

(** One pass of the Levinson-Durbin loop of [compute_lpc], for index [i]:
    [r[i-j]] and [r[i+1]] raise [IndexError] past the end of [r]; every index
    into [a] is below [order]. *)
Definition lpc_step (r : list num) (ae : list num * num) (i : nat)
  : result (list num * num) :=
  let '(a, e) := ae in
  terms ← mapM (fun j => rij ← seq_item r (i - j);
                         mret (nth j a NaN * rij)%num) (seq 0 i);
  r_next ← seq_item r (i + 1);
  let lam := ((- py_sum terms - r_next) / (e + 0.000000000001))%num in
  let a_new := <[i := lam]> a in
  let a_new :=
    fold_left (fun acc j =>
                 <[j := (nth j a NaN + lam * nth (i - 1 - j) a NaN)%num]> acc)
              (seq 0 i) a_new in
  mret (a_new, py_max (e * (1 - lam * lam))%num 0.000000000001%num).

Definition compute_lpc (frame : list num) (order : nat)
  : result (list num) :=
  let frame := hamming_windowed frame in
  full ← np_correlate_tail frame;
  let r := take (order + 1) full in
  r0 ← seq_item r 0;
  if (r0 <? 0.000000000001)%num then Ok (repeat (Finite 0) order) else
  ae ← foldlM (lpc_step r) (repeat (Finite 0) order, r0) (seq 0 order);
  mret ae.1.

(** [lfilter(b, [1], x)]: [y[n]] is the sum of [b[k] * x[n-k]]. *)
Definition lfilter_fir (b x : list num) : list num :=
  map (fun n => py_sum (map (fun k => (nth k b NaN * nth (n - k) x NaN)%num)
                            (seq 0 (Nat.min (length b) (n + 1)))))
      (seq 0 (length x)).

(** [np.std(xs)] *)
Definition np_std (xs : list num) : num :=
  let m := np_mean xs in
  np_sqrt (np_mean (squares (map (fun x => Num.abs (x - m)%num) xs))).

(** The Euclidean distance between two rows. *)
Definition row_distance (u v : list num) : num :=
  np_sqrt (py_sum (squares (zip_with (fun a b => (b - a)%num) u v))).

Definition compute_lpc_features (audio : list num)
  : result (gmap string num) :=
  let frames := frame_signal audio FRAME_N HOP_N in
  per_frame ← mapM (fun frame =>
                 a ← compute_lpc frame N_LPC;
                 let res := lfilter_fir (Finite 1 :: a) frame in
                 mret (a, np_mean (squares res))) frames;
  let lpc_all := per_frame.*1 in
  let errors := per_frame.*2 in
  let flux :=
    if (1 <? length lpc_all)%nat
    then np_mean (zip_with row_distance lpc_all (tail lpc_all))
    else Finite 0 in
  mret (list_to_map [("lpc_error_mean", np_mean errors);
                     ("lpc_error_std", np_std errors);
                     ("lpc_flux", flux)]).

End LPC.

(* ===================================================================== *)
(** * Prosody and spectral statistics *)
(* ===================================================================== *)

Section Aggregator.
Context `{NumPy}.

(** [np.mean(frame**2)] and
    [np.mean(np.abs(np.diff(np.sign(frame))))/2] of one frame. *)
Definition frame_energy (frame : list num) : num :=
  np_mean (squares frame).
Definition frame_zcr (frame : list num) : num :=
  (np_mean (map Num.abs (np_diff (map np_sign frame))) / 2)%num.

(** [vad_energy_zcr]: the mask, an array of 1.0 and 0.0, as booleans. *)
Definition vad_energy_zcr (audio : list num) (sr : Z) : list bool :=
  let frames := frame_signal audio FRAME_N HOP_N in
  let energy := map frame_energy frames in
  let zcr := map frame_zcr frames in
  let nf :=
    Z.to_nat (Z.max 1 (Num.trunc (0.1 * inject_Z sr
                                  / inject_Z (Z.of_nat HOP_N)))) in
  let e_thr := (np_mean (take nf energy) * 5 + 0.000000000001)%num in
  let z_thr := (np_mean (take nf zcr) * 2 + 0.05)%num in
  zip_with (fun e z => (e >? e_thr)%num && (z <? z_thr)%num) energy zcr.

(** [rfftfreq(n, d)] *)
Definition rfftfreq (n : nat) (d : num) : list num :=
  let val := (1 / (Num.of_nat n * d))%num in
  map (fun k => (Num.of_nat k * val)%num) (seq 0 (n / 2 + 1)).

(** The per-frame statistics of [compute_spectral_features] that read one
    row of the power spectrum. *)
Definition spectral_centroid (freqs row : list num) : result num :=
  if (length row =? length freqs)%nat
  then Ok (dot row freqs / (py_sum row + 0.000000000001))%num
  else Raise ValueError.

Definition spectral_spread (freqs row : list num) (centroid : num) : num :=
  np_sqrt (py_sum (zip_with (fun p f => (p * ((f - centroid)
                                             * (f - centroid)))%num)
                            row freqs)
           / (py_sum row + 0.000000000001))%num.

Definition spectral_rolloff (freqs row : list num) : result num :=
  let cumsum := np_cumsum row in
  let total := List.last cumsum NaN in
  k ← np_argmax_bool (map (fun c => (c >=? 0.85 * total)%num) cumsum);
  seq_item freqs k.

Definition spectral_flatness (row : list num) : num :=
  (np_exp (np_mean (map (fun p => np_log (p + 0.000000000001)%num) row))
   / (np_mean row + 0.000000000001))%num.

Definition compute_spectral_features (audio : list num) (sr : Z)
    (n_fft : nat) : result (gmap string num) :=
  let frames := frame_signal audio FRAME_N HOP_N in
  let fw := apply_window frames in
  power ← power_spectrum fw n_fft;
  d ← py_truediv 1 sr;
  let freqs := rfftfreq n_fft d in
  centroid ← mapM (spectral_centroid freqs) power;
  let spread := zip_with (spectral_spread freqs) power centroid in
  let flux := Finite 0 :: zip_with row_distance power (tail power) in
  rolloff ← mapM (spectral_rolloff freqs) power;
  let flatness := map spectral_flatness power in
  let zcr := map frame_zcr frames in
  let ste := map frame_energy frames in
  ste_max ← np_max ste;
  mret (list_to_map
    [("centroid_mean", np_mean centroid); ("centroid_std", np_std centroid);
     ("spread_mean", np_mean spread); ("flux_mean", np_mean flux);
     ("flux_std", np_std flux); ("rolloff_mean", np_mean rolloff);
     ("flatness_mean", np_mean flatness); ("zcr_mean", np_mean zcr);
     ("zcr_std", np_std zcr); ("ste_mean", np_mean ste);
     ("ste_std", np_std ste);
     ("ste_dynamic", (ste_max / (np_mean ste + 0.000000000001))%num)]).

(** The loop of [compute_prosody] over [enumerate(voiced)]: the state is
    [(runs, in_run, rs)]. *)
Definition run_step (st : list nat * bool * nat) (iv : nat * bool)
  : list nat * bool * nat :=
  let '(runs, in_run, rs) := st in
  let '(i, v) := iv in
  if v && negb in_run then (runs, true, i)
  else if negb v && in_run then (runs ++ [i - rs], false, rs)
  else (runs, in_run, rs).

Definition voiced_runs (voiced : list bool) : list nat :=
  let '(runs, in_run, rs) :=
    fold_left run_step (imap (fun i v => (i, v)) voiced) ([], false, 0) in
  if in_run then runs ++ [length voiced - rs] else runs.

Definition compute_prosody (audio : list num) (sr : Z)
  : result (gmap string num) :=
  let voiced := vad_energy_zcr audio sr in
  let total := length voiced in
  let speech_ratio :=
    (Num.of_nat (length (filter (fun v : bool => v = true) voiced))
     / (Num.of_nat total + 0.000001))%num in
  let uv := map (fun v : bool => if v then 0%Z else 1%Z) voiced in
  let transitions := zip_with (fun a b => (b - a)%Z) uv (tail uv) in
  let ps := np_where (fun t => (t =? 1)%Z) transitions in
  let pe := np_where (fun t => (t =? -1)%Z) transitions in
  let pause_dur :=
    match ps, pe with
    | ps0 :: _, pe0 :: pe_rest =>
        let pe := if (pe0 <? ps0)%nat then pe_rest else pe in
        let n := Nat.min (length ps) (length pe) in
        zip_with (fun e b => (Num.of_Z ((Z.of_nat e - Z.of_nat b)
                                        * Z.of_nat HOP_N)
                              / Num.of_Z sr)%num)
                 (take n pe) (take n ps)
    | _, _ => []
    end in
  fds ← py_truediv (Z.of_nat HOP_N) sr;
  let total_dur := (Num.of_nat total * fds)%num in
  let runs := map Num.of_nat (voiced_runs voiced) in
  let n_pauses := length pause_dur in
  pause_rate ← py_floatdiv (Num.of_nat n_pauses) (total_dur + 0.000001)%num;
  pause_max ← (if (n_pauses =? 0)%nat then Ok (Finite 0)
               else np_max pause_dur);
  mret (list_to_map
    [("speech_ratio", speech_ratio);
     ("pause_count", Num.of_nat n_pauses);
     ("pause_rate", pause_rate);
     ("pause_mean_dur",
      if (n_pauses =? 0)%nat then Finite 0 else np_mean pause_dur);
     ("pause_max_dur", pause_max);
     ("pause_total_dur", py_sum pause_dur);
     ("voiced_run_mean",
      if (length runs =? 0)%nat then Finite 0
      else (np_mean runs * fds)%num);
     ("voiced_run_std",
      if (length runs =? 0)%nat then Finite 0
      else (np_std runs * fds)%num);
     ("total_dur", total_dur)]).

End Aggregator.

(* ===================================================================== *)
(** * Feature extraction *)
(* ===================================================================== *)

Section Extraction.
Context `{NumPy}.

(** [np.polyfit(np.arange(len(ys)), ys, 1)[0]]: the least-squares slope. *)
Definition polyfit_slope (ys : list num) : num :=
  let xs := map Num.of_nat (seq 0 (length ys)) in
  let mx := np_mean xs in
  let my := np_mean ys in
  (py_sum (zip_with (fun x y => ((x - mx) * (y - my))%num) xs ys)
   / py_sum (map (fun x => ((x - mx) * (x - mx))%num) xs))%num.

(** The four entries [mfcc_feats] gets for coefficient [i]. *)
Definition mfcc_entries (mfcc mfcc_d mfcc_dd : list (list num)) (i : nat)
  : result (list (string * num)) :=
  c ← seq_item mfcc i;
  d ← seq_item mfcc_d i;
  dd ← seq_item mfcc_dd i;
  let n := pretty (i + 1) in
  mret [("mfcc" +:+ n +:+ "_mean", np_mean c);
        ("mfcc" +:+ n +:+ "_std", np_std c);
        ("mfccD" +:+ n +:+ "_mean", np_mean d);
        ("mfccDD" +:+ n +:+ "_mean", np_mean dd)].

(** The lines of [extract_all_features] after normalization. *)
Definition features_from_audio (audio : list num) (sr : Z) (s : store)
  : result features * store :=
  let '(mfcc, s) := compute_mfcc audio sr N_MFCC 512 s in
  (mfcc ← mfcc;
   mfcc_d ← delta_features mfcc 2;
   mfcc_dd ← delta_features mfcc_d 2;
   f0t ← compute_f0_track audio sr;
   let vf0 := filter (fun v => (v >? 0)%num = true) f0t in
   js ← compute_jitter_shimmer audio sr;
   lpc ← compute_lpc_features audio;
   spec ← compute_spectral_features audio sr 512;
   pros ← compute_prosody audio sr;
   hnr ← compute_hnr audio sr;
   f0_range ← (if (1 <? length vf0)%nat
               then hi ← np_max vf0; lo ← np_min vf0; mret (hi - lo)%num
               else Ok (Finite 0));
   let f0_stats : gmap string num := list_to_map
     [("f0_mean",
       if (0 <? length vf0)%nat then np_mean vf0 else Finite 0);
      ("f0_std",
       if (0 <? length vf0)%nat then np_std vf0 else Finite 0);
      ("f0_range", f0_range);
      ("f0_slope",
       if (2 <? length vf0)%nat then polyfit_slope vf0 else Finite 0);
      ("voiced_ratio",
       (Num.of_nat (length vf0)
        / (Num.of_nat (length f0t) + 0.000001))%num)] in
   entries ← mapM (mfcc_entries mfcc mfcc_d mfcc_dd) (seq 0 N_MFCC);
   let mfcc_feats : gmap string num := list_to_map (concat entries) in
   mret {|
     scalars := <["hnr" := hnr]>
                  (mfcc_feats ∪ pros ∪ spec ∪ lpc ∪ js ∪ f0_stats);
     _f0_track := f0t;
     _mfcc := take 5 mfcc;
     _sr := sr;
   |},
   s).

(** The body of [extract_all_features], under the decorator. *)
Definition extract_all_features_body (audio_bytes : list byte) (sr : Z)
    (s : store) : result features * store :=
  match audio ← np_frombuffer_float32 audio_bytes; normalize_audio audio with
  | Raise e => (Raise e, s)
  | Ok audio => features_from_audio audio sr s
  end.

(** [@st.cache_data]: a call with arguments seen before returns the stored
    result; otherwise the body runs and a result that is not an exception
    is stored. *)
Definition extract_all_features (audio_bytes : list byte) (sr : Z)
    (s : store) : result features * store :=
  match data_cache s !! (audio_bytes, sr) with
  | Some feats => (Ok feats, s)
  | None =>
      let '(r, s) := extract_all_features_body audio_bytes sr s in
      match r with
      | Ok feats =>
          (Ok feats,
           {| fbank_cache := fbank_cache s;
              data_cache := <[(audio_bytes, sr) := feats]> (data_cache s) |})
      | Raise e => (Raise e, s)
      end
  end.

End Extraction.

(* ===================================================================== *)
(** * Indicator synthesizer *)
(* ===================================================================== *)

Section Indicators.
Context `{NumPy}.

Definition sigmoid (x center scale : num) : num :=
  (1 / (1 + np_exp (- (x - center) / scale)))%num.

Inductive risk : Type := NOMINAL | MONITOR | CAUTION | ALERT.

(** The dictionary [compute_indicators] returns; its keys are fixed, so it is
    a record.  The three [_subs] dictionaries keep their insertion order. *)
Record indicators : Type := {
  fatigue : num;
  stress : num;
  cognitive : num;
  rt_clarity : num;
  composite : num;
  risk_level : risk;
  confidence : num;
  fat_subs : list (string * num);
  stre_subs : list (string * num);
  cog_subs : list (string * num);
  out_f0_mean : num;
  out_f0_std : num;
  out_f0_slope : num;
  out_hnr : num;
  out_jitter : num;
  out_shimmer_db : num;
  out_speech_ratio : num;
  out_pause_rate : num;
  out_voiced_ratio : num;
  out_centroid : num;
  out_lpc_flux : num;
  out_pause_mean : num;
}.

(** [{k: min(v*5,100) for k,v in d.items()}] *)
Definition subs (d : list (string * num)) : list (string * num) :=
  map (fun kv => (kv.1, py_min (kv.2 * 5) 100)%num) d.

(** [sum(d.values())] *)
Definition sum_values (d : list (string * num)) : num :=
  py_sum (map snd d).

Definition compute_indicators (f : gmap string num) (role : string)
  : result indicators :=
  let f0_center : num :=
    if str_in "Male" role then 140%num
    else if str_in "Female" role then 200%num else 165%num in
  vocal_energy ← (fun x => (1 - np_clip (x * 500) 0 1) * 20)%num
                   <$> getitem f "ste_mean";
  hnr_breathiness ← (fun x => (1 - sigmoid x 12 4) * 18)%num
                   <$> getitem f "hnr";
  shimmer ← (fun x => np_clip (x / 2.5) 0 1 * 16)%num
                   <$> getitem f "shimmer_db";
  pitch_flatness ← (fun x => (1 - np_clip (x / 150) 0 1) * 15)%num
                   <$> getitem f "f0_range";
  pause_length ← (fun x => np_clip (x / 1.2) 0 1 * 15)%num
                   <$> getitem f "pause_mean_dur";
  speech_rate ← (fun x => (1 - np_clip (x / 0.65) 0 1) * 8)%num
                   <$> getitem f "speech_ratio";
  voiced_ratio ← (fun x => (1 - np_clip (x / 0.55) 0 1) * 8)%num
                   <$> getitem f "voiced_ratio";
  let fat := [("vocal_energy", vocal_energy);
              ("hnr_breathiness", hnr_breathiness);
              ("shimmer", shimmer);
              ("pitch_flatness", pitch_flatness);
              ("pause_length", pause_length);
              ("speech_rate", speech_rate);
              ("voiced_ratio", voiced_ratio)] in
  let fatigue := np_clip (sum_values fat) 0 100 in
  f0_elevation ← (fun x => sigmoid x (f0_center + 30) 25 * 22)%num
                   <$> getitem f "f0_mean";
  f0_variability ← (fun x => np_clip (x / 45) 0 1 * 15)%num
                   <$> getitem f "f0_std";
  jitter ← (fun x => np_clip (x / 0.015) 0 1 * 16)%num
                   <$> getitem f "jitter_local";
  spectral_flux ← (fun x => np_clip (x * 4000) 0 1 * 13)%num
                   <$> getitem f "flux_mean";
  energy_var ← (fun x => np_clip (x * 600) 0 1 * 12)%num
                   <$> getitem f "ste_std";
  centroid_hi ← (fun x => sigmoid x 2200 500 * 12)%num
                   <$> getitem f "centroid_mean";
  lpc_flux ← (fun x => np_clip (x * 60) 0 1 * 10)%num
                   <$> getitem f "lpc_flux";
  let stre := [("f0_elevation", f0_elevation);
               ("f0_variability", f0_variability);
               ("jitter", jitter);
               ("spectral_flux", spectral_flux);
               ("energy_var", energy_var);
               ("centroid_hi", centroid_hi);
               ("lpc_flux", lpc_flux)] in
  let stress := np_clip (sum_values stre) 0 100 in
  hesitation_rate ← (fun x => np_clip (x * 2.5) 0 1 * 22)%num
                   <$> getitem f "pause_rate";
  rhythm_irregular ← (fun x => np_clip (x / 0.45) 0 1 * 18)%num
                   <$> getitem f "voiced_run_std";
  short_voiced_runs ← (fun x => (1 - np_clip (x / 0.7) 0 1) * 15)%num
                   <$> getitem f "voiced_run_mean";
  lpc_error ← (fun x => np_clip (x * 1200) 0 1 * 14)%num
                   <$> getitem f "lpc_error_std";
  spectral_noise ← (fun x => np_clip (x * 6) 0 1 * 14)%num
                   <$> getitem f "flatness_mean";
  jitter_rap ← (fun x => np_clip (x / 0.012) 0 1 * 10)%num
                   <$> getitem f "jitter_rap";
  let mfcc_delta :=
    (np_clip (Num.abs (dict_get f "mfccD1_mean" 0) / 4) 0 1 * 7)%num in
  let cog := [("hesitation_rate", hesitation_rate);
              ("rhythm_irregular", rhythm_irregular);
              ("short_voiced_runs", short_voiced_runs);
              ("lpc_error", lpc_error);
              ("spectral_noise", spectral_noise);
              ("jitter_rap", jitter_rap);
              ("mfcc_delta", mfcc_delta)] in
  let cognitive := np_clip (sum_values cog) 0 100 in
  f_hnr ← getitem f "hnr";
  f_jitter_local ← getitem f "jitter_local";
  f_speech_ratio ← getitem f "speech_ratio";
  f_flatness_mean ← getitem f "flatness_mean";
  let clarity_raw :=
    (sigmoid f_hnr 10 5 * 35
     + (1 - np_clip (f_jitter_local / 0.02) 0 1) * 25
     + np_clip (f_speech_ratio / 0.6) 0 1 * 20
     + (1 - np_clip (f_flatness_mean * 5) 0 1) * 20)%num in
  let rt_clarity := np_clip clarity_raw 0 100 in
  f_voiced_ratio ← getitem f "voiced_ratio";
  let conf :=
    (np_clip (f_voiced_ratio * dict_get f "total_dur" 5 / 6) 0.35 1.0)%num in
  let composite := (0.35 * fatigue + 0.30 * stress + 0.35 * cognitive)%num in
  let risk_level :=
    if (composite <? 30)%num then NOMINAL
    else if (composite <? 50)%num then MONITOR
    else if (composite <? 70)%num then CAUTION
    else ALERT in
  f_f0_mean ← getitem f "f0_mean";
  f_f0_std ← getitem f "f0_std";
  f_f0_slope ← getitem f "f0_slope";
  f_shimmer_db ← getitem f "shimmer_db";
  f_pause_rate ← getitem f "pause_rate";
  f_centroid_mean ← getitem f "centroid_mean";
  f_lpc_flux ← getitem f "lpc_flux";
  f_pause_mean_dur ← getitem f "pause_mean_dur";
  mret {|
    fatigue := fatigue;
    stress := stress;
    cognitive := cognitive;
    rt_clarity := rt_clarity;
    composite := composite;
    risk_level := risk_level;
    confidence := (conf * 100)%num;
    fat_subs := subs fat;
    stre_subs := subs stre;
    cog_subs := subs cog;
    out_f0_mean := f_f0_mean;
    out_f0_std := f_f0_std;
    out_f0_slope := f_f0_slope;
    out_hnr := f_hnr;
    out_jitter := (f_jitter_local * 100)%num;
    out_shimmer_db := f_shimmer_db;
    out_speech_ratio := (f_speech_ratio * 100)%num;
    out_pause_rate := f_pause_rate;
    out_voiced_ratio := (f_voiced_ratio * 100)%num;
    out_centroid := f_centroid_mean;
    out_lpc_flux := f_lpc_flux;
    out_pause_mean := f_pause_mean_dur;
  |}.

(** [severity_label(score)], the classifier the display reuses. *)
Definition severity_label (score : num) : risk :=
  if (score <? 30)%num then NOMINAL
  else if (score <? 50)%num then MONITOR
  else if (score <? 70)%num then CAUTION
  else ALERT.

End Indicators.

(* ===================================================================== *)
(** * One analysis call *)
(* ===================================================================== *)

Section Analysis.
Context `{NumPy}.

(** [feats = extract_all_features(ab, SR); ind = compute_indicators(feats,
    role)], as both call sites of the fatigue analyser do. *)
Definition analyze (audio_bytes : list byte) (role : string) (s : store)
  : result indicators * store :=
  let '(feats, s) := extract_all_features audio_bytes SR s in
  (feats ← feats; compute_indicators (scalars feats) role, s).

(** What holds of every store a run can reach from the empty one: a cached
    filterbank is the one [mel_filterbank] builds for its key, and a stored
    result is the one the body computes for its arguments. *)
Definition fbank_ok (s : store) : Prop :=
  forall sr n_fft n_mels fbank,
    fbank_cache s !! (sr, n_fft, n_mels) = Some fbank ->
    mel_filterbank sr n_fft n_mels 80%num 8000%num = Ok fbank.

Definition store_ok (s : store) : Prop :=
  fbank_ok s /\
  forall audio_bytes sr feats,
    data_cache s !! (audio_bytes, sr) = Some feats ->
    (extract_all_features_body audio_bytes sr empty_store).1 = Ok feats.

End Analysis.

(** The order of the four risk levels. *)
Definition risk_rank (r : risk) : nat :=
  match r with NOMINAL => 0 | MONITOR => 1 | CAUTION => 2 | ALERT => 3 end.

(** The features [compute_indicators] reads with [f[...]]; "mfccD1_mean"
    and "total_dur" are read with [f.get] and may be absent. *)
Definition indicator_inputs : list string :=
  ["ste_mean"; "hnr"; "shimmer_db"; "f0_range"; "pause_mean_dur";
   "speech_ratio"; "voiced_ratio"; "f0_mean"; "f0_std"; "jitter_local";
   "flux_mean"; "ste_std"; "centroid_mean"; "lpc_flux"; "pause_rate";
   "voiced_run_std"; "voiced_run_mean"; "lpc_error_std"; "flatness_mean";
   "jitter_rap"; "f0_slope"].

(** A classifier that never goes down as the score goes up, and changes
    only when the score crosses one of the breakpoints. *)
Definition step_function (breaks : list Q) (g : num -> risk) : Prop :=
  (forall a b : num, (a <=? b)%num = true ->
     risk_rank (g a) <= risk_rank (g b)) /\
  (forall a b : num, (a <=? b)%num = true ->
     Forall (fun t : Q => ((a <? t) && (t <=? b))%num = false) breaks ->
     g a = g b).

(** A feature set with every read feature 0, except a NaN short-term
    energy. *)
Definition nan_features : gmap string num :=
  <["ste_mean" := NaN]>
    (list_to_map (map (fun k => (k, Finite 0)) indicator_inputs)).

(** A feature set in the usual ranges (a calm male voice). *)
Definition calm_features : gmap string num :=
  list_to_map (map (fun kv : string * Q => (kv.1, Finite kv.2))
    [("ste_mean", 0.004); ("hnr", 14); ("shimmer_db", 0.4);
     ("f0_range", 60); ("pause_mean_dur", 0.3); ("speech_ratio", 0.7);
     ("voiced_ratio", 0.6); ("f0_mean", 120); ("f0_std", 15);
     ("jitter_local", 0.005); ("flux_mean", 0.0001); ("ste_std", 0.001);
     ("centroid_mean", 1500); ("lpc_flux", 0.01); ("pause_rate", 0.2);
     ("voiced_run_std", 0.1); ("voiced_run_mean", 0.5);
     ("lpc_error_std", 0.0002); ("flatness_mean", 0.05);
     ("jitter_rap", 0.003); ("f0_slope", 0); ("total_dur", 4)]%Q).

(** [x == 0] on numbers. *)
Definition is_zero (x : num) : Prop := (x =? 0)%num = true.

(** A finite number of magnitude at most [b]. *)
Definition magnitude_le (b : Q) (x : num) : Prop :=
  exists q, x = Finite q /\ (Qabs q <= b)%Q.

(** A finite number that is at most [p]. *)
Definition finite_le (p : Q) (x : num) : Prop :=
  exists q, x = Finite q /\ (q <= p)%Q.

(** A train of unit pulses every 5 samples, 20 samples long. *)
Definition pulse_train : list num :=
  map (fun i => if (i mod 5 =? 0)%nat then Finite 1 else Finite 0) (seq 0 20).

(** A buffer of exactly one frame, every sample 1. *)
Definition one_frame_of_ones : list num := repeat (Finite 1) FRAME_N.

(** Sample [j] of frame [i] of a frame matrix. *)
Definition frame_sample (frames : list (list num)) (i j : nat) : option num :=
  frames !! i ≫= fun fr => fr !! j.

(** The four bytes of a float32 NaN (0x7fc00000), least significant first. *)
Definition nan_bytes : list byte := [x00; x00; xc0; x7f].

(** The 42 band edges, in Hz, of the filterbank [get_fbank] builds: the
    [hz_pts] of [mel_filterbank] at its defaults. *)
Definition band_edges `{NumPy} : list num :=
  map mel_to_hz (np_linspace (hz_to_mel 80) (hz_to_mel 8000) (40 + 2)).

(** The [bin_pts] of [mel_filterbank]. *)
Definition bin_points `{NumPy} (sr : Z) (n_fft n_mels : nat)
    (fmin fmax : num) : list Z :=
  map (fun hz => astype_int (Num.of_nat (n_fft + 1) * hz / Num.of_Z sr)%num)
      (map mel_to_hz
           (np_linspace (hz_to_mel fmin) (hz_to_mel fmax) (n_mels + 2))).

(** What the proofs about the whole pipeline use of the library:
    [np.hamming(n)] has [n] entries, [rfft(x, n)] has [n//2 + 1], and the
    band edges, which [np.log10] and [10 ** x] place between 80 and 8000 Hz,
    are numbers between 0 and half the sample rate. *)
Definition library_laws (NP : NumPy) : Prop :=
  (forall n, length (np_hamming n) = n) /\
  (forall x n, length (rfft x n) = n / 2 + 1) /\
  Forall (within 0 11025) band_edges.

(** A statement that holds whatever the library functions compute. *)
Definition every_numpy (P : NumPy -> Prop) : Prop := forall NP : NumPy, P NP.

(** What a non-zero estimate says about the lag [best] it was read from. *)
Definition voiced_at (sr : Z) (corr : list num) (f0 : num) (best : nat)
  : Prop :=
  f0 = (Num.of_Z sr / Num.of_nat best)%num /\
  (int_div sr 500 < Z.of_nat best)%Z /\
  (Z.of_nat best < Z.min (int_div sr 60) (Z.of_nat (length corr) - 1) - 1)%Z /\
  exists corr0 corr_best,
    corr !! 0 = Some corr0 /\ corr !! best = Some corr_best /\
    (corr0 <? 0.000000000001)%num = false /\
    (corr_best / (corr0 + 0.000000000001) >=? 0.3)%num = true /\
    (corr_best / corr0 >=? 0.3)%num = true.

(* ===================================================================== *)
(** * A library instance to run examples *)
(* ===================================================================== *)

(** Coarse rational stand-ins, used only to evaluate the model on concrete
    inputs: [(1 + x/16)^16] for the exponential, the chord of [log10]
    through (1,0) and (10,1) with its inverse for the power of 10, a flat
    window, and so on.  No theorem below is about these particular
    functions. *)
Definition demo_exp (x : num) : num :=
  match x with
  | Finite q => Finite (Qred (Qpower (1 + q / 16) 16))
  | PosInf => PosInf
  | NegInf => Finite 0
  | NaN => NaN
  end.

Definition demo_id_nonneg (x : num) : num :=
  match x with
  | Finite q => if Qltb q 0 then NaN else Finite q
  | PosInf => PosInf
  | _ => NaN
  end.

Definition demo_reduce (x : num) : num :=
  match x with
  | Finite q => Finite (Qred q)
  | _ => x
  end.

Definition demo_numpy : NumPy := {|
  np_exp := demo_exp;
  np_log := fun x => demo_reduce (demo_id_nonneg x - 1)%num;
  np_log10 := fun x => demo_reduce ((demo_id_nonneg x - 1) / 9)%num;
  np_sqrt := fun x => demo_reduce (demo_id_nonneg x);
  np_cos := fun x => demo_reduce (1 - x * x / 2)%num;
  np_pi := 3.14159%num;
  np_power := fun b x => demo_reduce (1 + (b - 1) * x)%num;
  np_hamming := fun n => repeat (Finite 1) n;
  rfft := fun x n =>
    map (fun v => (v, Finite 0))
        (take (n / 2 + 1) (x ++ repeat (Finite 0) (n / 2 + 1)));
|}.

(* ===================================================================== *)
(** * Display of a score, and a longer test signal *)
(* ===================================================================== *)

(** A train of unit pulses every 5 samples, long enough for four frames. *)
Definition long_pulse_train : list num :=
  map (fun i => if (i mod 5 =? 0)%nat then Finite 1 else Finite 0)
      (seq 0 1211).

(** [sev_color(score)]: the colour of the level of a score. *)
Definition sev_color (score : num) : string :=
  if (score <? 30)%num then "#2dcc8f"
  else if (score <? 50)%num then "#f0a030"
  else if (score <? 70)%num then "#e85020"
  else "#e84040".

(** The string the code uses for a risk level. *)
Definition risk_name (r : risk) : string :=
  match r with
  | NOMINAL => "NOMINAL"
  | MONITOR => "MONITOR"
  | CAUTION => "CAUTION"
  | ALERT => "ALERT"
  end.

Definition RISK_COLORS : gmap string string :=
  list_to_map [("NOMINAL", "#2dcc8f"); ("MONITOR", "#f0a030");
               ("CAUTION", "#e85020"); ("ALERT", "#e84040")].

(* ===================================================================== *)
(** * Training session: adaptive difficulty and the Q-table (Module 3) *)
(* ===================================================================== *)

(** A Python [dict] where the order of insertion matters: an association
    list without repeated keys.  [d[k] = v] replaces the value in place or
    appends the new key. *)
Section OrderedDict.
Context {K V : Type} `{EqDecision K}.

Fixpoint od_get (d : list (K * V)) (k : K) : option V :=
  match d with
  | [] => None
  | (k', v) :: rest => if decide (k = k') then Some v else od_get rest k
  end.

Fixpoint od_set (d : list (K * V)) (k : K) (v : V) : list (K * V) :=
  match d with
  | [] => [(k, v)]
  | (k', v') :: rest =>
      if decide (k = k') then (k', v) :: rest else (k', v') :: od_set rest k v
  end.

End OrderedDict.

(** [list(DIFFICULTY_LEVELS.keys())] *)
Definition DIFFICULTY_LEVELS : list string :=
  ["Student Pilot"; "Private Pilot"; "Commercial"; "Expert / ATPL"].

(** [l.index(x)]: the first position of [x]; [ValueError] when absent. *)
Fixpoint list_index (x : string) (l : list string) : result nat :=
  match l with
  | [] => Raise ValueError
  | y :: rest => if decide (x = y) then Ok 0 else S <$> list_index x rest
  end.

(** The entry of [rl_weak_areas] for a scenario type. *)
Record weak_stats : Type := {
  attempts : Z;
  errors : Z;
}.

(** The entries of [st.session_state] that the adaptive engine reads or
    writes.  A Q-table state is the pair [(diff_idx, top_weak)]. *)
Record session : Type := {
  auto_adapt : bool;
  total_attempts : Z;
  correct_responses : Z;
  difficulty : string;
  rl_q_table : list ((nat * string) * list (string * num));
  rl_weak_areas : list (string * weak_stats);
  rl_item_errors : list (string * Z);
}.

(** The entries as [init_state] sets them. *)
Definition initial_session : session :=
  {| auto_adapt := true;
     total_attempts := 0;
     correct_responses := 0;
     difficulty := "Student Pilot";
     rl_q_table := [];
     rl_weak_areas := [];
     rl_item_errors := [] |}.

Definition set_difficulty (lvl : string) (st : session) : session :=
  {| auto_adapt := auto_adapt st;
     total_attempts := total_attempts st;
     correct_responses := correct_responses st;
     difficulty := lvl;
     rl_q_table := rl_q_table st;
     rl_weak_areas := rl_weak_areas st;
     rl_item_errors := rl_item_errors st |}.

Definition set_rl_q_table (qt : list ((nat * string) * list (string * num)))
    (st : session) : session :=
  {| auto_adapt := auto_adapt st;
     total_attempts := total_attempts st;
     correct_responses := correct_responses st;
     difficulty := difficulty st;
     rl_q_table := qt;
     rl_weak_areas := rl_weak_areas st;
     rl_item_errors := rl_item_errors st |}.

Definition set_weak_areas (weak : list (string * weak_stats))
    (ie : list (string * Z)) (st : session) : session :=
  {| auto_adapt := auto_adapt st;
     total_attempts := total_attempts st;
     correct_responses := correct_responses st;
     difficulty := difficulty st;
     rl_q_table := rl_q_table st;
     rl_weak_areas := weak;
     rl_item_errors := ie |}.

(** [adaptive_difficulty()]: one level up above 85 % accuracy, one level
    down below 50 %, after at least 3 attempts. *)
Definition adaptive_difficulty (st : session) : result session :=
  if negb (auto_adapt st) || (total_attempts st <? 3)%Z then Ok st else
  let acc := (Num.of_Z (correct_responses st)
              / Num.of_Z (Z.max (total_attempts st) 1))%num in
  let levels := DIFFICULTY_LEVELS in
  idx ← list_index (difficulty st) levels;
  if (acc >? 0.85)%num && (idx <? length levels - 1)%nat then
    lvl ← seq_item levels (idx + 1); mret (set_difficulty lvl st)
  else if (acc <? 0.50)%num && (0 <? idx)%nat then
    lvl ← seq_item levels (idx - 1); mret (set_difficulty lvl st)
  else Ok st.

Definition RL_ALPHA : num := 0.3%num.
Definition RL_GAMMA : num := 0.7%num.
Definition RL_EPSILON : num := 0.2%num.

Definition actions : list string :=
  ["Normal Traffic"; "Heavy Traffic"; "Emergency"].

(** How a Q-table state prints, for the [KeyError] of a missing one. *)
Definition state_repr (s : nat * string) : string :=
  "(" +:+ pretty s.1 +:+ ", '" +:+ s.2 +:+ "')".

(** [qt[s]] *)
Definition q_row (qt : list ((nat * string) * list (string * num)))
    (s : nat * string) : result (list (string * num)) :=
  match od_get qt s with
  | Some row => Ok row
  | None => Raise (KeyError (state_repr s))
  end.

(** The builtin [max] of an iterable: the first of the largest items;
    [ValueError] on an empty one. *)
Definition py_max_list (xs : list num) : result num :=
  match xs with
  | [] => Raise ValueError
  | x :: rest => Ok (fold_left py_max rest x)
  end.

(** [if s not in qt: qt[s] = {a: 0.0 for a in actions}] *)
Definition q_ensure (qt : list ((nat * string) * list (string * num)))
    (s : nat * string) : list ((nat * string) * list (string * num)) :=
  match od_get qt s with
  | Some _ => qt
  | None => od_set qt s (map (fun a => (a, Finite 0)) actions)
  end.

Definition rl_update (state : nat * string) (action : string) (reward : num)
    (next_state : nat * string) (st : session) : result session :=
  let qt := rl_q_table st in
  let qt := fold_left q_ensure [state; next_state] qt in
  row ← q_row qt state;
  let old := default (Finite 0) (od_get row action) in
  next_row ← q_row qt next_state;
  best ← py_max_list (map snd next_row);
  row ← q_row qt state;
  let row :=
    od_set row action
           (old + RL_ALPHA * (reward + RL_GAMMA * best - old))%num in
  mret (set_rl_q_table (od_set qt state row) st).

(** [rl_update_weak_areas(scenario_type, items_missed, items_incorrect)] *)
Definition rl_update_weak_areas (scenario_type : string)
    (items_missed items_incorrect : list string) (st : session) : session :=
  let weak := rl_weak_areas st in
  let weak :=
    match od_get weak scenario_type with
    | Some _ => weak
    | None => od_set weak scenario_type {| attempts := 0; errors := 0 |}
    end in
  let stats := default {| attempts := 0; errors := 0 |}
                       (od_get weak scenario_type) in
  let weak :=
    od_set weak scenario_type
      {| attempts := attempts stats + 1;
         errors := errors stats
                   + Z.of_nat (length items_missed + length items_incorrect) |}
  in
  let ie :=
    fold_left (fun ie item => od_set ie item (default 0%Z (od_get ie item) + 1)%Z)
              (items_missed ++ items_incorrect) (rl_item_errors st) in
  set_weak_areas weak ie st.

(** The key [rl_get_state] minimizes:
    [attempts / max(errors + 0.1, 1)]. *)
Definition weak_key (stats : weak_stats) : num :=
  (Num.of_Z (attempts stats)
   / py_max (Num.of_Z (errors stats) + 0.1) 1)%num.

(** The builtin [min(items, key=...)]: the first item with the least key. *)
Fixpoint min_by_key {A} (key : A -> num) (best : A) (rest : list A) : A :=
  match rest with
  | [] => best
  | x :: rest' =>
      if (key x <? key best)%num then min_by_key key x rest'
      else min_by_key key best rest'
  end.

Definition rl_get_state (st : session) : result (nat * string) :=
  diff_idx ← list_index (difficulty st) DIFFICULTY_LEVELS;
  let weak := rl_weak_areas st in
  let top_weak :=
    match weak with
    | [] => "none"
    | first :: rest => (min_by_key (fun x => weak_key x.2) first rest).1
    end in
  mret (diff_idx, top_weak).

(** The builtin [max(items, key=...)]: the first item with the greatest
    key. *)
Fixpoint max_by_key {A} (key : A -> num) (best : A) (rest : list A) : A :=
  match rest with
  | [] => best
  | x :: rest' =>
      if (key x >? key best)%num then max_by_key key x rest'
      else max_by_key key best rest'
  end.

(** [qt.get(state, {}).get(a, 0.0)] *)
Definition q_value (qt : list ((nat * string) * list (string * num)))
    (state : nat * string) (a : string) : num :=
  default (Finite 0) (od_get (default [] (od_get qt state)) a).

(** [rl_choose_action(state)], given what the random source draws: [u] is
    the value of [random.random()] and [pick] the index [random.choice]
    draws among the actions. *)
Definition rl_choose_action (u : num) (pick : nat) (state : nat * string)
    (st : session) : result string :=
  let qt := rl_q_table st in
  let known := match od_get qt state with Some _ => true | None => false end in
  if (u <? RL_EPSILON)%num || negb known then seq_item actions pick
  else
    match actions with
    | [] => Raise ValueError
    | a :: rest => Ok (max_by_key (q_value qt state) a rest)
    end.

(** The row [{a: 0.0 for a in actions}] of a state met for the first time. *)
Definition fresh_row : list (string * num) :=
  map (fun a => (a, Finite 0)) actions.

(** The row of a state once [rl_update] has made sure it is there. *)
Definition row_or_fresh (qt : list ((nat * string) * list (string * num)))
    (s : nat * string) : list (string * num) :=
  default fresh_row (od_get qt s).

(** Every state of the table has a value for each of the three actions. *)
Definition q_table_ok (qt : list ((nat * string) * list (string * num)))
  : Prop :=
  forall s row, od_get qt s = Some row ->
    Forall (fun a => is_Some (od_get row a)) actions.

(** Every value of the table is a number between [lo] and [hi]. *)
Definition q_table_within (lo hi : Q)
    (qt : list ((nat * string) * list (string * num))) : Prop :=
  Forall (fun entry : (nat * string) * list (string * num) =>
            Forall (fun av : string * num => within lo hi av.2) entry.2) qt.

(* ===================================================================== *)
(** * Turn segmentation of a transcription (Module 3) *)
(* ===================================================================== *)

(** A Python [str] is a sequence of Unicode code points. *)
Definition pystr : Type := list N.

(** [c.isspace()] on one code point: the white space of Unicode. *)
Definition isspace (c : N) : bool :=
  ((9 <=? c) && (c <=? 13) || (28 <=? c) && (c <=? 32)
   || (c =? 133) || (c =? 160) || (c =? 5760)
   || (8192 <=? c) && (c <=? 8202)
   || (c =? 8232) || (c =? 8233) || (c =? 8239) || (c =? 8287)
   || (c =? 12288))%N.

Fixpoint lstrip (s : pystr) : pystr :=
  match s with
  | c :: rest => if isspace c then lstrip rest else s
  | [] => []
  end.

Definition rstrip (s : pystr) : pystr := rev (lstrip (rev s)).

(** [s.strip()] *)
Definition strip (s : pystr) : pystr := rstrip (lstrip s).

(** The one-character string [" "]. *)
Definition space : pystr := [32%N].


(** The dictionaries of a Whisper result: a key that may be missing is an
    option. *)
Record whisper_word : Type := {
  w_word : option pystr;
  w_start : option num;
  w_end : option num;
}.

Record whisper_segment : Type := {
  seg_words : option (list whisper_word);
  seg_text : option pystr;
  seg_start : option num;
  seg_end : option num;
}.

Record whisper_result : Type := {
  wr_segments : option (list whisper_segment);
  wr_text : option pystr;
}.

(** [d[key]] on a dictionary with an optional key. *)
Definition require {A} (key : string) (v : option A) : result A :=
  match v with
  | Some a => Ok a
  | None => Raise (KeyError key)
  end.

(** The list [words] of [_segment_by_silence]: the words that are not
    blank, stripped, with their times ([0] when missing). *)
Definition timed_words (segments : list whisper_segment)
  : list (pystr * num * num) :=
  flat_map
    (fun seg =>
       omap (fun w =>
               let word := strip (default [] (w_word w)) in
               match word with
               | [] => None
               | _ => Some (word, default (Finite 0) (w_start w),
                            default (Finite 0) (w_end w))
               end)
            (default [] (seg_words seg)))
    segments.

(** One pass of the loop over segments, for [segments[i]] and
    [segments[i-1]]. *)
Definition segment_step (gap_threshold : num)
    (st : list pystr * pystr) (pair : whisper_segment * whisper_segment)
  : result (list pystr * pystr) :=
  let '(turns, current) := st in
  let '(seg, prev) := pair in
  start ← require "start" (seg_start seg);
  stop ← require "end" (seg_end prev);
  let gap := (start - stop)%num in
  if (gap >=? gap_threshold)%num then
    let turns := match current with [] => turns | _ => turns ++ [current] end in
    text ← require "text" (seg_text seg);
    mret (turns, strip text)
  else
    text ← require "text" (seg_text seg);
    mret (turns, current ++ space ++ strip text).

(** One pass of the loop over words, for [words[i]] and [words[i-1]]. *)
Definition word_step (gap_threshold : num)
    (st : list pystr * pystr) (pair : (pystr * num * num) * (pystr * num * num))
  : list pystr * pystr :=
  let '(turns, current) := st in
  let '((word, start, _), (_, _, stop)) := pair in
  let gap := (start - stop)%num in
  if (gap >=? gap_threshold)%num then (turns ++ [strip current], word)
  else (turns, current ++ space ++ word).

(** [turns or [text.strip()]], where [text] is the text of the result, or
    the empty string when it has none. *)
Definition turns_or_text (turns : list pystr) (wr : whisper_result)
  : list pystr :=
  match turns with
  | [] => [strip (default [] (wr_text wr))]
  | _ => turns
  end.

Definition _segment_by_silence (wr : whisper_result) (gap_threshold : num)
  : result (list pystr) :=
  let segments := default [] (wr_segments wr) in
  match segments with
  | [] => Ok [strip (default [] (wr_text wr))]
  | first :: _ =>
      let words := timed_words segments in
      match words with
      | [] =>
          text ← require "text" (seg_text first);
          st ← foldlM (segment_step gap_threshold) ([], strip text)
                      (zip (tail segments) segments);
          let '(turns, current) := st in
          let turns :=
            match current with [] => turns | _ => turns ++ [current] end in
          mret (turns_or_text turns wr)
      | (word, _, _) :: _ =>
          let '(turns, current) :=
            fold_left (word_step gap_threshold) (zip (tail words) words)
                      ([], word) in
          let turns :=
            match strip current with
            | [] => turns
            | stripped => turns ++ [stripped]
            end in
          Ok (turns_or_text turns wr)
      end
  end.

(** The text of a string literal without characters beyond ASCII. *)
Definition pystr_of (s : string) : pystr :=
  map (fun b => N.of_nat (Ascii.nat_of_ascii b)) (String.list_ascii_of_string s).

(** A transcription of two calls, 0.8 s apart. *)
Definition two_calls : whisper_result :=
  {| wr_segments :=
       Some [ {| seg_words :=
                   Some [ {| w_word := Some (pystr_of " Tower,");
                             w_start := Some (Finite 0);
                             w_end := Some (Finite 0.4) |};
                          {| w_word := Some (pystr_of " ready");
                             w_start := Some (Finite 0.5);
                             w_end := Some (Finite 0.9) |};
                          {| w_word := Some (pystr_of " ");
                             w_start := Some (Finite 0.9);
                             w_end := Some (Finite 1) |};
                          {| w_word := Some (pystr_of " Roger");
                             w_start := Some (Finite 1.7);
                             w_end := Some (Finite 2) |} ];
                 seg_text := Some (pystr_of " Tower, ready Roger");
                 seg_start := Some (Finite 0);
                 seg_end := Some (Finite 2) |} ];
     wr_text := Some (pystr_of " Tower, ready Roger") |}.




(* ##################################################################### *)
(** * Properties *)
(* ##################################################################### *)

(* ===================================================================== *)
(** ** Arithmetic of [num] *)
(* ===================================================================== *)

Lemma Qltb_lt a b : Qltb a b = true <-> (a < b)%Q.
Proof.
  unfold Qltb. rewrite negb_true_iff. split.
  - intros Hb. apply Qnot_le_lt. intros Hle.
    apply Qle_bool_iff in Hle. congruence.
  - intros Hlt. destruct (Qle_bool b a) eqn:E; [|reflexivity].
    apply Qle_bool_iff in E. lra.
Qed.

Lemma Qltb_ge a b : Qltb a b = false <-> (b <= a)%Q.
Proof. unfold Qltb. rewrite negb_false_iff. apply Qle_bool_iff. Qed.

Lemma Qeq_bool_false a b : Qeq_bool a b = false <-> ~ (a == b)%Q.
Proof.
  split; [apply Qeq_bool_neq|].
  intros Hne. destruct (Qeq_bool a b) eqn:E; [|reflexivity].
  apply Qeq_bool_iff in E. contradiction.
Qed.

(** Turns the boolean tests on rationals in the context and the goal into
    propositions [lra] reads. *)
Ltac qbool :=
  repeat match goal with
  | Hb : Qltb _ _ = true |- _ => apply Qltb_lt in Hb
  | Hb : Qltb _ _ = false |- _ => apply Qltb_ge in Hb
  | Hb : Qle_bool _ _ = true |- _ => apply Qle_bool_iff in Hb
  | Hb : Qle_bool _ _ = false |- _ =>
      apply not_true_iff_false in Hb; rewrite Qle_bool_iff in Hb
  | Hb : Qeq_bool _ _ = true |- _ => apply Qeq_bool_iff in Hb
  | Hb : Qeq_bool _ _ = false |- _ => apply Qeq_bool_false in Hb
  | |- Qltb _ _ = true => apply Qltb_lt
  | |- Qltb _ _ = false => apply Qltb_ge
  | |- Qle_bool _ _ = true => apply Qle_bool_iff
  | |- Qeq_bool _ _ = true => apply Qeq_bool_iff
  | |- Qeq_bool _ _ = false => apply Qeq_bool_false
  end.

(** Case analysis on a rational test met in the goal. *)
Ltac qcase :=
  match goal with
  | |- context [Qltb ?a ?b] => destruct (Qltb a b) eqn:?
  | |- context [Qle_bool ?a ?b] => destruct (Qle_bool a b) eqn:?
  | |- context [Qeq_bool ?a ?b] => destruct (Qeq_bool a b) eqn:?
  end.

Lemma within_finite lo hi x : within lo hi x -> Num.is_finite x = true.
Proof. intros (q & -> & _). reflexivity. Qed.

Lemma within_not_nan lo hi x : within lo hi x -> Num.is_nan x = false.
Proof. intros (q & -> & _). reflexivity. Qed.

Lemma within_weaken lo hi lo' hi' x :
  (lo' <= lo)%Q -> (hi <= hi')%Q -> within lo hi x -> within lo' hi' x.
Proof. intros Hlo Hhi (q & -> & Hq). exists q. split; [reflexivity | lra]. Qed.

Lemma np_clip_nan lo hi : np_clip NaN lo hi = NaN.
Proof. reflexivity. Qed.

Lemma np_clip_within (x : num) (lo hi : Q) :
  Num.is_nan x = false -> (lo <= hi)%Q -> within lo hi (np_clip x lo hi).
Proof.
  intros Hx Hle. unfold np_clip, np_maximum, np_minimum, within.
  destruct x as [q| | |]; try discriminate; simpl.
  - destruct (Qltb q lo) eqn:E1; simpl.
    + destruct (Qltb hi lo) eqn:E2; qbool; eexists; split;
        try reflexivity; lra.
    + destruct (Qltb hi q) eqn:E2; qbool; eexists; split;
        try reflexivity; lra.
  - exists hi. split; [reflexivity | lra].
  - destruct (Qltb hi lo) eqn:E2; qbool; eexists; split;
      try reflexivity; lra.
Qed.

Lemma mul_within (x : num) (lo hi w : Q) :
  (0 <= w)%Q -> within lo hi x ->
  within (lo * w) (hi * w) (x * w)%num.
Proof.
  intros Hw (q & -> & Hq). exists (q * w)%Q. split; [reflexivity | nra].
Qed.

Lemma one_minus_within (x : num) :
  within 0 1 x -> within 0 1 (1 - x)%num.
Proof.
  intros (q & -> & Hq). exists (1 + - q)%Q. split; [reflexivity | lra].
Qed.

Lemma add_within (x y : num) (a b c d : Q) :
  within a b x -> within c d y -> within (a + c) (b + d) (x + y)%num.
Proof.
  intros (p & -> & Hp) (q & -> & Hq). exists (p + q)%Q.
  split; [reflexivity | lra].
Qed.

Lemma mul_const_not_nan (x : num) (k : Q) :
  ~ (k == 0)%Q -> Num.is_nan x = false -> Num.is_nan (x * k)%num = false.
Proof.
  intros Hk Hx. destruct x; try discriminate; simpl; try reflexivity;
    unfold Num.scale_inf; apply Qeq_bool_false in Hk; rewrite Hk;
    destruct (Qltb 0 k); reflexivity.
Qed.

Lemma div_const_not_nan (x : num) (k : Q) :
  ~ (k == 0)%Q -> Num.is_nan x = false -> Num.is_nan (x / k)%num = false.
Proof.
  intros Hk Hx. destruct x; try discriminate; simpl.
  - apply Qeq_bool_false in Hk. rewrite Hk. reflexivity.
  - destruct (Qltb k 0); reflexivity.
  - destruct (Qltb k 0); reflexivity.
Qed.

Lemma sub_const_not_nan (x : num) (k : Q) :
  Num.is_nan x = false -> Num.is_nan (x - k)%num = false.
Proof. intros Hx. destruct x; try discriminate; reflexivity. Qed.

Lemma neg_not_nan (x : num) :
  Num.is_nan x = false -> Num.is_nan (- x)%num = false.
Proof. intros Hx. destruct x; try discriminate; reflexivity. Qed.

Lemma abs_not_nan (x : num) :
  Num.is_nan x = false -> Num.is_nan (Num.abs x) = false.
Proof. intros Hx. destruct x; try discriminate; reflexivity. Qed.

Lemma nan_add_l (x : num) : (NaN + x)%num = NaN.
Proof. destruct x; reflexivity. Qed.

Lemma nan_mul_l (x : num) : (NaN * x)%num = NaN.
Proof. destruct x; reflexivity. Qed.

Lemma nan_mul_r (x : num) : (x * NaN)%num = NaN.
Proof. destruct x; reflexivity. Qed.

Lemma nan_ltb_l (x : num) : (NaN <? x)%num = false.
Proof. reflexivity. Qed.

Lemma nan_ltb_r (x : num) : (x <? NaN)%num = false.
Proof. destruct x; reflexivity. Qed.

(* ===================================================================== *)
(** ** Indicator synthesizer *)
(* ===================================================================== *)

Lemma const_mul_within (x : num) (lo hi w : Q) :
  (0 <= w)%Q -> within lo hi x ->
  within (w * lo) (w * hi) (w * x)%num.
Proof.
  intros Hw (q & -> & Hq). exists (w * q)%Q. split; [reflexivity | nra].
Qed.

Lemma zero_within : within 0 0 0%num.
Proof. exists 0%Q. split; [reflexivity | lra]. Qed.

Lemma severity_label_step : step_function [30; 50; 70]%Q severity_label.
Proof.
  split.
  - intros a b Hab. unfold severity_label.
    destruct a as [p| | |], b as [q| | |]; simpl in *; try discriminate;
      repeat qcase; simpl; try lia; qbool; lra.
  - intros a b Hab Hbr.
    apply Forall_cons in Hbr as [H30 Hbr].
    apply Forall_cons in Hbr as [H50 Hbr].
    apply Forall_cons in Hbr as [H70 _].
    unfold severity_label.
    destruct a as [p| | |], b as [q| | |]; simpl in *; try discriminate;
      try reflexivity;
      rewrite ?andb_true_r, ?andb_false_r in H30, H50, H70;
      try apply andb_false_iff in H30; try apply andb_false_iff in H50;
      try apply andb_false_iff in H70;
      repeat qcase; try reflexivity; try discriminate; exfalso;
      repeat match goal with Hor : _ \/ _ |- _ => destruct Hor end;
      qbool; lra.
Qed.

Section IndicatorProps.
Context `{NumPy}.

(** [np.exp] of a number is a number that is not negative (possibly 0 by
    underflow or infinite by overflow). *)
Hypothesis np_exp_range :
  forall x, Num.is_nan x = false -> (0 <=? np_exp x)%num = true.

Lemma sigmoid_within (x c : num) (s : Q) :
  ~ (s == 0)%Q -> Num.is_finite c = true -> Num.is_nan x = false ->
  within 0 1 (sigmoid x c s).
Proof.
  intros Hs Hc Hx. unfold sigmoid.
  assert (Harg : Num.is_nan (- (x - c) / s)%num = false).
  { apply div_const_not_nan; [assumption|]. apply neg_not_nan.
    destruct c; try discriminate. apply sub_const_not_nan, Hx. }
  pose proof (np_exp_range _ Harg) as He.
  destruct (np_exp (- (x - c) / s)%num) as [e| | |]; simpl in He;
    try discriminate.
  - qbool. simpl. destruct (Qeq_bool (1 + e) 0) eqn:E; qbool; [lra|].
    eexists. split; [reflexivity|]. split.
    + apply Qle_shift_div_l; lra.
    + apply Qle_shift_div_r; lra.
  - simpl. exists 0%Q. split; [reflexivity | lra].
Qed.

(** Side conditions: a constant is not zero, a value is not NaN; and the
    interval of an expression built from clipped and squashed features. *)
Ltac nonzero := let Hz := fresh in intro Hz; lra.

Ltac nonan :=
  first
    [ assumption
    | reflexivity
    | apply mul_const_not_nan; [nonzero | nonan]
    | apply div_const_not_nan; [nonzero | nonan]
    | apply abs_not_nan; nonan
    | apply sub_const_not_nan; nonan
    | apply neg_not_nan; nonan
    | eapply within_not_nan; bound ]
with bound :=
  cbn [sum_values py_sum fold_left map snd];
  first
    [ apply zero_within
    | apply one_minus_within; bound
    | apply np_clip_within; [nonan | lra]
    | apply sigmoid_within; [nonzero | reflexivity | nonan]
    | eapply add_within; bound
    | eapply mul_within; [lra | bound]
    | eapply const_mul_within; [lra | bound] ].

(** [within], up to the arithmetic of the bounds. *)
Ltac bound_by := eapply within_weaken; cycle 2; [bound | lra | lra].

Lemma f0_center_finite (role : string) :
  exists c : Q,
    (if str_in "Male" role then Finite 140
     else if str_in "Female" role then Finite 200 else Finite 165) = Finite c.
Proof.
  destruct (str_in "Male" role); [eexists; reflexivity|].
  destruct (str_in "Female" role); eexists; reflexivity.
Qed.

(** The keys of [indicator_inputs], one hypothesis each. *)
Ltac split_keys Hkeys :=
  unfold indicator_inputs in Hkeys;
  repeat match type of Hkeys with
  | Forall _ (_ :: _) =>
      let Hk := fresh "Hk" in
      apply Forall_cons in Hkeys as [[? Hk] Hkeys]
  end.

Ltac rewrite_keys f :=
  unfold compute_indicators, getitem;
  repeat match goal with Hk : f !! _ = Some _ |- _ => rewrite Hk end.

(** With every read feature present no lookup raises [KeyError]. *)
Lemma compute_indicators_total (f : gmap string num) (role : string) :
  Forall (fun k => is_Some (f !! k)) indicator_inputs ->
  exists r, compute_indicators f role = Ok r.
Proof.
  intros Hkeys. split_keys Hkeys. rewrite_keys f.
  eexists. reflexivity.
Qed.

(** C1 (as amended).  For a feature set that holds every feature the
    synthesizer reads, with no NaN among its values and a product
    voiced_ratio * total_dur that is a number, [compute_indicators] returns a
    record whose fatigue, stress, cognitive and clarity scores and composite
    lie in [0,100] and whose confidence lies in [35,100]; its risk level is
    [severity_label] of the composite, a classifier that never decreases and
    changes only across 30, 50 and 70. *)
Theorem compute_indicators_bounded (f : gmap string num) (role : string) :
  Forall (fun k => is_Some (f !! k)) indicator_inputs ->
  (forall k v, f !! k = Some v -> Num.is_nan v = false) ->
  (forall vr, f !! "voiced_ratio" = Some vr ->
     Num.is_nan (vr * dict_get f "total_dur" 5)%num = false) ->
  exists r, compute_indicators f role = Ok r /\
    within 0 100 (fatigue r) /\ within 0 100 (stress r) /\
    within 0 100 (cognitive r) /\ within 0 100 (rt_clarity r) /\
    within 0 100 (composite r) /\ within 35 100 (confidence r) /\
    risk_level r = severity_label (composite r) /\
    step_function [30; 50; 70]%Q severity_label.
Proof.
  intros Hkeys Hnan Hprod. split_keys Hkeys.
  assert (Hd : Num.is_nan (dict_get f "mfccD1_mean" 0%num) = false).
  { unfold dict_get. destruct (f !! "mfccD1_mean") eqn:E; [|reflexivity].
    simpl. eapply Hnan, E. }
  pose proof (Hprod _ Hk5) as Hconf.
  repeat match goal with
  | Hk : f !! _ = Some _ |- _ => apply Hnan in Hk as ?; revert Hk
  end.
  intros. rewrite_keys f.
  destruct (f0_center_finite role) as [c ->].
  eexists. split; [reflexivity|].
  cbn [fatigue stress cognitive rt_clarity composite confidence risk_level].
  do 6 (split; [bound_by|]).
  split; [reflexivity | apply severity_label_step].
Qed.

(** A NaN short-term energy reaches the fatigue score and the composite. *)
Lemma nan_energy_reaches_scores (f : gmap string num) role :
  Forall (fun k => is_Some (f !! k)) indicator_inputs ->
  f !! "ste_mean" = Some NaN ->
  exists r, compute_indicators f role = Ok r /\
    fatigue r = NaN /\ composite r = NaN.
Proof.
  intros Hkeys Hnan. split_keys Hkeys.
  assert (x = NaN) as -> by congruence. clear Hnan.
  rewrite_keys f. eexists. split; [reflexivity|].
  cbn [fatigue composite sum_values py_sum fold_left map snd].
  change (0 + (1 - np_clip (NaN * 500) 0 1) * 20)%num with NaN.
  rewrite !nan_add_l. split; reflexivity.
Qed.

Lemma risk_chain_intervals (c : num) :
  severity_label c =
  if (c <? 30)%num then NOMINAL
  else if ((30 <=? c) && (c <? 50))%num then MONITOR
  else if ((50 <=? c) && (c <? 70))%num then CAUTION
  else ALERT.
Proof.
  unfold severity_label.
  destruct c as [q| | |]; simpl; try reflexivity.
  repeat qcase; simpl; try reflexivity; exfalso; qbool; lra.
Qed.

(** C2.  For a feature set that holds every feature the synthesizer reads,
    the record is produced, its composite is
    0.35*fatigue + 0.30*stress + 0.35*cognitive (the clarity score does not
    occur in it), and its risk level is NOMINAL below 30, MONITOR from 30
    to below 50, CAUTION from 50 to below 70 and ALERT otherwise. *)
Theorem composite_and_risk_level (f : gmap string num) (role : string) :
  Forall (fun k => is_Some (f !! k)) indicator_inputs ->
  exists r, compute_indicators f role = Ok r /\
    composite r
      = (0.35 * fatigue r + 0.30 * stress r + 0.35 * cognitive r)%num /\
    risk_level r =
      if (composite r <? 30)%num then NOMINAL
      else if ((30 <=? composite r) && (composite r <? 50))%num then MONITOR
      else if ((50 <=? composite r) && (composite r <? 70))%num then CAUTION
      else ALERT.
Proof.
  intros Hkeys. split_keys Hkeys. rewrite_keys f.
  eexists. split; [reflexivity|].
  cbn [fatigue stress cognitive composite risk_level].
  split; [reflexivity|]. apply risk_chain_intervals.
Qed.

End IndicatorProps.

Lemma Qred_nonneg (q : Q) : (0 <= q)%Q -> (0 <= Qred q)%Q.
Proof.
  intros Hq. apply Qle_trans with q; [exact Hq|].
  apply Qle_lteq. right. symmetry. apply Qred_correct.
Qed.

Lemma demo_exp_range (x : num) :
  Num.is_nan x = false -> (0 <=? np_exp (NumPy := demo_numpy) x)%num = true.
Proof.
  intros Hx. destruct x as [q| | |]; try discriminate; try reflexivity.
  cbn [np_exp demo_numpy demo_exp Num.leb].
  apply Qle_bool_iff, Qred_nonneg.
  change (Qpower (1 + q / 16) 16) with
    (let y := Qpower (1 + q / 16) 8 in y * y)%Q.
  cbv zeta. generalize (Qpower (1 + q / 16) 8). intros y.
  destruct y as [n d]. unfold Qle. simpl.
  rewrite Z.mul_1_r. apply Z.square_nonneg.
Qed.

(** C1, a run: the calm feature set satisfies the hypotheses of
    [compute_indicators_bounded]. *)
Lemma compute_indicators_bounded_witness :
  exists r, compute_indicators (H := demo_numpy) calm_features "Male Pilot"
              = Ok r /\
    within 0 100 (fatigue r) /\ within 0 100 (stress r) /\
    within 0 100 (cognitive r) /\ within 0 100 (rt_clarity r) /\
    within 0 100 (composite r) /\ within 35 100 (confidence r) /\
    risk_level r = severity_label (composite r) /\
    step_function [30; 50; 70]%Q severity_label.
Proof.
  apply (@compute_indicators_bounded demo_numpy demo_exp_range).
  - unfold indicator_inputs.
    repeat (apply Forall_cons; split; [vm_compute; eauto|]). constructor.
  - intros k v Hk. unfold calm_features in Hk.
    apply elem_of_list_to_map_2 in Hk. cbn [map fst snd] in Hk.
    repeat (apply elem_of_cons in Hk as [Hk|Hk];
            [injection Hk as _ ->; reflexivity|]).
    inversion Hk.
  - intros vr Hvr. vm_compute in Hvr. injection Hvr as <-. reflexivity.
Defined.

(** C1, as stated, fails: with a NaN feature the record is still
    produced, and its fatigue score and composite are NaN, outside
    [0,100], whatever the library functions compute. *)
Lemma compute_indicators_nan_escapes :
  every_numpy (fun NP =>
    exists r, compute_indicators nan_features "Pilot" = Ok r /\
      fatigue r = NaN /\ composite r = NaN /\
      ~ within 0 100 (fatigue r) /\ ~ within 0 100 (composite r)).
Proof.
  intros NP.
  destruct (nan_energy_reaches_scores nan_features "Pilot")
    as (r & Hr & Hfat & Hcomp).
  - unfold indicator_inputs.
    repeat (apply Forall_cons; split; [vm_compute; eauto|]). constructor.
  - vm_compute. reflexivity.
  - exists r. rewrite Hfat, Hcomp.
    repeat split; try assumption; intros (q & Hq & _); discriminate Hq.
Qed.

(** C2, a run on the calm feature set. *)
Lemma composite_and_risk_level_witness :
  exists r, compute_indicators (H := demo_numpy) calm_features "Pilot"
              = Ok r /\
    composite r
      = (0.35 * fatigue r + 0.30 * stress r + 0.35 * cognitive r)%num /\
    risk_level r =
      if (composite r <? 30)%num then NOMINAL
      else if ((30 <=? composite r) && (composite r <? 50))%num then MONITOR
      else if ((50 <=? composite r) && (composite r <? 70))%num then CAUTION
      else ALERT.
Proof.
  apply (@composite_and_risk_level demo_numpy).
  unfold indicator_inputs.
  repeat (apply Forall_cons; split; [vm_compute; eauto|]). constructor.
Defined.

(* ===================================================================== *)
(** ** Signal conditioner *)
(* ===================================================================== *)

Lemma FRAME_N_value : FRAME_N = 551.
Proof. reflexivity. Qed.

Lemma HOP_N_value : HOP_N = 220.
Proof. reflexivity. Qed.

Section Framing.
Variables (audio : list num) (frame_len hop : nat).
Hypothesis hop_pos : 0 < hop.

Local Notation "'n_frames'" :=
  (1 + (Z.of_nat (length audio) - Z.of_nat frame_len) / Z.of_nat hop)%Z
  (only parsing).

Lemma n_frames_pos : frame_len <= length audio -> (0 < n_frames)%Z.
Proof.
  intros Hlen.
  assert (0 <= (Z.of_nat (length audio) - Z.of_nat frame_len)
               / Z.of_nat hop)%Z by (apply Z.div_pos; lia).
  lia.
Qed.

Lemma n_frames_short : length audio < frame_len -> (n_frames <= 0)%Z.
Proof.
  intros Hlen.
  assert ((Z.of_nat (length audio) - Z.of_nat frame_len)
            / Z.of_nat hop < 0)%Z by (apply Z.div_lt_upper_bound; lia).
  lia.
Qed.

Lemma frame_signal_short :
  length audio < frame_len ->
  frame_signal audio frame_len hop = [repeat (Finite 0) frame_len].
Proof.
  intros Hlen. unfold frame_signal. cbv zeta.
  pose proof (n_frames_short Hlen) as Hn.
  apply Z.leb_le in Hn. rewrite Hn. reflexivity.
Qed.

Lemma frame_signal_long :
  frame_len <= length audio ->
  frame_signal audio frame_len hop =
  map (fun i => take frame_len (drop (hop * i) audio))
      (seq 0 (Z.to_nat n_frames)).
Proof.
  intros Hlen. unfold frame_signal. cbv zeta.
  pose proof (n_frames_pos Hlen) as Hn.
  apply Z.leb_gt in Hn. rewrite Hn. reflexivity.
Qed.

Lemma frame_signal_count :
  frame_len <= length audio ->
  Z.of_nat (length (frame_signal audio frame_len hop)) = n_frames.
Proof.
  intros Hlen. rewrite (frame_signal_long Hlen).
  rewrite length_map, length_seq.
  pose proof (n_frames_pos Hlen). lia.
Qed.

Lemma frame_signal_rows :
  Forall (fun fr => length fr = frame_len) (frame_signal audio frame_len hop).
Proof.
  destruct (Nat.lt_ge_cases (length audio) frame_len) as [Hlen|Hlen].
  - rewrite (frame_signal_short Hlen). constructor; [|constructor].
    apply repeat_length.
  - rewrite (frame_signal_long Hlen). apply Forall_map, Forall_forall.
    intros i Hi. apply elem_of_seq in Hi. simpl.
    rewrite length_take, length_drop.
    assert (Z.of_nat hop * Z.of_nat i
            <= Z.of_nat (length audio) - Z.of_nat frame_len)%Z.
    { transitivity (Z.of_nat hop * (n_frames - 1))%Z; [nia|].
      replace (1 + (Z.of_nat (length audio) - Z.of_nat frame_len)
                   / Z.of_nat hop - 1)%Z
        with ((Z.of_nat (length audio) - Z.of_nat frame_len)
              / Z.of_nat hop)%Z by lia.
      apply Z.mul_div_le. lia. }
    nia.
Qed.

Lemma frame_signal_nonempty : frame_signal audio frame_len hop <> [].
Proof.
  destruct (Nat.lt_ge_cases (length audio) frame_len) as [Hlen|Hlen].
  - rewrite (frame_signal_short Hlen). discriminate.
  - intros Hnil. pose proof (frame_signal_count Hlen) as Hc.
    rewrite Hnil in Hc. pose proof (n_frames_pos Hlen). simpl in Hc. lia.
Qed.

End Framing.

(** C6, amended.  The frame length and the hop are truncations, not
    roundings: 551 = int(22050*25/1000) and 220 = int(22050*10/1000), the
    latter of 220.5.  With them a buffer of [N >= 551] samples gives exactly
    [1 + floor((N - 551)/220)] frames, every frame has 551 samples, frame
    [i] is the slice starting at sample [220*i], and a buffer shorter than
    one frame (the empty one included) gives exactly one frame of 551
    zeros. *)
Theorem frame_signal_frames (audio : list num) :
  Z.of_nat FRAME_N = Num.trunc (inject_Z SR * (25 # 1000)) /\
  Z.of_nat HOP_N = Num.trunc (inject_Z SR * (10 # 1000)) /\
  FRAME_N = 551 /\ HOP_N = 220 /\
  Forall (fun fr => length fr = FRAME_N) (frame_signal audio FRAME_N HOP_N) /\
  (FRAME_N <= length audio ->
     Z.of_nat (length (frame_signal audio FRAME_N HOP_N)) =
       (1 + (Z.of_nat (length audio) - Z.of_nat FRAME_N) / Z.of_nat HOP_N)%Z /\
     forall i fr, frame_signal audio FRAME_N HOP_N !! i = Some fr ->
       fr = take FRAME_N (drop (HOP_N * i) audio)) /\
  (length audio < FRAME_N ->
     frame_signal audio FRAME_N HOP_N = [repeat (Finite 0) FRAME_N]).
Proof.
  assert (Hhop : 0 < HOP_N) by (rewrite HOP_N_value; lia).
  split; [reflexivity|]. split; [reflexivity|].
  split; [apply FRAME_N_value|]. split; [apply HOP_N_value|].
  split; [apply frame_signal_rows, Hhop|]. split.
  - intros Hlen. split; [apply frame_signal_count; assumption|].
    intros i fr Hfr. rewrite (frame_signal_long _ _ _ Hhop Hlen) in Hfr.
    rewrite list_lookup_fmap in Hfr.
    destruct (seq 0 _ !! i) as [j|] eqn:Hj; [|discriminate].
    apply lookup_seq in Hj as [-> _]. injection Hfr as <-. reflexivity.
  - apply frame_signal_short, Hhop.
Qed.

(** C6, as stated, fails: 22050 * 10 / 1000 is 220.5, which rounds to 221,
    but the hop of the code is 220.  On a buffer of 771 samples, one frame
    and one hop of the code, [frame_signal] gives two frames where the
    claimed count, [1 + floor((N - 551) / 221)], is one. *)
Lemma hop_is_truncated :
  (inject_Z SR * (10 # 1000) == 220 + (1 # 2))%Q /\
  round_half_up (inject_Z SR * (10 # 1000)) = 221%Z /\
  Z.of_nat HOP_N <> round_half_up (inject_Z SR * (10 # 1000)) /\
  Z.of_nat (length (frame_signal (repeat (Finite 1) 771) FRAME_N HOP_N))
    = 2%Z /\
  (1 + (771 - round_half_up (inject_Z SR * (25 # 1000)))
       / round_half_up (inject_Z SR * (10 # 1000)))%Z = 1%Z.
Proof.
  assert (Hhop : 0 < HOP_N) by (rewrite HOP_N_value; lia).
  split; [reflexivity|]. split; [reflexivity|].
  split; [rewrite HOP_N_value; discriminate|].
  split; [|reflexivity].
  rewrite frame_signal_count; [|exact Hhop|].
  - rewrite repeat_length, FRAME_N_value, HOP_N_value. reflexivity.
  - rewrite repeat_length, FRAME_N_value. lia.
Qed.

Lemma fold_np_maximum_finite (xs : list num) (a : Q) :
  Forall (fun x => Num.is_finite x = true) xs ->
  exists p, fold_left np_maximum xs (Finite a) = Finite p /\
    (a <= p)%Q /\ Forall (finite_le p) xs /\
    (Finite p = Finite a \/ Finite p ∈ xs).
Proof.
  revert a. induction xs as [|x xs IH]; intros a Hfin.
  - exists a. repeat split; [lra | constructor | left; reflexivity].
  - apply Forall_cons in Hfin as [Hx Hxs].
    destruct x as [q| | |]; try discriminate. simpl.
    unfold np_maximum at 2. simpl.
    destruct (Qltb a q) eqn:E; qbool.
    + destruct (IH q Hxs) as (p & Hp & Hqp & Hall & Hin).
      exists p. split; [exact Hp|]. split; [lra|]. split.
      * constructor; [exists q; split; [reflexivity | lra] | exact Hall].
      * right. destruct Hin as [->|Hin]; [left | right; exact Hin].
    + destruct (IH a Hxs) as (p & Hp & Hap & Hall & Hin).
      exists p. split; [exact Hp|]. split; [lra|]. split.
      * constructor; [exists q; split; [reflexivity | lra] | exact Hall].
      * destruct Hin as [Hin|Hin]; [left; exact Hin | right; right; exact Hin].
Qed.

Lemma np_max_finite (xs : list num) :
  xs <> [] -> Forall (fun x => Num.is_finite x = true) xs ->
  exists p, np_max xs = Ok (Finite p) /\
    Forall (finite_le p) xs /\ Finite p ∈ xs.
Proof.
  intros Hne Hfin. destruct xs as [|x xs]; [contradiction|].
  apply Forall_cons in Hfin as [Hx Hxs].
  destruct x as [a| | |]; try discriminate. simpl.
  destruct (fold_np_maximum_finite xs a Hxs) as (p & Hp & Hap & Hall & Hin).
  exists p. rewrite Hp. split; [reflexivity|]. split.
  - constructor; [exists a; split; [reflexivity | exact Hap] | exact Hall].
  - destruct Hin as [->|Hin]; [left | right; exact Hin].
Qed.

Lemma abs_finite_list (xs : list num) :
  Forall (fun x => Num.is_finite x = true) xs ->
  Forall (fun x => Num.is_finite x = true) (map Num.abs xs).
Proof.
  intros Hfin. apply Forall_map. eapply Forall_impl; [exact Hfin|].
  intros [q| | |]; simpl; congruence.
Qed.

(** The value [normalize_audio] gives a finite sample under a peak [p >= |x|]. *)
Lemma normalized_sample (x p : Q) :
  (Qabs x <= p)%Q ->
  exists y, (Finite x / (Finite p + 0.000000001))%num = Finite y /\
    (y == x / (p + 0.000000001))%Q /\ (Qabs y <= 1)%Q /\
    ((x == 0)%Q -> (y == 0)%Q).
Proof.
  intros Hx. pose proof (Qabs_nonneg x) as Hnn.
  apply Qabs_Qle_condition in Hx as [Hlo Hhi]. simpl.
  destruct (Qeq_bool (p + 0.000000001) 0) eqn:E; qbool; [lra|].
  eexists. split; [reflexivity|]. split; [reflexivity|]. split.
  - apply Qabs_Qle_condition. split.
    + apply Qle_shift_div_l; lra.
    + apply Qle_shift_div_r; lra.
  - intros Hz. rewrite Hz. unfold Qdiv. apply Qmult_0_l.
Qed.

(** C7 (as amended).  On a non-empty buffer of finite samples
    [normalize_audio] does not raise and divides every sample by
    [max(|x|) + 1e-9]; every output sample is finite with magnitude at most
    1, so the output's peak is at most 1; and zero samples stay zero, so an
    all-zero buffer maps to an all-zero buffer. *)
Theorem normalize_audio_peak (audio : list num) :
  audio <> [] ->
  Forall (fun x => Num.is_finite x = true) audio ->
  exists (peak : Q) (out : list num),
    np_max (map Num.abs audio) = Ok (Finite peak) /\
    normalize_audio audio = Ok out /\
    out = map (fun x => (x / (Finite peak + 0.000000001))%num) audio /\
    Forall (magnitude_le 1) out /\
    (exists m, np_max (map Num.abs out) = Ok m /\ (m <=? 1)%num = true) /\
    (Forall is_zero audio -> Forall is_zero out).
Proof.
  intros Hne Hfin.
  destruct (np_max_finite (map Num.abs audio)) as (peak & Hmax & Hle & _).
  { destruct audio; [contradiction | discriminate]. }
  { apply abs_finite_list, Hfin. }
  exists peak. eexists. split; [exact Hmax|].
  unfold normalize_audio. rewrite Hmax. split; [reflexivity|].
  split; [reflexivity|].
  assert (Hsamples : Forall (fun x =>
            exists q y, x = Finite q /\
              (x / (Finite peak + 0.000000001))%num = Finite y /\
              (Qabs y <= 1)%Q /\ ((q == 0)%Q -> (y == 0)%Q)) audio).
  { apply Forall_forall. intros x Hx.
    rewrite Forall_forall in Hfin. specialize (Hfin x Hx).
    destruct x as [q| | |]; try discriminate.
    rewrite Forall_forall in Hle.
    destruct (Hle (Num.abs (Finite q))) as (a & Ha & Hap).
    { apply list_elem_of_fmap. exists (Finite q). split; [reflexivity | exact Hx]. }
    injection Ha as <-.
    destruct (normalized_sample q peak Hap) as (y & Hy & _ & Hy1 & Hy0).
    exists q, y. repeat split; assumption. }
  assert (Hout : Forall (magnitude_le 1)
            (map (fun x => (x / (Finite peak + 0.000000001))%num) audio)).
  { apply Forall_map. eapply Forall_impl; [exact Hsamples|].
    intros x (q & y & _ & Hy & Hy1 & _). cbv beta. rewrite Hy.
    exists y. split; [reflexivity | exact Hy1]. }
  split; [exact Hout|]. split.
  - destruct (np_max_finite
      (map Num.abs (map (fun x => (x / (Finite peak + 0.000000001))%num) audio)))
      as (m & Hm & _ & Hin).
    { destruct audio; [contradiction | discriminate]. }
    { apply abs_finite_list. eapply Forall_impl; [exact Hout|].
      intros x (q & -> & _). reflexivity. }
    exists (Finite m). split; [exact Hm|].
    apply list_elem_of_fmap in Hin as (y & Hy & Hin).
    rewrite Forall_forall in Hout. destruct (Hout y Hin) as (q & -> & Hq).
    injection Hy as ->. simpl. qbool. exact Hq.
  - intros Hzero. apply Forall_map.
    rewrite Forall_forall in Hzero, Hsamples. apply Forall_forall.
    intros x Hx. destruct (Hsamples x Hx) as (q & y & -> & Hy & _ & Hy0).
    cbv beta. unfold is_zero. rewrite Hy. simpl. qbool. apply Hy0.
    specialize (Hzero _ Hx). unfold is_zero in Hzero. simpl in Hzero.
    qbool. exact Hzero.
Qed.

(** C7, a run on a three-sample buffer. *)
Lemma normalize_audio_peak_witness :
  exists (peak : Q) (out : list num),
    np_max (map Num.abs [Finite 0.5; Finite (-0.25); Finite 0])
      = Ok (Finite peak) /\
    normalize_audio [Finite 0.5; Finite (-0.25); Finite 0] = Ok out /\
    out = map (fun x => (x / (Finite peak + 0.000000001))%num)
              [Finite 0.5; Finite (-0.25); Finite 0] /\
    Forall (magnitude_le 1) out /\
    (exists m, np_max (map Num.abs out) = Ok m /\ (m <=? 1)%num = true) /\
    (Forall is_zero [Finite 0.5; Finite (-0.25); Finite 0] ->
     Forall is_zero out).
Proof.
  apply normalize_audio_peak.
  - discriminate.
  - repeat constructor.
Defined.

(** C7, as stated, fails: the buffer [inf] is not zero, and its normalized
    form is [NaN], whose peak magnitude is NaN and not at most 1. *)
Lemma normalize_audio_inf_is_nan :
  normalize_audio [PosInf] = Ok [NaN] /\
  np_max (map Num.abs [NaN]) = Ok NaN /\
  (NaN <=? 1)%num = false.
Proof. repeat split. Qed.

(* ===================================================================== *)
(** ** Peak picking *)
(* ===================================================================== *)

Lemma plateau_end_bounds (x : list num) (i_max : nat) (xi : num)
    (fuel i_ahead : nat) :
  i_ahead <= plateau_end x i_max xi fuel i_ahead /\
  plateau_end x i_max xi fuel i_ahead <= Nat.max i_ahead i_max.
Proof.
  revert i_ahead. induction fuel as [|fuel IH]; intros i_ahead; simpl.
  - lia.
  - destruct (i_ahead <? i_max)%nat eqn:E; simpl; [|lia].
    apply Nat.ltb_lt in E.
    destruct (nth i_ahead x NaN =? xi)%num; [|lia].
    specialize (IH (S i_ahead)). lia.
Qed.

(** A local maximum is never the first or the last sample. *)
Lemma local_maxima_loop_interior (x : list num) (i_max fuel i : nat) :
  Forall (fun p => i <= p < i_max) (local_maxima_loop x i_max fuel i).
Proof.
  revert i. induction fuel as [|fuel IH]; intros i;
    cbn [local_maxima_loop]; [constructor|].
  destruct (i <? i_max)%nat eqn:E; [|constructor].
  apply Nat.ltb_lt in E.
  assert (Hnext : Forall (fun p => i <= p < i_max)
                    (local_maxima_loop x i_max fuel (i + 1))).
  { eapply Forall_impl; [apply IH|]. simpl. intros p Hp. lia. }
  destruct (nth (i - 1) x NaN <? nth i x NaN)%num; [|exact Hnext].
  pose proof (plateau_end_bounds x i_max (nth i x NaN) (length x) (i + 1))
    as [Hlo Hhi].
  set (i_ahead := plateau_end x i_max (nth i x NaN) (length x) (i + 1)) in *.
  destruct (nth i_ahead x NaN <? nth i x NaN)%num; [|exact Hnext].
  constructor.
  - assert (Hmid : i <= (i + (i_ahead - 1)) / 2 <= i_ahead - 1).
    { split.
      - apply Nat.div_le_lower_bound; lia.
      - apply Nat.Div0.div_le_upper_bound; lia. }
    lia.
  - eapply Forall_impl; [apply IH|]. simpl. intros p Hp. lia.
Qed.

Lemma find_peaks_interior (x : list num) :
  Forall (fun p => 1 <= p /\ p + 1 < length x) (find_peaks_height0 x).
Proof.
  unfold find_peaks_height0, local_maxima_1d.
  apply Forall_forall. intros p Hp.
  apply list_elem_of_filter in Hp as [_ Hp].
  pose proof (local_maxima_loop_interior x (length x - 1) (length x) 1) as Hall.
  rewrite Forall_forall in Hall. specialize (Hall p Hp). lia.
Qed.

Lemma find_peaks_height (x : list num) :
  Forall (fun p => (0 <=? nth p x NaN)%num = true) (find_peaks_height0 x).
Proof.
  unfold find_peaks_height0. apply Forall_forall. intros p Hp.
  apply list_elem_of_filter in Hp as [Hh _]. exact Hh.
Qed.

Lemma argmax_from_lt (xs : list num) (i best_i : nat) (best : num) :
  best_i < i -> argmax_from xs i best_i best < i + length xs.
Proof.
  revert i best_i best. induction xs as [|x xs IH]; intros i best_i best Hlt;
    simpl; [lia|].
  destruct (negb (Num.is_nan best) && (Num.is_nan x || (best <? x)%num)).
  - specialize (IH (S i) i x). lia.
  - specialize (IH (S i) best_i best). lia.
Qed.

Lemma np_argmax_lt (xs : list num) :
  xs <> [] -> exists k, np_argmax xs = Ok k /\ k < length xs.
Proof.
  intros Hne. destruct xs as [|x xs]; [contradiction|].
  eexists. split; [reflexivity|].
  pose proof (argmax_from_lt xs 1 0 x). simpl. lia.
Qed.

(* ===================================================================== *)
(** ** Pitch engine *)
(* ===================================================================== *)

Lemma int_div_floor (a b : Z) :
  (0 <= a)%Z -> (0 < b)%Z -> int_div a b = (a / b)%Z.
Proof.
  intros Ha Hb. unfold int_div, Num.trunc.
  destruct b as [|b|b]; try lia. simpl.
  rewrite Z.mul_1_r, Pos.mul_1_l. apply Z.quot_div_nonneg; lia.
Qed.

Lemma np_max_nonempty (xs : list num) :
  xs <> [] -> exists p, np_max xs = Ok p.
Proof. destruct xs; [contradiction | eexists; reflexivity]. Qed.

Lemma np_correlate_tail_ok (a : list num) :
  a <> [] -> np_correlate_tail a = Ok (autocorr a).
Proof. destruct a; [contradiction | reflexivity]. Qed.

Lemma nonempty_length {A} (xs : list A) : xs <> [] <-> 0 < length xs.
Proof. destruct xs; simpl; split; intros; try lia; congruence. Qed.

Lemma length_autocorr (a : list num) : length (autocorr a) = length a.
Proof. unfold autocorr. rewrite length_map, length_seq. reflexivity. Qed.

Lemma length_slice {A} (xs : list A) (lo hi : nat) :
  hi <= length xs -> length (slice xs lo hi) = hi - lo.
Proof. intros Hhi. unfold slice. rewrite length_take, length_drop. lia. Qed.

Lemma seq_item_lt {A} (xs : list A) (i : nat) :
  i < length xs -> exists x, seq_item xs i = Ok x /\ xs !! i = Some x.
Proof.
  intros Hi. unfold seq_item.
  destruct (lookup_lt_is_Some_2 xs i Hi) as [x Hx].
  exists x. rewrite Hx. split; reflexivity.
Qed.

(** A lag strictly between [int(sr/500)] and [int(sr/60) - 1] is a frequency
    between 60 and 500 Hz. *)
Lemma lag_in_band (sr : Z) (best : nat) :
  (0 < sr)%Z ->
  (int_div sr 500 < Z.of_nat best)%Z ->
  (Z.of_nat best < int_div sr 60 - 1)%Z ->
  within 60 500 (Num.of_Z sr / Num.of_nat best)%num.
Proof.
  intros Hsr Hlo Hhi.
  rewrite int_div_floor in Hlo, Hhi by lia.
  assert (H60 : (60 * Z.of_nat best <= sr)%Z).
  { pose proof (Z.mul_div_le sr 60). lia. }
  assert (H500 : (sr < 500 * Z.of_nat best)%Z).
  { pose proof (Z.mul_succ_div_gt sr 500). lia. }
  assert (Hpos : (0 < Z.of_nat best)%Z).
  { assert (0 <= sr / 500)%Z by (apply Z.div_pos; lia). lia. }
  unfold Num.of_nat, Num.of_Z. simpl.
  destruct (Qeq_bool (inject_Z (Z.of_nat best)) 0) eqn:E.
  { apply Qeq_bool_iff in E. unfold Qeq in E. simpl in E. lia. }
  eexists. split; [reflexivity|].
  assert (Hq : (0 < inject_Z (Z.of_nat best))%Q).
  { unfold Qlt. simpl. lia. }
  split.
  - apply Qle_shift_div_l; [exact Hq|]. unfold Qle. simpl. lia.
  - apply Qle_shift_div_r; [exact Hq|]. unfold Qle. simpl. lia.
Qed.

(** With a zero-lag value of at least 1e-12, passing the voicing test on the
    floored denominator implies passing it on the plain ratio. *)
Lemma voicing_ratio (corr_best corr0 : num) :
  (corr0 <? 0.000000000001)%num = false ->
  (corr_best / (corr0 + 0.000000000001) >=? 0.3)%num = true ->
  (corr_best / corr0 >=? 0.3)%num = true.
Proof.
  intros H0 Hr.
  destruct corr0 as [q0| | |], corr_best as [p| | |]; simpl in *;
    try discriminate; try reflexivity.
  - qbool.
    destruct (Qeq_bool (q0 + 0.000000000001) 0) eqn:E1; qbool; [lra|].
    destruct (Qeq_bool q0 0) eqn:E2; qbool; [lra|].
    simpl in Hr. qbool.
    assert (Hmul : (p / (q0 + 0.000000000001) * (q0 + 0.000000000001) == p)%Q).
    { field. lra. }
    apply Qle_shift_div_l; [lra|]. nra.
  - destruct (Qltb (q0 + 0.000000000001) 0) eqn:E1; simpl in Hr;
      try discriminate.
    qbool. destruct (Qltb q0 0) eqn:E2; qbool; [lra | reflexivity].
  - destruct (Qltb (q0 + 0.000000000001) 0) eqn:E1; simpl in Hr;
      try discriminate.
    qbool. lra.
Qed.

Ltac monad_step := cbn [mbind result_bind mret result_ret fmap result_fmap].
Ltac monad_step_in Hyp :=
  cbn [mbind result_bind mret result_ret fmap result_fmap] in Hyp.

Lemma mapM_ok {A B} (f : A -> result B) (l : list A) :
  Forall (fun x => exists y, f x = Ok y) l ->
  exists ys, mapM f l = Ok ys /\ Forall2 (fun x y => f x = Ok y) l ys.
Proof.
  induction l as [|x l IH]; intros Hall.
  - exists []. split; [reflexivity | constructor].
  - apply Forall_cons in Hall as [[y Hy] Hl].
    destruct (IH Hl) as (ys & Hys & Hrel).
    exists (y :: ys). split.
    + cbn [mapM]. rewrite Hy. monad_step. rewrite Hys. reflexivity.
    + constructor; assumption.
Qed.

Lemma mapM_results {A B} (f : A -> result B) (P : B -> Prop) l ys :
  Forall2 (fun x y => f x = Ok y) l ys ->
  Forall (fun x => forall y, f x = Ok y -> P y) l ->
  Forall P ys.
Proof.
  intros Hrel. induction Hrel as [|x y l ys Hxy Hrel IH]; intros Hall.
  - constructor.
  - apply Forall_cons in Hall as [Hx Hl].
    constructor; [apply Hx, Hxy | apply IH, Hl].
Qed.

Lemma frame_nonempty (audio : list num) :
  Forall (fun fr => fr <> []) (frame_signal audio FRAME_N HOP_N).
Proof.
  eapply Forall_impl.
  - apply (frame_signal_rows audio FRAME_N HOP_N).
    rewrite HOP_N_value. lia.
  - intros fr Hlen Hnil. rewrite Hnil, FRAME_N_value in Hlen. discriminate.
Qed.

Section PitchProps.
Context `{NumPy}.

(** [np.hamming(n)] has [n] entries. *)
Hypothesis np_hamming_length : forall n, length (np_hamming n) = n.

Lemma length_hamming_windowed (frame : list num) :
  length (hamming_windowed frame) = length frame.
Proof.
  unfold hamming_windowed. rewrite length_zip_with, np_hamming_length. lia.
Qed.

Lemma clipped_autocorr_ok (frame : list num) :
  frame <> [] ->
  exists corr, clipped_autocorr frame = Ok corr /\
    length corr = length frame.
Proof.
  intros Hne. unfold clipped_autocorr. apply nonempty_length in Hne.
  destruct (np_max_nonempty (map Num.abs (hamming_windowed frame)))
    as [peak Hpeak].
  { apply nonempty_length.
    rewrite length_map, length_hamming_windowed. exact Hne. }
  rewrite Hpeak. monad_step. rewrite np_correlate_tail_ok.
  - eexists. split; [reflexivity|].
    rewrite length_autocorr, length_map. apply length_hamming_windowed.
  - apply nonempty_length.
    rewrite length_map, length_hamming_windowed. exact Hne.
Qed.

Ltac returns_zero :=
  eexists; split; [reflexivity | split; [reflexivity | left; reflexivity]].

(** For a frame with at least one sample and a positive sample rate,
    [estimate_f0_frame] returns 0 or [sr/best] for a lag [best] that passed
    the voicing test. *)
Lemma estimate_f0_frame_voicing (frame : list num) (sr : Z) :
  (0 < sr)%Z -> frame <> [] ->
  exists corr f0,
    clipped_autocorr frame = Ok corr /\
    estimate_f0_frame frame sr = Ok f0 /\
    (f0 = Finite 0 \/
     within 60 500 f0 /\ exists best, voiced_at sr corr f0 best).
Proof.
  intros Hsr Hne.
  destruct (clipped_autocorr_ok frame Hne) as (corr & Hcorr & Hlen).
  exists corr. unfold estimate_f0_frame. rewrite Hcorr. monad_step.
  assert (Hmin : (0 <= int_div sr 500)%Z).
  { rewrite int_div_floor by lia. apply Z.div_pos; lia. }
  set (lag_min := int_div sr 500) in *.
  set (lag_max := Z.min (int_div sr 60) (Z.of_nat (length corr) - 1)).
  destruct (lag_max <=? lag_min)%Z eqn:Elag;
    [returns_zero|].
  apply Z.leb_gt in Elag.
  destruct (seq_item_lt corr 0) as (corr0 & Hc0 & Hl0).
  { destruct frame; [contradiction | simpl in Hlen; lia]. }
  rewrite Hc0. monad_step.
  destruct (corr0 <? 0.000000000001)%num eqn:Ezero;
    [returns_zero|].
  set (window := slice corr (Z.to_nat lag_min) (Z.to_nat lag_max)).
  assert (Hwin : length window = Z.to_nat lag_max - Z.to_nat lag_min).
  { apply length_slice. unfold lag_max. lia. }
  destruct (length (find_peaks_height0 window) =? 0)%nat eqn:Epk;
    [returns_zero|].
  apply Nat.eqb_neq in Epk.
  destruct (np_argmax_lt
              (map (fun p => nth p window NaN) (find_peaks_height0 window)))
    as (k & Hk & Hklt).
  { intros Hnil. apply (f_equal length) in Hnil.
    rewrite length_map in Hnil. simpl in Hnil. contradiction. }
  rewrite Hk. monad_step. rewrite length_map in Hklt.
  destruct (seq_item_lt _ _ Hklt) as (p & Hp & Hpl).
  rewrite Hp. monad_step.
  pose proof (find_peaks_interior window) as Hint.
  rewrite Forall_forall in Hint.
  destruct (Hint p) as [Hp1 Hp2]; [eapply list_elem_of_lookup_2, Hpl|].
  set (best := p + Z.to_nat lag_min).
  destruct (seq_item_lt corr best) as (cb & Hcb & Hlb).
  { unfold best, lag_max in *. lia. }
  rewrite Hcb. monad_step.
  destruct (cb / (corr0 + 0.000000000001) >=? 0.3)%num eqn:Eratio;
    [|returns_zero].
  eexists. split; [reflexivity|]. split; [reflexivity|]. right.
  assert (Hb1 : (lag_min < Z.of_nat best)%Z) by (unfold best; lia).
  assert (Hb2 : (Z.of_nat best < lag_max - 1)%Z) by (unfold best; lia).
  split.
  - apply lag_in_band; [exact Hsr | exact Hb1 | unfold lag_max in Hb2; lia].
  - exists best. split; [reflexivity|]. split; [exact Hb1|].
    split; [exact Hb2|]. exists corr0, cb.
    repeat split; try assumption.
    apply voicing_ratio; assumption.
Qed.

(** The F0 track has one estimate per frame, each 0 or in [60,500]. *)
Lemma compute_f0_track_range (audio : list num) (sr : Z) :
  (0 < sr)%Z ->
  exists track, compute_f0_track audio sr = Ok track /\
    length track = length (frame_signal audio FRAME_N HOP_N) /\
    Forall (fun v => v = Finite 0 \/ within 60 500 v) track.
Proof.
  intros Hsr. unfold compute_f0_track.
  destruct (mapM_ok (fun f => estimate_f0_frame f sr)
              (frame_signal audio FRAME_N HOP_N)) as (track & Htrack & Hrel).
  { eapply Forall_impl; [apply frame_nonempty|]. intros fr Hne.
    destruct (estimate_f0_frame_voicing fr sr Hsr Hne) as (_ & f0 & _ & Hf0 & _).
    exists f0. exact Hf0. }
  exists track. split; [exact Htrack|]. split.
  - symmetry. eapply Forall2_length, Hrel.
  - eapply mapM_results; [exact Hrel|].
    eapply Forall_impl; [apply frame_nonempty|]. intros fr Hfr v Hv.
    destruct (estimate_f0_frame_voicing fr sr Hsr Hfr)
      as (corr & f0 & _ & Hf0 & Hrange).
    rewrite Hf0 in Hv. injection Hv as Hv. subst v.
    destruct Hrange as [Hz | [Hw _]]; [left | right]; assumption.
Qed.

(** C3.  At a positive sample rate: for every frame that has a sample,
    [estimate_f0_frame] returns exactly 0 or a value in [60,500]; a non-zero
    value is [sr/best] for a lag [best] strictly inside the searched range
    [int(sr/500), min(int(sr/60), len-1)) whose autocorrelation divided by
    the zero-lag value is at least 0.3; and for every buffer the F0 track
    holds one such estimate per frame. *)
Theorem f0_estimates_in_band (sr : Z) :
  (0 < sr)%Z ->
  (forall frame, frame <> [] ->
     exists corr f0,
       clipped_autocorr frame = Ok corr /\
       estimate_f0_frame frame sr = Ok f0 /\
       (f0 = Finite 0 \/
        within 60 500 f0 /\ exists best, voiced_at sr corr f0 best)) /\
  (forall audio,
     exists track, compute_f0_track audio sr = Ok track /\
       length track = length (frame_signal audio FRAME_N HOP_N) /\
       Forall (fun v => v = Finite 0 \/ within 60 500 v) track).
Proof.
  intros Hsr. split.
  - intros frame Hne. apply estimate_f0_frame_voicing; assumption.
  - intros audio. apply compute_f0_track_range, Hsr.
Qed.

(** With fewer than 4 positive estimates the early return is taken. *)
Lemma few_voiced_fallback (audio : list num) (sr : Z) (f0 : list num) :
  compute_f0_track audio sr = Ok f0 ->
  length (filter (fun v => (v >? 0)%num = true) f0) < 4 ->
  compute_jitter_shimmer audio sr
    = Ok (jitter_shimmer_dict (Finite 0) (Finite 0) (Finite 0) (Finite 0)).
Proof.
  intros Hf0 Hfew. unfold compute_jitter_shimmer. rewrite Hf0. monad_step.
  apply Nat.ltb_lt in Hfew. rewrite Hfew. reflexivity.
Qed.

(** C9.  At a positive sample rate the F0 track of every buffer is
    computed, and when fewer than 4 of its estimates are positive
    [compute_jitter_shimmer] returns, without raising, the dictionary whose
    four values are the fallback 0. *)
Theorem jitter_shimmer_fallback (audio : list num) (sr : Z) :
  (0 < sr)%Z ->
  exists f0, compute_f0_track audio sr = Ok f0 /\
    (length (filter (fun v => (v >? 0)%num = true) f0) < 4 ->
     exists js, compute_jitter_shimmer audio sr = Ok js /\
       js !! "jitter_local" = Some (Finite 0) /\
       js !! "jitter_rap" = Some (Finite 0) /\
       js !! "shimmer_local" = Some (Finite 0) /\
       js !! "shimmer_db" = Some (Finite 0)).
Proof.
  intros Hsr.
  destruct (compute_f0_track_range audio sr Hsr) as (f0 & Hf0 & _).
  exists f0. split; [exact Hf0|]. intros Hfew.
  rewrite (few_voiced_fallback audio sr f0 Hf0 Hfew).
  eexists. split; [reflexivity|]. repeat split; reflexivity.
Qed.

End PitchProps.

(* ===================================================================== *)
(** ** Linear predictive engine *)
(* ===================================================================== *)

Lemma fold_insert_length {A} (g : nat -> A) (js : list nat) (a : list A) :
  length (fold_left (fun acc j => <[j := g j]> acc) js a) = length a.
Proof.
  revert a. induction js as [|j js IH]; intros a; simpl; [reflexivity|].
  rewrite IH. apply length_insert.
Qed.

Section LPCProps.
Context `{NumPy}.

(** [np.hamming(n)] has [n] entries. *)
Hypothesis np_hamming_length : forall n, length (np_hamming n) = n.

Lemma lpc_step_ok (r a : list num) (e : num) (order i : nat) :
  length r = order + 1 -> length a = order -> i < order ->
  exists a' e', lpc_step r (a, e) i = Ok (a', e') /\ length a' = order.
Proof.
  intros Hr Ha Hi. unfold lpc_step.
  destruct (mapM_ok (fun j => rij ← seq_item r (i - j);
                              mret (nth j a NaN * rij)%num) (seq 0 i))
    as (terms & Hterms & _).
  { apply Forall_forall. intros j _.
    destruct (seq_item_lt r (i - j)) as (rij & Hrij & _); [lia|].
    rewrite Hrij. eexists. reflexivity. }
  rewrite Hterms. monad_step.
  destruct (seq_item_lt r (i + 1)) as (rn & Hrn & _); [lia|].
  rewrite Hrn. monad_step.
  eexists. eexists. split; [reflexivity|].
  rewrite fold_insert_length, length_insert. exact Ha.
Qed.

Lemma levinson_ok (r : list num) (order : nat) (idxs : list nat)
    (a : list num) (e : num) :
  length r = order + 1 -> length a = order ->
  Forall (fun i => i < order) idxs ->
  exists a' e', foldlM (lpc_step r) (a, e) idxs = Ok (a', e') /\
    length a' = order.
Proof.
  intros Hr. revert a e. induction idxs as [|i idxs IH]; intros a e Ha Hall.
  - exists a, e. split; [reflexivity | exact Ha].
  - apply Forall_cons in Hall as [Hi Hidxs].
    destruct (lpc_step_ok r a e order i Hr Ha Hi) as (a1 & e1 & Hstep & Ha1).
    cbn [foldlM]. rewrite Hstep. monad_step. apply IH; assumption.
Qed.

(** [compute_lpc] on a frame longer than the order. *)
Lemma compute_lpc_ok (frame : list num) (order : nat) :
  order < length frame ->
  exists full r0 a,
    np_correlate_tail (hamming_windowed frame) = Ok full /\
    full !! 0 = Some r0 /\
    compute_lpc frame order = Ok a /\
    length a = order /\
    ((r0 <? 0.000000000001)%num = true -> a = repeat (Finite 0) order).
Proof.
  intros Hlen. unfold compute_lpc.
  assert (Hw : length (hamming_windowed frame) = length frame).
  { unfold hamming_windowed. rewrite length_zip_with, np_hamming_length. lia. }
  rewrite np_correlate_tail_ok by (apply nonempty_length; lia).
  monad_step.
  set (full := autocorr (hamming_windowed frame)).
  assert (Hfull : length full = length frame).
  { unfold full. rewrite length_autocorr. exact Hw. }
  assert (Hr : length (take (order + 1) full) = order + 1).
  { rewrite length_take. lia. }
  destruct (seq_item_lt (take (order + 1) full) 0) as (r0 & Hr0 & Hl0); [lia|].
  rewrite lookup_take_lt in Hl0 by lia.
  exists full, r0. rewrite Hr0. monad_step.
  destruct (r0 <? 0.000000000001)%num eqn:E.
  - eexists. split; [reflexivity|]. split; [exact Hl0|].
    split; [reflexivity|]. split; [apply repeat_length | reflexivity].
  - destruct (levinson_ok (take (order + 1) full) order (seq 0 order)
                (repeat (Finite 0) order) r0) as (a & e & Hfold & Ha).
    + exact Hr.
    + apply repeat_length.
    + apply Forall_forall. intros i Hi. apply elem_of_seq in Hi. lia.
    + rewrite Hfold. monad_step. exists a.
      split; [reflexivity|]. split; [exact Hl0|].
      split; [reflexivity|]. split; [exact Ha | discriminate].
Qed.

(** C10.  For a frame longer than the order, [compute_lpc] returns, without
    raising, a coefficient vector of exactly [order] entries; and when the
    zero-lag autocorrelation of the windowed frame is below 1e-12 the
    recursion is skipped and the vector is all zeros.  Every frame of the
    frame matrix has 551 samples, and the order is 16. *)
Theorem compute_lpc_order (frame : list num) (order : nat) :
  order < length frame ->
  exists full r0 a,
    np_correlate_tail (hamming_windowed frame) = Ok full /\
    full !! 0 = Some r0 /\
    compute_lpc frame order = Ok a /\
    length a = order /\
    ((r0 <? 0.000000000001)%num = true -> a = repeat (Finite 0) order).
Proof. apply compute_lpc_ok. Qed.

End LPCProps.

(* ===================================================================== *)
(** ** Runs on the demonstration instance *)
(* ===================================================================== *)

Lemma demo_hamming_length (n : nat) :
  length (np_hamming (NumPy := demo_numpy) n) = n.
Proof. apply repeat_length. Qed.

(** At 1000 Hz a pulse every 5 samples is heard as 200 Hz. *)
Example estimate_f0_pulse_train :
  estimate_f0_frame (H := demo_numpy) pulse_train 1000 = Ok (Finite (1000 # 5)).
Proof. vm_compute. reflexivity. Qed.

(** A frame holding a NaN is unvoiced. *)
Example estimate_f0_nan_frame :
  estimate_f0_frame (H := demo_numpy) [NaN; Finite 1; Finite 2] 1000
  = Ok (Finite 0).
Proof. vm_compute. reflexivity. Qed.

(** A flat top counts once, at its middle. *)
Example find_peaks_plateau :
  find_peaks_height0
    [Finite 0; Finite 1; Finite 1; Finite 0; Finite 2; Finite 1; Finite 3]
  = [1; 4].
Proof. vm_compute. reflexivity. Qed.

(** C3, at the sample rate 1000 Hz. *)
Lemma f0_estimates_in_band_witness :
  (forall frame, frame <> [] ->
     exists corr f0,
       clipped_autocorr (H := demo_numpy) frame = Ok corr /\
       estimate_f0_frame (H := demo_numpy) frame 1000 = Ok f0 /\
       (f0 = Finite 0 \/
        within 60 500 f0 /\ exists best, voiced_at 1000 corr f0 best)) /\
  (forall audio,
     exists track, compute_f0_track (H := demo_numpy) audio 1000 = Ok track /\
       length track = length (frame_signal audio FRAME_N HOP_N) /\
       Forall (fun v => v = Finite 0 \/ within 60 500 v) track).
Proof.
  apply (@f0_estimates_in_band demo_numpy demo_hamming_length 1000). lia.
Defined.

(** C9, on a buffer of three samples at the operating rate. *)
Lemma jitter_shimmer_fallback_witness :
  exists f0,
    compute_f0_track (H := demo_numpy) [Finite 1; Finite 0; Finite 1] SR
      = Ok f0 /\
    (length (filter (fun v => (v >? 0)%num = true) f0) < 4 ->
     exists js,
       compute_jitter_shimmer (H := demo_numpy)
         [Finite 1; Finite 0; Finite 1] SR = Ok js /\
       js !! "jitter_local" = Some (Finite 0) /\
       js !! "jitter_rap" = Some (Finite 0) /\
       js !! "shimmer_local" = Some (Finite 0) /\
       js !! "shimmer_db" = Some (Finite 0)).
Proof.
  apply (@jitter_shimmer_fallback demo_numpy demo_hamming_length).
  reflexivity.
Defined.

(** C10, on a frame of four samples and order 2. *)
Lemma compute_lpc_order_witness :
  exists full r0 a,
    np_correlate_tail
      (hamming_windowed (H := demo_numpy)
         [Finite 1; Finite 2; Finite 3; Finite 1]) = Ok full /\
    full !! 0 = Some r0 /\
    compute_lpc (H := demo_numpy)
      [Finite 1; Finite 2; Finite 3; Finite 1] 2 = Ok a /\
    length a = 2 /\
    ((r0 <? 0.000000000001)%num = true -> a = repeat (Finite 0) 2).
Proof.
  apply (@compute_lpc_order demo_numpy demo_hamming_length).
  simpl. lia.
Defined.

(* ===================================================================== *)
(** ** Caches and determinism *)
(* ===================================================================== *)

Section StoreProps.
Context `{NumPy}.

Lemma empty_store_ok : store_ok empty_store.
Proof.
  split.
  - intros sr n_fft n_mels fbank Hget. simpl in Hget.
    rewrite lookup_empty in Hget. discriminate.
  - intros ab sr feats Hget. simpl in Hget.
    rewrite lookup_empty in Hget. discriminate.
Qed.

(** Under the invariant [get_fbank] returns what [mel_filterbank] builds,
    keeps the invariant and leaves the memo table alone. *)
Lemma get_fbank_spec (sr : Z) (n_fft n_mels : nat) (s : store) :
  fbank_ok s ->
  (get_fbank sr n_fft n_mels s).1 = mel_filterbank sr n_fft n_mels 80%num 8000%num /\
  fbank_ok (get_fbank sr n_fft n_mels s).2 /\
  data_cache (get_fbank sr n_fft n_mels s).2 = data_cache s.
Proof.
  intros Hok. unfold get_fbank.
  destruct (fbank_cache s !! (sr, n_fft, n_mels)) as [fbank|] eqn:Hget.
  - simpl. split; [symmetry; apply Hok, Hget|]. split; [exact Hok | reflexivity].
  - destruct (mel_filterbank sr n_fft n_mels 80%num 8000%num) as [fbank|e] eqn:Hmel;
      simpl; (split; [reflexivity|]); (split; [|reflexivity]); [|exact Hok].
    intros sr' n_fft' n_mels' fbank' Hget'. simpl in Hget'.
    destruct (decide ((sr, n_fft, n_mels) = (sr', n_fft', n_mels'))) as [Heq|Hne].
    + rewrite Heq, lookup_insert_eq in Hget'. injection Heq as <- <- <-.
      congruence.
    + rewrite lookup_insert_ne in Hget' by exact Hne. apply Hok, Hget'.
Qed.

Lemma compute_mfcc_store (audio : list num) (sr : Z) (n_mfcc n_fft : nat)
    (s : store) :
  fbank_ok s ->
  (compute_mfcc audio sr n_mfcc n_fft s).1
    = (compute_mfcc audio sr n_mfcc n_fft empty_store).1 /\
  fbank_ok (compute_mfcc audio sr n_mfcc n_fft s).2 /\
  data_cache (compute_mfcc audio sr n_mfcc n_fft s).2 = data_cache s.
Proof.
  intros Hok. unfold compute_mfcc.
  destruct (mfcc_frames audio) as [frames|e]; [|simpl; auto].
  cbv zeta.
  destruct (power_spectrum (apply_window frames) n_fft) as [power|e];
    [|simpl; auto].
  destruct (get_fbank_spec sr n_fft 40 s Hok) as (H1 & H2 & H3).
  destruct (get_fbank_spec sr n_fft 40 empty_store) as (H1' & _ & _).
  { apply empty_store_ok. }
  destruct (get_fbank sr n_fft 40 s) as [fb s'].
  destruct (get_fbank sr n_fft 40 empty_store) as [fb0 s0].
  simpl in *. subst fb fb0. auto.
Qed.

Lemma extract_body_store (ab : list byte) (sr : Z) (s : store) :
  fbank_ok s ->
  (extract_all_features_body ab sr s).1
    = (extract_all_features_body ab sr empty_store).1 /\
  fbank_ok (extract_all_features_body ab sr s).2 /\
  data_cache (extract_all_features_body ab sr s).2 = data_cache s.
Proof.
  intros Hok. unfold extract_all_features_body.
  destruct (audio ← np_frombuffer_float32 ab; normalize_audio audio)
    as [audio|e]; [|simpl; auto].
  unfold features_from_audio.
  destruct (compute_mfcc_store audio sr N_MFCC 512 s Hok) as (H1 & H2 & H3).
  destruct (compute_mfcc audio sr N_MFCC 512 s) as [mfcc s'].
  destruct (compute_mfcc audio sr N_MFCC 512 empty_store) as [mfcc0 s0].
  simpl in *. subst mfcc. auto.
Qed.

(** A call of the decorated function returns what the body computes from
    the empty store, and keeps the invariant. *)
Lemma extract_all_features_store (ab : list byte) (sr : Z) (s : store) :
  store_ok s ->
  (extract_all_features ab sr s).1
    = (extract_all_features_body ab sr empty_store).1 /\
  store_ok (extract_all_features ab sr s).2.
Proof.
  intros [Hfb Hdata]. unfold extract_all_features.
  destruct (data_cache s !! (ab, sr)) as [feats|] eqn:Hget.
  - simpl. split; [symmetry; apply Hdata, Hget | split; assumption].
  - destruct (extract_body_store ab sr s Hfb) as (H1 & H2 & H3).
    destruct (extract_all_features_body ab sr s) as [r s'].
    simpl in H1, H2, H3. destruct r as [feats|e]; simpl.
    + split; [exact H1|]. split; [exact H2|].
      intros ab' sr' feats' Hget'. simpl in Hget'.
      destruct (decide ((ab, sr) = (ab', sr'))) as [Heq|Hne].
      * rewrite Heq, lookup_insert_eq in Hget'. injection Heq as <- <-.
        congruence.
      * rewrite lookup_insert_ne in Hget' by exact Hne.
        rewrite H3 in Hget'. apply Hdata, Hget'.
    + split; [exact H1|]. split; [exact H2|].
      intros ab' sr' feats' Hget'. rewrite H3 in Hget'. apply Hdata, Hget'.
Qed.

(** C8.  Whatever calls ran before (the store is any store a run can reach,
    the empty one included), an analysis call returns the record the body
    and [compute_indicators] compute from the buffer and the role alone,
    and keeps the store reachable: two calls with the same buffer and role
    return the same record, whether one follows the other or not. *)
Theorem analysis_deterministic (ab : list byte) (role : string)
    (s1 s2 : store) :
  store_ok s1 -> store_ok s2 ->
  (analyze ab role s1).1 = (analyze ab role s2).1 /\
  (analyze ab role s1).1 = (analyze ab role (analyze ab role s1).2).1 /\
  (analyze ab role s1).1
    = (feats ← (extract_all_features_body ab SR empty_store).1;
       compute_indicators (scalars feats) role) /\
  store_ok (analyze ab role s1).2.
Proof.
  intros Hs1 Hs2.
  assert (Hcall : forall s, store_ok s ->
            (analyze ab role s).1
              = (feats ← (extract_all_features_body ab SR empty_store).1;
                 compute_indicators (scalars feats) role) /\
            store_ok (analyze ab role s).2).
  { intros s Hs. unfold analyze.
    destruct (extract_all_features_store ab SR s Hs) as (H1 & H2).
    destruct (extract_all_features ab SR s) as [r s']. simpl in *.
    subst r. split; [reflexivity | exact H2]. }
  destruct (Hcall s1 Hs1) as (Hr1 & Hok1).
  destruct (Hcall s2 Hs2) as (Hr2 & _).
  destruct (Hcall _ Hok1) as (Hr3 & _).
  repeat split; [congruence | congruence | exact Hr1 | apply Hok1 | apply Hok1].
Qed.

End StoreProps.

(* ===================================================================== *)
(** ** The frames each engine reads *)
(* ===================================================================== *)

Lemma length_removelast {A} (l : list A) :
  length (removelast l) = length l - 1.
Proof.
  induction l as [|x l IH]; [reflexivity|].
  destruct l as [|y l]; [reflexivity|].
  change (removelast (x :: y :: l)) with (x :: removelast (y :: l)).
  cbn [length] in *. lia.
Qed.

Lemma length_pre_emphasis (audio out : list num) (coef : num) :
  pre_emphasis audio coef = Ok out -> length out = length audio.
Proof.
  destruct audio as [|x0 rest]; [discriminate|].
  intros Hout. injection Hout as <-. cbn [length]. f_equal.
  rewrite length_zip_with.
  change (match rest with [] => [] | _ :: _ => x0 :: removelast rest end)
    with (removelast (x0 :: rest)).
  rewrite length_removelast. cbn [length]. lia.
Qed.

Lemma frame_count_by_length (a b : list num) (frame_len hop : nat) :
  length a = length b ->
  length (frame_signal a frame_len hop) = length (frame_signal b frame_len hop).
Proof.
  intros Hlen. unfold frame_signal. rewrite Hlen.
  destruct (_ <=? 0)%Z; [reflexivity|].
  rewrite !length_map, !length_seq. reflexivity.
Qed.

Section FrameProps.
Context `{NumPy}.


End FrameProps.



(** C8, from the empty store, on a four-byte buffer. *)
Lemma analysis_deterministic_witness :
  (analyze (H := demo_numpy) nan_bytes "Pilot" empty_store).1
    = (analyze (H := demo_numpy) nan_bytes "Pilot" empty_store).1 /\
  (analyze (H := demo_numpy) nan_bytes "Pilot" empty_store).1
    = (analyze (H := demo_numpy) nan_bytes "Pilot"
         (analyze (H := demo_numpy) nan_bytes "Pilot" empty_store).2).1 /\
  (analyze (H := demo_numpy) nan_bytes "Pilot" empty_store).1
    = (feats ← (extract_all_features_body (H := demo_numpy)
                  nan_bytes SR empty_store).1;
       compute_indicators (H := demo_numpy) (scalars feats) "Pilot") /\
  store_ok (H := demo_numpy)
    (analyze (H := demo_numpy) nan_bytes "Pilot" empty_store).2.
Proof.
  apply (@analysis_deterministic demo_numpy); apply empty_store_ok.
Defined.

(* ===================================================================== *)
(** ** Where the pipeline can raise *)
(* ===================================================================== *)

Lemma mapM_inv {A B} (f : A -> result B) (l : list A) (ys : list B) :
  mapM f l = Ok ys -> Forall2 (fun x y => f x = Ok y) l ys.
Proof.
  revert ys. induction l as [|x l IH]; intros ys Hm.
  - injection Hm as <-. constructor.
  - cbn [mapM] in Hm. destruct (f x) as [y|e] eqn:Hy; [|discriminate].
    monad_step_in Hm. destruct (mapM f l) as [ys'|e] eqn:Hl; [|discriminate].
    monad_step_in Hm. injection Hm as <-. constructor; [exact Hy | apply IH].
    reflexivity.
Qed.

Lemma mapM_ok_length {A B} (f : A -> result B) (l : list A) :
  Forall (fun x => exists y, f x = Ok y) l ->
  exists ys, mapM f l = Ok ys /\ length ys = length l.
Proof.
  intros Hall. destruct (mapM_ok f l Hall) as (ys & Hys & Hrel).
  exists ys. split; [exact Hys|]. symmetry. eapply Forall2_length, Hrel.
Qed.

Lemma length_words_of_bytes (bs : list byte) :
  length (words_of_bytes bs) = length bs / 4.
Proof.
  revert bs. fix IH 1. intros bs.
  destruct bs as [|b0 [|b1 [|b2 [|b3 rest]]]]; try reflexivity.
  cbn [words_of_bytes length]. rewrite IH.
  change (S (S (S (S (length rest))))) with (4 + length rest).
  replace (4 + length rest) with (length rest + 1 * 4) by lia.
  rewrite Nat.div_add by lia. lia.
Qed.

Lemma np_frombuffer_ok (ab : list byte) :
  length ab mod 4 = 0 ->
  exists audio, np_frombuffer_float32 ab = Ok audio /\
    length audio = length ab / 4.
Proof.
  intros Hmod. unfold np_frombuffer_float32.
  apply Nat.eqb_eq in Hmod. rewrite Hmod.
  eexists. split; [reflexivity|].
  rewrite length_map. apply length_words_of_bytes.
Qed.

Lemma normalize_audio_ok (audio : list num) :
  audio <> [] ->
  exists out, normalize_audio audio = Ok out /\ length out = length audio.
Proof.
  intros Hne. unfold normalize_audio.
  destruct (np_max_nonempty (map Num.abs audio)) as [peak Hpeak].
  { destruct audio; [contradiction | discriminate]. }
  rewrite Hpeak. monad_step. eexists. split; [reflexivity|].
  apply length_map.
Qed.

Lemma np_setitem_length (row row' : list num) (k : Z) (v : num) :
  np_setitem row k v = Ok row' -> length row' = length row.
Proof.
  unfold np_setitem. intros Hset.
  destruct (_ && _); [injection Hset as <-; apply length_insert|].
  destruct (_ && _); [injection Hset as <-; apply length_insert|].
  discriminate.
Qed.

Lemma foldlM_setitem_length (g : Z -> num) (ks : list Z)
    (row row' : list num) :
  foldlM (fun row k => np_setitem row k (g k)) row ks = Ok row' ->
  length row' = length row.
Proof.
  revert row. induction ks as [|k ks IH]; intros row Hfold.
  - injection Hfold as <-. reflexivity.
  - cbn [foldlM] in Hfold.
    destruct (np_setitem row k (g k)) as [row1|e] eqn:Hset; [|discriminate].
    monad_step_in Hfold. rewrite (IH _ Hfold).
    eapply np_setitem_length, Hset.
Qed.

Lemma np_setitem_ok (row : list num) (k : Z) (v : num) :
  (- Z.of_nat (length row) <= k < Z.of_nat (length row))%Z ->
  exists row', np_setitem row k v = Ok row'.
Proof.
  intros Hk. unfold np_setitem. cbv zeta.
  destruct ((0 <=? k)%Z && (k <? Z.of_nat (length row))%Z) eqn:E1;
    [eexists; reflexivity|].
  destruct ((- Z.of_nat (length row) <=? k)%Z && (k <? 0)%Z) eqn:E2;
    [eexists; reflexivity|].
  apply andb_false_iff in E1, E2.
  rewrite Z.leb_gt, Z.ltb_ge in E1. rewrite Z.leb_gt, Z.ltb_ge in E2. lia.
Qed.

Lemma foldlM_setitem_ok (g : Z -> num) (ks : list Z) (row : list num) :
  Forall (fun k => (- Z.of_nat (length row) <= k < Z.of_nat (length row))%Z)
         ks ->
  exists row', foldlM (fun row k => np_setitem row k (g k)) row ks = Ok row'.
Proof.
  revert row. induction ks as [|k ks IH]; intros row Hks.
  - eexists. reflexivity.
  - apply Forall_cons in Hks as [Hk Hks]. cbn [foldlM].
    destruct (np_setitem_ok row k (g k) Hk) as [row1 Hrow1].
    rewrite Hrow1. monad_step. apply IH.
    rewrite (np_setitem_length _ _ _ _ Hrow1). exact Hks.
Qed.

Lemma py_range_bounds (a b : Z) :
  Forall (fun k => (a <= k < b)%Z) (py_range a b).
Proof.
  unfold py_range. apply Forall_map, Forall_forall. intros i Hi.
  apply elem_of_seq in Hi. cbv beta. lia.
Qed.

Lemma floor_Qfloor (q : Q) : Num.floor q = Qfloor q.
Proof. destruct q. reflexivity. Qed.

Lemma first_true_lt (bs : list bool) (i : nat) :
  first_true bs i = 0 \/ first_true bs i < i + length bs.
Proof.
  revert i. induction bs as [|b bs IH]; intros i; simpl; [left; reflexivity|].
  destruct b; [right; lia|].
  destruct (IH (S i)) as [Hz|Hlt]; [left; exact Hz | right; lia].
Qed.

Lemma np_argmax_bool_lt (bs : list bool) :
  bs <> [] -> exists k, np_argmax_bool bs = Ok k /\ k < length bs.
Proof.
  intros Hne. destruct bs as [|b bs]; [contradiction|].
  eexists. split; [reflexivity|].
  destruct (first_true_lt (b :: bs) 0) as [Hz|Hlt]; [rewrite Hz; simpl; lia|].
  exact Hlt.
Qed.

Lemma length_np_cumsum (xs : list num) : length (np_cumsum xs) = length xs.
Proof.
  destruct xs as [|x xs]; [reflexivity|]. simpl. f_equal.
  generalize x. induction xs as [|y ys IH]; intros acc; [reflexivity|].
  simpl. f_equal. apply IH.
Qed.

Lemma np_min_nonempty (xs : list num) :
  xs <> [] -> exists p, np_min xs = Ok p.
Proof. destruct xs; [contradiction | eexists; reflexivity]. Qed.

Ltac invert_bind Hyp :=
  cbv zeta in Hyp;
  lazymatch type of Hyp with
  | mbind _ ?m = Ok _ =>
      let E := fresh "E" in
      destruct m eqn:E; monad_step_in Hyp; [|discriminate Hyp]
  end.

Ltac fresh_key Hk :=
  repeat (rewrite lookup_insert_ne;
          [|let Heq := fresh in
            intros Heq; apply Hk; rewrite <- Heq; repeat constructor]);
  apply lookup_empty.

Ltac has_key :=
  repeat (apply lookup_insert_is_Some'; first [left; reflexivity | right]).

Ltac each_key Hin :=
  simpl in Hin;
  repeat (destruct Hin as [<-|Hin]; [has_key|]); contradiction.

Lemma py_floatdiv_ok (a b : num) :
  (b =? 0)%num = false -> py_floatdiv a b = Ok (a / b)%num.
Proof. intros Hb. unfold py_floatdiv. rewrite Hb. reflexivity. Qed.

(** At a positive sample rate [total_dur + 1e-6] is not zero. *)
Lemma total_dur_nonzero (total : nat) (sr : Z) :
  (0 < sr)%Z ->
  ((Num.of_nat total * (Num.of_Z (Z.of_nat HOP_N) / Num.of_Z sr)
    + 0.000001) =? 0)%num = false.
Proof.
  intros Hsr. unfold Num.of_nat, Num.of_Z. cbn [Num.div].
  assert (Hq : (0 < inject_Z sr)%Q).
  { change 0%Q with (inject_Z 0). rewrite <- Zlt_Qlt. exact Hsr. }
  destruct (Qeq_bool (inject_Z sr) 0) eqn:E; qbool; [lra|].
  cbn [Num.mul Num.add Num.eqb].
  apply Qeq_bool_false.
  assert (Ht : (0 <= inject_Z (Z.of_nat total))%Q).
  { change 0%Q with (inject_Z 0). rewrite <- Zle_Qle. lia. }
  assert (Hh : (0 <= inject_Z (Z.of_nat HOP_N) / inject_Z sr)%Q).
  { apply Qle_shift_div_l; [exact Hq|].
    rewrite HOP_N_value. change (inject_Z (Z.of_nat 220)) with 220%Q. lra. }
  pose proof (Qmult_le_0_compat _ _ Ht Hh). lra.
Qed.

Section Totality.
Context `{NumPy}.

Lemma compute_prosody_has (audio : list num) (sr : Z) (m : gmap string num)
    (k : string) :
  compute_prosody audio sr = Ok m ->
  In k ["speech_ratio"; "pause_rate"; "pause_mean_dur"; "voiced_run_mean";
        "voiced_run_std"; "total_dur"] ->
  is_Some (m !! k).
Proof.
  unfold compute_prosody. intros Hm Hin.
  do 3 invert_bind Hm. injection Hm as <-.
  each_key Hin.
Qed.

Lemma compute_spectral_has (audio : list num) (sr : Z) (m : gmap string num)
    (k : string) :
  compute_spectral_features audio sr 512 = Ok m ->
  In k ["centroid_mean"; "flux_mean"; "flatness_mean"; "ste_mean";
        "ste_std"] ->
  is_Some (m !! k).
Proof.
  unfold compute_spectral_features. intros Hm Hin.
  do 5 invert_bind Hm. injection Hm as <-.
  each_key Hin.
Qed.

Lemma compute_lpc_features_has (audio : list num) (m : gmap string num)
    (k : string) :
  compute_lpc_features audio = Ok m ->
  In k ["lpc_error_std"; "lpc_flux"] ->
  is_Some (m !! k).
Proof.
  unfold compute_lpc_features. intros Hm Hin.
  invert_bind Hm. injection Hm as <-.
  each_key Hin.
Qed.

(** The keys of the dictionaries the engines return: no engine writes a
    perturbation key, and each holds the features the synthesizer reads
    from it. *)
Lemma compute_prosody_keys (audio : list num) (sr : Z)
    (m : gmap string num) (k : string) :
  compute_prosody audio sr = Ok m ->
  k ∉ ["speech_ratio"; "pause_count"; "pause_rate"; "pause_mean_dur";
       "pause_max_dur"; "pause_total_dur"; "voiced_run_mean";
       "voiced_run_std"; "total_dur"] ->
  m !! k = None.
Proof.
  unfold compute_prosody. intros Hm Hk.
  do 3 invert_bind Hm. injection Hm as <-.
  fresh_key Hk.
Qed.

Lemma compute_spectral_keys (audio : list num) (sr : Z)
    (m : gmap string num) (k : string) :
  compute_spectral_features audio sr 512 = Ok m ->
  k ∉ ["centroid_mean"; "centroid_std"; "spread_mean"; "flux_mean";
       "flux_std"; "rolloff_mean"; "flatness_mean"; "zcr_mean"; "zcr_std";
       "ste_mean"; "ste_std"; "ste_dynamic"] ->
  m !! k = None.
Proof.
  unfold compute_spectral_features. intros Hm Hk.
  do 5 invert_bind Hm. injection Hm as <-.
  fresh_key Hk.
Qed.

Lemma compute_lpc_features_keys (audio : list num) (m : gmap string num)
    (k : string) :
  compute_lpc_features audio = Ok m ->
  k ∉ ["lpc_error_mean"; "lpc_error_std"; "lpc_flux"] ->
  m !! k = None.
Proof.
  unfold compute_lpc_features. intros Hm Hk.
  invert_bind Hm. injection Hm as <-.
  fresh_key Hk.
Qed.

Lemma mfcc_entries_keys (mfcc mfcc_d mfcc_dd : list (list num)) (i : nat)
    (es : list (string * num)) :
  mfcc_entries mfcc mfcc_d mfcc_dd i = Ok es ->
  Forall (fun kv => exists rest, kv.1 = "m" +:+ rest) es.
Proof.
  unfold mfcc_entries. intros Hes.
  do 3 invert_bind Hes. injection Hes as <-.
  repeat constructor; eexists; reflexivity.
Qed.

Lemma mfcc_feats_keys (mfcc mfcc_d mfcc_dd : list (list num))
    (idxs : list nat) (entries : list (list (string * num))) (k : string) :
  mapM (mfcc_entries mfcc mfcc_d mfcc_dd) idxs = Ok entries ->
  (forall rest, k <> "m" +:+ rest) ->
  (list_to_map (concat entries) : gmap string num) !! k = None.
Proof.
  intros Hm Hk. apply not_elem_of_list_to_map_1.
  apply mapM_inv in Hm. intros Hin.
  apply list_elem_of_fmap in Hin as ([k' v] & -> & Hin).
  apply list_elem_of_In, in_concat in Hin as (es & Hes & Hin).
  apply list_elem_of_In in Hes, Hin.
  induction Hm as [|i es' idxs' entries' Hi _ IH].
  - inversion Hes.
  - apply elem_of_cons in Hes as [->|Hes]; [|apply IH, Hes].
    apply mfcc_entries_keys in Hi. rewrite Forall_forall in Hi.
    destruct (Hi _ Hin) as [rest Hrest]. apply (Hk rest). exact Hrest.
Qed.

Lemma compute_jitter_shimmer_dict (audio : list num) (sr : Z)
    (js : gmap string num) :
  compute_jitter_shimmer audio sr = Ok js ->
  exists jl jr sl sd, js = jitter_shimmer_dict jl jr sl sd.
Proof.
  unfold compute_jitter_shimmer. intros Hjs. invert_bind Hjs.
  destruct (_ <? 4)%nat; [injection Hjs as <-; repeat eexists|].
  destruct (_ <? 2)%nat; injection Hjs as <-; repeat eexists.
Qed.

(** The four perturbation entries of the feature set are those of
    [compute_jitter_shimmer], and its F0 track is that of
    [compute_f0_track]. *)
Lemma features_perturbation (audio : list num) (s : store) (feats : features) :
  (features_from_audio audio SR s).1 = Ok feats ->
  exists js,
    compute_f0_track audio SR = Ok (_f0_track feats) /\
    compute_jitter_shimmer audio SR = Ok js /\
    Forall (fun k => scalars feats !! k = js !! k)
           ["jitter_local"; "jitter_rap"; "shimmer_local"; "shimmer_db"].
Proof.
  unfold features_from_audio. intros Hf.
  destruct (compute_mfcc audio SR N_MFCC 512 s) as [r s']. cbn [fst] in Hf.
  invert_bind Hf. clear E.
  invert_bind Hf. clear E.
  invert_bind Hf. clear E.
  invert_bind Hf. rename E into Hf0.
  invert_bind Hf. rename E into Hjs.
  invert_bind Hf. rename E into Hlpc.
  invert_bind Hf. rename E into Hspec.
  invert_bind Hf. rename E into Hpros.
  invert_bind Hf. clear E.
  invert_bind Hf. clear E.
  invert_bind Hf. rename E into Hent.
  injection Hf as <-. cbn [_f0_track scalars].
  eexists. split; [reflexivity|]. split; [reflexivity|].
  destruct (compute_jitter_shimmer_dict _ _ _ Hjs) as (jl & jr & sl & sd & ->).
  repeat (apply Forall_cons; split; [|]); [..|apply Forall_nil; exact I].
  all: rewrite lookup_insert_ne by discriminate.
  all: match goal with
       | |- (?X ∪ ?js ∪ ?st) !! ?k = _ =>
           assert (HX : X !! k = None)
       end.
  all: try (rewrite !lookup_union_None; repeat split;
            [ eapply mfcc_feats_keys; [exact Hent | intros rest; discriminate]
            | eapply compute_prosody_keys; [exact Hpros|]
            | eapply compute_spectral_keys; [exact Hspec|]
            | eapply compute_lpc_features_keys; [exact Hlpc|] ];
            intros Hin; repeat (apply elem_of_cons in Hin as [Hin|Hin];
                                [discriminate Hin|]); inversion Hin).
  all: erewrite lookup_union_Some_l; [reflexivity|].
  all: rewrite lookup_union_r by exact HX; reflexivity.
Qed.

Lemma compute_jitter_shimmer_has (audio : list num) (sr : Z)
    (js : gmap string num) (k : string) :
  compute_jitter_shimmer audio sr = Ok js ->
  In k ["jitter_local"; "jitter_rap"; "shimmer_db"] ->
  is_Some (js !! k).
Proof.
  intros Hjs Hin.
  destruct (compute_jitter_shimmer_dict _ _ _ Hjs) as (jl & jr & sl & sd & ->).
  unfold jitter_shimmer_dict. each_key Hin.
Qed.

(** The feature set [extract_all_features] builds holds every feature
    [compute_indicators] reads. *)
Lemma features_have_inputs (audio : list num) (s : store) (feats : features) :
  (features_from_audio audio SR s).1 = Ok feats ->
  Forall (fun k => is_Some (scalars feats !! k)) indicator_inputs.
Proof.
  unfold features_from_audio. intros Hf.
  destruct (compute_mfcc audio SR N_MFCC 512 s) as [r s']. cbn [fst] in Hf.
  invert_bind Hf. clear E.
  invert_bind Hf. clear E.
  invert_bind Hf. clear E.
  invert_bind Hf. clear E.
  invert_bind Hf. rename E into Hjs.
  invert_bind Hf. rename E into Hlpc.
  invert_bind Hf. rename E into Hspec.
  invert_bind Hf. rename E into Hpros.
  invert_bind Hf. clear E.
  invert_bind Hf. clear E.
  invert_bind Hf. clear E.
  injection Hf as <-. cbn [scalars]. unfold indicator_inputs.
  repeat apply List.Forall_cons; [..|apply List.Forall_nil].
  all: apply lookup_insert_is_Some'; first [left; reflexivity | right].
  all: rewrite !lookup_union_is_Some.
  all: first
    [ solve [right; has_key]
    | solve [left; right;
             eapply compute_jitter_shimmer_has; [exact Hjs|];
             simpl; repeat first [left; reflexivity | right]]
    | solve [left; left; right;
             eapply compute_lpc_features_has; [exact Hlpc|];
             simpl; repeat first [left; reflexivity | right]]
    | solve [left; left; left; right;
             eapply compute_spectral_has; [exact Hspec|];
             simpl; repeat first [left; reflexivity | right]]
    | solve [left; left; left; left; right;
             eapply compute_prosody_has; [exact Hpros|];
             simpl; repeat first [left; reflexivity | right]] ].
Qed.

(** [np.hamming(n)] has [n] entries; [rfft(x, n)] has [n//2 + 1]; and the
    band edges of the filterbank are numbers between 0 and half the sample
    rate, so that their bin numbers fall inside the 257 bins. *)
Hypothesis np_hamming_length : forall n, length (np_hamming n) = n.
Hypothesis rfft_length : forall x n, length (rfft x n) = n / 2 + 1.
Hypothesis band_edges_in_range : Forall (within 0 11025) band_edges.

Lemma fbank_row_ok (bin_pts : list Z) (n_bins m : nat) :
  Forall (fun b => (0 <= b <= Z.of_nat n_bins)%Z) bin_pts ->
  exists row, fbank_row bin_pts n_bins m = Ok row.
Proof.
  intros Hbins.
  assert (Hnth : forall i, (0 <= nth i bin_pts 0 <= Z.of_nat n_bins)%Z).
  { intros i. destruct (nth_in_or_default i bin_pts 0%Z) as [Hin| ->]; [|lia].
    rewrite Forall_forall in Hbins. apply Hbins, list_elem_of_In, Hin. }
  unfold fbank_row.
  pose proof (Hnth (m - 1)) as Hlo. pose proof (Hnth m) as Hmid.
  destruct (foldlM_setitem_ok
              (fun k => (Num.of_Z (wrap64 (k - nth (m - 1) bin_pts 0%Z))
                         / (Num.of_Z (wrap64 (nth m bin_pts 0%Z
                                              - nth (m - 1) bin_pts 0%Z))
                            + 0.0000000001))%num)
              (py_range (nth (m - 1) bin_pts 0%Z) (nth m bin_pts 0%Z))
              (repeat (Finite 0) n_bins)) as [row1 Hrow1].
  { eapply Forall_impl; [apply py_range_bounds|].
    intros k Hk. cbv beta in Hk. rewrite repeat_length. lia. }
  rewrite Hrow1. monad_step.
  apply foldlM_setitem_ok.
  apply foldlM_setitem_length in Hrow1. rewrite repeat_length in Hrow1.
  eapply Forall_impl; [apply py_range_bounds|].
  intros k Hk. cbv beta in Hk. rewrite Hrow1. lia.
Qed.

Lemma bin_in_range (hz : num) :
  within 0 11025 hz ->
  (0 <= astype_int (Num.of_nat (512 + 1) * hz / Num.of_Z SR)%num
     <= Z.of_nat (512 / 2 + 1))%Z.
Proof.
  intros (q & -> & Hq).
  change (Num.of_nat (512 + 1) * Finite q / Num.of_Z SR)%num
    with (Finite (inject_Z 513 * q / inject_Z 22050)).
  cbn [astype_int]. cbv zeta. rewrite floor_Qfloor.
  set (x := (inject_Z 513 * q / inject_Z 22050)%Q).
  assert (Hx : (0 <= x <= 513 # 2)%Q).
  { unfold x. split.
    - apply Qle_shift_div_l; [reflexivity|]. change (inject_Z 513) with 513%Q.
      lra.
    - apply Qle_shift_div_r; [reflexivity|]. change (inject_Z 513) with 513%Q.
      change (inject_Z 22050) with 22050%Q. lra. }
  pose proof (Qfloor_le x) as Hle. pose proof (Qlt_floor x) as Hlt.
  assert (Hfloor : (0 <= Qfloor x < 257)%Z).
  { split.
    - assert (0 < inject_Z (Qfloor x + 1))%Q as Hpos by lra.
      change 0%Q with (inject_Z 0) in Hpos. rewrite <- Zlt_Qlt in Hpos. lia.
    - assert (inject_Z (Qfloor x) < inject_Z 257)%Q as Hup.
      { change (inject_Z 257) with 257%Q. lra. }
      rewrite <- Zlt_Qlt in Hup. exact Hup. }
  destruct ((- 2 ^ 63 <=? Qfloor x) && (Qfloor x <? 2 ^ 63))%Z eqn:Efits.
  - change (Z.of_nat (512 / 2 + 1)) with 257%Z. lia.
  - apply andb_false_iff in Efits as [Efits|Efits];
      [apply Z.leb_gt in Efits | apply Z.ltb_ge in Efits]; lia.
Qed.

Lemma default_fbank_builds :
  raises (mel_filterbank SR 512 40 80%num 8000%num) = false.
Proof.
  unfold mel_filterbank. cbv zeta.
  destruct (mapM_ok (fbank_row
              (map (fun hz => astype_int (Num.of_nat (512 + 1) * hz
                                          / Num.of_Z SR)%num) band_edges)
              (512 / 2 + 1)) (seq 1 40)) as (rows & Hrows & _).
  { apply Forall_forall. intros m _. apply fbank_row_ok.
    apply Forall_map. eapply Forall_impl; [exact band_edges_in_range|].
    intros hz Hhz. apply bin_in_range, Hhz. }
  unfold band_edges in Hrows. rewrite Hrows. reflexivity.
Qed.

Lemma fbank_row_length (bin_pts : list Z) (n_bins m : nat) (row : list num) :
  fbank_row bin_pts n_bins m = Ok row -> length row = n_bins.
Proof.
  unfold fbank_row. intros Hrow.
  destruct (foldlM _ (repeat (Finite 0) n_bins) _) as [row1|e] eqn:Hup;
    [|discriminate].
  monad_step_in Hrow.
  apply (foldlM_setitem_length
           (fun k => (Num.of_Z (wrap64 (nth (m + 1) bin_pts 0%Z - k))
                      / (Num.of_Z (wrap64 (nth (m + 1) bin_pts 0%Z
                                           - nth m bin_pts 0%Z))
                         + 0.0000000001))%num)) in Hrow.
  apply (foldlM_setitem_length
           (fun k => (Num.of_Z (wrap64 (k - nth (m - 1) bin_pts 0%Z))
                      / (Num.of_Z (wrap64 (nth m bin_pts 0%Z
                                           - nth (m - 1) bin_pts 0%Z))
                         + 0.0000000001))%num)) in Hup.
  rewrite Hrow, Hup. apply repeat_length.
Qed.

Lemma mel_filterbank_shape (sr : Z) (n_fft n_mels : nat) (fmin fmax : num)
    (fbank : list (list num)) :
  mel_filterbank sr n_fft n_mels fmin fmax = Ok fbank ->
  length fbank = n_mels /\
  Forall (fun row => length row = n_fft / 2 + 1) fbank.
Proof.
  unfold mel_filterbank. intros Hfb. apply mapM_inv in Hfb. split.
  - apply Forall2_length in Hfb. rewrite length_seq in Hfb. lia.
  - induction Hfb as [|m row ms rows Hrow _ IH]; constructor; [|exact IH].
    eapply fbank_row_length, Hrow.
Qed.

Lemma power_spectrum_shape (frames : list (list num)) (n_fft : nat) :
  n_fft <> 0 ->
  exists power,
    power_spectrum frames n_fft = Ok power /\
    length power = length frames /\
    Forall (fun row => length row = n_fft / 2 + 1) power.
Proof.
  intros Hn. unfold power_spectrum.
  apply Nat.eqb_neq in Hn. rewrite Hn.
  eexists. split; [reflexivity|]. split; [apply length_map|].
  apply Forall_map, Forall_forall. intros fr _. simpl.
  rewrite length_map. apply rfft_length.
Qed.

Lemma np_dot_T_ok (A B : list (list num)) (cols : nat) :
  Forall (fun row => length row = cols) A ->
  B <> [] ->
  length (hd [] B) = cols ->
  np_dot_T A B = Ok (map (fun a => map (fun b => dot a b) B) A).
Proof.
  intros HA Hne HB. unfold np_dot_T.
  destruct B as [|b B']; [contradiction|]. simpl in HB. rewrite HB.
  assert (Hall : forallb (fun a => (length a =? cols)%nat) A = true).
  { apply forallb_forall. intros a Ha. apply Nat.eqb_eq.
    rewrite Forall_forall in HA. apply HA. apply list_elem_of_In, Ha. }
  rewrite Hall. reflexivity.
Qed.

Lemma mfcc_of_power_ok (power fbank : list (list num)) (n_mfcc cols : nat) :
  Forall (fun row => length row = cols) power ->
  fbank <> [] ->
  length (hd [] fbank) = cols ->
  exists mfcc, mfcc_of_power power fbank n_mfcc = Ok mfcc /\
    length mfcc = n_mfcc /\
    Forall (fun row => length row = length power) mfcc.
Proof.
  intros Hp Hne Hf. unfold mfcc_of_power.
  rewrite (np_dot_T_ok power fbank cols Hp Hne Hf). monad_step.
  destruct fbank as [|row rows]; [contradiction|].
  change (length (row :: rows) =? 0)%nat with false. cbv beta iota.
  rewrite andb_false_l.
  eexists. split; [reflexivity|]. split.
  - rewrite !length_map, length_seq. reflexivity.
  - apply Forall_map, Forall_forall. intros i _. cbv beta.
    rewrite !length_map. reflexivity.
Qed.

(** [delta_features] at its default width returns on rows that are not
    empty. *)
Lemma delta_features_ok (feat : list (list num)) :
  Forall (fun row => row <> []) feat ->
  delta_features feat 2 = Ok (map (fun row => delta_row row 2) feat).
Proof.
  intros Hrows. unfold delta_features. cbv zeta.
  change (0 <? 2)%nat with true. cbv iota.
  replace (existsb (fun row => (length row =? 0)%nat) feat) with false;
    [reflexivity|].
  symmetry. apply not_true_is_false. intros Hex.
  apply existsb_exists in Hex as (row & Hin & Hlen).
  rewrite Forall_forall in Hrows.
  apply list_elem_of_In, Hrows in Hin. apply Nat.eqb_eq in Hlen.
  destruct row; [contradiction | discriminate].
Qed.

Lemma length_delta_row (row : list num) (width : nat) :
  length (delta_row row width) = length row.
Proof. unfold delta_row. rewrite length_map, length_seq. reflexivity. Qed.

Lemma delta_rows_nonempty (feat : list (list num)) :
  Forall (fun row => row <> []) feat ->
  Forall (fun row => row <> []) (map (fun row => delta_row row 2) feat).
Proof.
  intros Hrows. apply Forall_map. eapply Forall_impl; [exact Hrows|].
  intros row Hne. cbv beta. apply nonempty_length.
  rewrite length_delta_row. apply nonempty_length, Hne.
Qed.

Lemma get_fbank_default (s : store) :
  fbank_ok s ->
  exists fbank, (get_fbank SR 512 40 s).1 = Ok fbank /\
    fbank <> [] /\ length (hd [] fbank) = 512 / 2 + 1.
Proof.
  intros Hok. destruct (get_fbank_spec SR 512 40 s Hok) as (Hget & _).
  rewrite Hget. pose proof default_fbank_builds as Hbuilds.
  destruct (mel_filterbank SR 512 40 80%num 8000%num) as [fbank|e] eqn:Hmel;
    [|discriminate Hbuilds].
  exists fbank. split; [reflexivity|].
  apply mel_filterbank_shape in Hmel as [Hlen Hrows].
  destruct fbank as [|row rows]; [discriminate Hlen|].
  split; [discriminate|].
  apply Forall_cons in Hrows as [Hrow _]. exact Hrow.
Qed.

Lemma compute_mfcc_ok (audio : list num) (s : store) :
  audio <> [] -> fbank_ok s ->
  exists mfcc, (compute_mfcc audio SR N_MFCC 512 s).1 = Ok mfcc /\
    length mfcc = N_MFCC /\ Forall (fun row => row <> []) mfcc.
Proof.
  intros Hne Hok. unfold compute_mfcc, mfcc_frames.
  destruct audio as [|x0 rest]; [contradiction|].
  cbn [pre_emphasis]. monad_step. cbv zeta.
  match goal with
  | |- context [power_spectrum ?fr 512] =>
      destruct (power_spectrum_shape fr 512)
        as (power & Hpower & Hplen & Hprows); [discriminate|]
  end.
  rewrite Hpower.
  destruct (get_fbank_default s Hok) as (fbank & Hget & Hrows & Hcols).
  destruct (get_fbank SR 512 40 s) as [fb s']. simpl in Hget. subst fb.
  cbn [fst]. monad_step.
  destruct (mfcc_of_power_ok power fbank N_MFCC _ Hprows Hrows Hcols)
    as (mfcc & Hmfcc & Hlen & Hcells).
  exists mfcc. split; [exact Hmfcc|]. split; [exact Hlen|].
  eapply Forall_impl; [exact Hcells|]. intros row Hrow.
  apply nonempty_length. rewrite Hrow, Hplen.
  unfold apply_window. rewrite length_map. apply nonempty_length.
  apply frame_signal_nonempty. rewrite HOP_N_value. lia.
Qed.

Lemma compute_jitter_shimmer_ok (audio : list num) (sr : Z) :
  (0 < sr)%Z -> exists js, compute_jitter_shimmer audio sr = Ok js.
Proof.
  intros Hsr.
  destruct (compute_f0_track_range np_hamming_length audio sr Hsr)
    as (f0 & Hf0 & _).
  unfold compute_jitter_shimmer. rewrite Hf0. monad_step.
  destruct (length (filter _ f0) <? 4)%nat; [eexists; reflexivity|].
  match goal with
  | |- context [(length ?v <? 2)%nat] => destruct (length v <? 2)%nat
  end; eexists; reflexivity.
Qed.

Lemma compute_lpc_features_ok (audio : list num) :
  exists lpc, compute_lpc_features audio = Ok lpc.
Proof.
  unfold compute_lpc_features.
  match goal with
  | |- context [mapM ?f ?l] => destruct (mapM_ok f l) as (pf & Hpf & _)
  end.
  { eapply Forall_impl.
    - apply (frame_signal_rows audio FRAME_N HOP_N).
      rewrite HOP_N_value. lia.
    - intros fr Hlen. cbv beta.
      destruct (compute_lpc_ok np_hamming_length fr N_LPC)
        as (_ & _ & a & _ & _ & Ha & _).
      { rewrite Hlen, FRAME_N_value. unfold N_LPC. lia. }
      rewrite Ha. monad_step. eexists. reflexivity. }
  rewrite Hpf. monad_step. eexists. reflexivity.
Qed.

Lemma hnr_of_frame_ok (frame : list num) (sr : Z) :
  (0 < sr)%Z -> frame <> [] -> exists h, hnr_of_frame frame sr = Ok h.
Proof.
  intros Hsr Hne. unfold hnr_of_frame. apply nonempty_length in Hne.
  assert (Hw : length (hamming_windowed frame) = length frame).
  { unfold hamming_windowed. rewrite length_zip_with, np_hamming_length. lia. }
  rewrite np_correlate_tail_ok by (apply nonempty_length; lia).
  monad_step.
  set (corr := autocorr (hamming_windowed frame)).
  assert (Hcorr : length corr = length frame).
  { unfold corr. rewrite length_autocorr. exact Hw. }
  destruct (seq_item_lt corr 0) as (c0 & Hc0 & _); [lia|].
  rewrite Hc0. monad_step.
  destruct (c0 <? 0.000000000001)%num; [eexists; reflexivity|].
  assert (Hmin : (0 <= int_div sr 500)%Z).
  { rewrite int_div_floor by lia. apply Z.div_pos; lia. }
  destruct (_ <=? int_div sr 500)%Z eqn:Elag; [eexists; reflexivity|].
  apply Z.leb_gt in Elag.
  match goal with
  | |- context [np_max ?w] => destruct (np_max_nonempty w) as [top Htop]
  end.
  { apply nonempty_length. rewrite length_slice by lia. lia. }
  rewrite Htop. monad_step. eexists. reflexivity.
Qed.

Lemma compute_hnr_ok (audio : list num) (sr : Z) :
  (0 < sr)%Z -> exists hnr, compute_hnr audio sr = Ok hnr.
Proof.
  intros Hsr. unfold compute_hnr.
  match goal with
  | |- context [mapM ?f ?l] => destruct (mapM_ok f l) as (pf & Hpf & _)
  end.
  { eapply Forall_impl; [apply frame_nonempty|].
    intros fr Hfr. apply hnr_of_frame_ok; assumption. }
  rewrite Hpf. monad_step. eexists. reflexivity.
Qed.

Lemma length_rfftfreq (n : nat) (d : num) :
  length (rfftfreq n d) = n / 2 + 1.
Proof. unfold rfftfreq. rewrite length_map, length_seq. reflexivity. Qed.

Lemma spectral_rolloff_ok (freqs row : list num) :
  row <> [] -> length row = length freqs ->
  exists f, spectral_rolloff freqs row = Ok f.
Proof.
  intros Hne Hlen. unfold spectral_rolloff.
  match goal with
  | |- context [np_argmax_bool ?m] =>
      destruct (np_argmax_bool_lt m) as (k & Hk & Hlt)
  end.
  { apply nonempty_length. rewrite length_map, length_np_cumsum.
    apply nonempty_length, Hne. }
  rewrite Hk. monad_step.
  rewrite length_map, length_np_cumsum, Hlen in Hlt.
  destruct (seq_item_lt freqs k Hlt) as (f & Hf & _).
  exists f. exact Hf.
Qed.

Lemma compute_spectral_features_ok (audio : list num) :
  exists spec, compute_spectral_features audio SR 512 = Ok spec.
Proof.
  unfold compute_spectral_features.
  change (py_truediv 1 SR) with (Ok (Num.of_Z 1 / Num.of_Z SR)%num).
  set (frames := frame_signal audio FRAME_N HOP_N).
  destruct (power_spectrum_shape (apply_window frames) 512)
    as (power & Hpower & Hplen & Hprows); [discriminate|].
  rewrite Hpower. monad_step.
  set (freqs := rfftfreq 512 (Num.of_Z 1 / Num.of_Z SR)%num).
  assert (Hfreqs : length freqs = 512 / 2 + 1) by apply length_rfftfreq.
  destruct (mapM_ok (spectral_centroid freqs) power) as (cen & Hcen & _).
  { eapply Forall_impl; [exact Hprows|]. intros row Hrow.
    unfold spectral_centroid. rewrite Hrow, Hfreqs, Nat.eqb_refl.
    eexists. reflexivity. }
  rewrite Hcen. monad_step.
  destruct (mapM_ok (spectral_rolloff freqs) power) as (rol & Hrol & _).
  { eapply Forall_impl; [exact Hprows|]. intros row Hrow.
    apply spectral_rolloff_ok; [|congruence].
    apply nonempty_length. rewrite Hrow. apply Nat.add_pos_r. lia. }
  rewrite Hrol. monad_step.
  destruct (np_max_nonempty (map frame_energy frames)) as [top Htop].
  { apply nonempty_length. rewrite length_map. apply nonempty_length.
    apply frame_signal_nonempty. rewrite HOP_N_value. lia. }
  rewrite Htop. monad_step. eexists. reflexivity.
Qed.

Lemma compute_prosody_ok (audio : list num) :
  exists pros, compute_prosody audio SR = Ok pros.
Proof.
  unfold compute_prosody.
  change (py_truediv (Z.of_nat HOP_N) SR)
    with (Ok (Num.of_Z (Z.of_nat HOP_N) / Num.of_Z SR)%num).
  monad_step.
  rewrite py_floatdiv_ok by (apply total_dur_nonzero; reflexivity).
  monad_step.
  match goal with
  | |- context [(length ?pd =? 0)%nat] =>
      set (pause_dur := pd);
      destruct (length pause_dur =? 0)%nat eqn:Epd
  end.
  - monad_step. eexists. reflexivity.
  - destruct (np_max_nonempty pause_dur) as [top Htop].
    { apply Nat.eqb_neq in Epd. apply nonempty_length. lia. }
    rewrite Htop. monad_step. eexists. reflexivity.
Qed.

Lemma mfcc_entries_ok (mfcc mfcc_d mfcc_dd : list (list num)) (i : nat) :
  i < length mfcc -> i < length mfcc_d -> i < length mfcc_dd ->
  exists es, mfcc_entries mfcc mfcc_d mfcc_dd i = Ok es.
Proof.
  intros H1 H2 H3. unfold mfcc_entries.
  destruct (seq_item_lt _ _ H1) as (c & Hc & _).
  destruct (seq_item_lt _ _ H2) as (d & Hd & _).
  destruct (seq_item_lt _ _ H3) as (dd & Hdd & _).
  rewrite Hc. monad_step. rewrite Hd. monad_step. rewrite Hdd. monad_step.
  eexists. reflexivity.
Qed.

(** After decoding and normalization nothing raises. *)
Lemma features_from_audio_ok (audio : list num) (s : store) :
  audio <> [] -> fbank_ok s ->
  exists feats, (features_from_audio audio SR s).1 = Ok feats.
Proof.
  intros Hne Hok. unfold features_from_audio.
  assert (Hsr : (0 < SR)%Z) by reflexivity.
  destruct (compute_mfcc_ok audio s Hne Hok)
    as (mfcc & Hmfcc & Hlen & Hcells).
  destruct (compute_mfcc audio SR N_MFCC 512 s) as [r s'].
  simpl in Hmfcc. subst r. cbn [fst]. monad_step.
  rewrite (delta_features_ok mfcc Hcells). monad_step.
  rewrite (delta_features_ok _ (delta_rows_nonempty mfcc Hcells)).
  monad_step.
  destruct (compute_f0_track_range np_hamming_length audio SR Hsr)
    as (f0t & Hf0 & _).
  rewrite Hf0. monad_step.
  destruct (compute_jitter_shimmer_ok audio SR Hsr) as [js Hjs].
  rewrite Hjs. monad_step.
  destruct (compute_lpc_features_ok audio) as [lpc Hlpc].
  rewrite Hlpc. monad_step.
  destruct (compute_spectral_features_ok audio) as [spec Hspec].
  rewrite Hspec. monad_step.
  destruct (compute_prosody_ok audio) as [pros Hpros].
  rewrite Hpros. monad_step.
  destruct (compute_hnr_ok audio SR Hsr) as [hnr Hhnr].
  rewrite Hhnr. monad_step.
  set (vf0 := filter (fun v => (v >? 0)%num = true) f0t).
  assert (Hrange : exists f0_range,
            (if (1 <? length vf0)%nat
             then hi ← np_max vf0; lo ← np_min vf0; mret (hi - lo)%num
             else Ok (Finite 0)) = Ok f0_range).
  { destruct (1 <? length vf0)%nat eqn:E; [|eexists; reflexivity].
    apply Nat.ltb_lt in E.
    destruct (np_max_nonempty vf0) as [hi Hhi]; [apply nonempty_length; lia|].
    destruct (np_min_nonempty vf0) as [lo Hlo]; [apply nonempty_length; lia|].
    rewrite Hhi. monad_step. rewrite Hlo. monad_step.
    eexists. reflexivity. }
  destruct Hrange as [f0_range Hrange]. rewrite Hrange. monad_step.
  match goal with
  | |- context [mapM ?f (seq 0 N_MFCC)] =>
      destruct (mapM_ok f (seq 0 N_MFCC)) as (entries & Hentries & _)
  end.
  { apply Forall_forall. intros i Hi. apply elem_of_seq in Hi.
    apply mfcc_entries_ok; rewrite ?length_map; lia. }
  rewrite Hentries. monad_step. eexists. reflexivity.
Qed.

(** The body raises exactly on a buffer whose size is not a multiple of 4
    or that is empty, and then with [ValueError]. *)
Lemma extract_body_raises (ab : list byte) (s : store) :
  fbank_ok s ->
  (raises (extract_all_features_body ab SR s).1 = true
     <-> length ab mod 4 <> 0 \/ ab = []) /\
  (raises (extract_all_features_body ab SR s).1 = true ->
     (extract_all_features_body ab SR s).1 = Raise ValueError).
Proof.
  intros Hok. unfold extract_all_features_body.
  destruct (Nat.eq_dec (length ab mod 4) 0) as [Hmod|Hmod].
  - destruct (np_frombuffer_ok ab Hmod) as (audio & Haudio & Hlen).
    rewrite Haudio. monad_step.
    destruct ab as [|b0 rest].
    + assert (audio = []) as -> by (destruct audio; [reflexivity | discriminate]).
      cbn. split; [|reflexivity]. split; [right; reflexivity | reflexivity].
    + assert (Hne : audio <> []).
      { apply nonempty_length. rewrite Hlen.
        assert (4 <= length (b0 :: rest)).
        { destruct rest as [|b1 [|b2 [|b3 r]]]; simpl in *; try discriminate.
          lia. }
        assert (1 <= length (b0 :: rest) / 4)
          by (apply Nat.div_le_lower_bound; lia).
        lia. }
      destruct (normalize_audio_ok audio Hne) as (norm & Hnorm & Hnlen).
      rewrite Hnorm.
      assert (Hnne : norm <> []).
      { apply nonempty_length. rewrite Hnlen. apply nonempty_length, Hne. }
      destruct (features_from_audio_ok norm s Hnne Hok) as [feats Hfeats].
      monad_step. rewrite Hfeats. cbn. split; [|discriminate].
      split; [discriminate|]. intros [Hbad|Hnil]; [contradiction | discriminate].
  - unfold np_frombuffer_float32.
    apply Nat.eqb_neq in Hmod as Hb. rewrite Hb. cbn.
    split; [|reflexivity]. split; [left; exact Hmod | reflexivity].
Qed.

(** What a call of the decorated function returns for a buffer, from a
    reachable store. *)
Lemma extract_raises_iff (ab : list byte) (s : store) :
  store_ok s ->
  (raises (extract_all_features ab SR s).1 = true
     <-> length ab mod 4 <> 0 \/ ab = []) /\
  (raises (extract_all_features ab SR s).1 = true ->
     (extract_all_features ab SR s).1 = Raise ValueError).
Proof.
  intros Hs. destruct (extract_all_features_store ab SR s Hs) as [Hcall _].
  rewrite Hcall. apply extract_body_raises. apply empty_store_ok.
Qed.

Lemma extract_perturbation_fallback (ab : list byte) (s : store)
    (feats : features) :
  store_ok s ->
  (extract_all_features ab SR s).1 = Ok feats ->
  length (filter (fun v => (v >? 0)%num = true) (_f0_track feats)) < 4 ->
  Forall (fun k => scalars feats !! k = Some (Finite 0))
         ["jitter_local"; "jitter_rap"; "shimmer_local"; "shimmer_db"].
Proof.
  intros Hs Hfeats Hfew.
  destruct (extract_all_features_store ab SR s Hs) as [Hcall _].
  rewrite Hcall in Hfeats. unfold extract_all_features_body in Hfeats.
  destruct (audio ← np_frombuffer_float32 ab; normalize_audio audio)
    as [audio|e]; [|discriminate Hfeats].
  destruct (features_perturbation audio empty_store feats Hfeats)
    as (js & Hf0 & Hjs & Hkeys).
  rewrite (few_voiced_fallback audio SR _ Hf0 Hfew) in Hjs.
  injection Hjs as <-.
  rewrite !Forall_cons in Hkeys. destruct Hkeys as (H1 & H2 & H3 & H4 & _).
  rewrite !Forall_cons, H1, H2, H3, H4.
  repeat split; try reflexivity. constructor.
Qed.

(** Scoring adds no error to extraction: the feature set holds every
    feature the synthesizer reads. *)
Lemma analyze_raises (ab : list byte) (role : string) (s : store) :
  store_ok s ->
  raises (analyze ab role s).1 = raises (extract_all_features ab SR s).1.
Proof.
  intros Hs. unfold analyze.
  destruct (extract_all_features_store ab SR s Hs) as [Hbody _].
  destruct (extract_all_features ab SR s) as [r s']. cbn [fst] in Hbody |- *.
  destruct r as [feats|e]; [|reflexivity]. monad_step.
  destruct (compute_indicators_total (scalars feats) role) as [rec ->];
    [|reflexivity].
  symmetry in Hbody. unfold extract_all_features_body in Hbody.
  destruct (audio ← np_frombuffer_float32 ab; normalize_audio audio)
    as [audio|e]; [|discriminate Hbody].
  eapply features_have_inputs, Hbody.
Qed.

(** C4 (as amended).  From any reachable store, [extract_all_features]
    raises exactly when the byte buffer is empty or its size is not a
    multiple of 4, and then with NumPy's [ValueError]; every other buffer,
    whatever its samples (silent, shorter than a frame, unvoiced, not
    finite), is processed without raising; scoring the extracted features
    raises nothing more; and when fewer than 4 frames are voiced the four
    perturbation features of the result are the fallback 0. *)
Theorem extract_all_features_raises (ab : list byte) (role : string)
    (s : store) :
  store_ok s ->
  (raises (extract_all_features ab SR s).1 = true
     <-> length ab mod 4 <> 0 \/ ab = []) /\
  (raises (extract_all_features ab SR s).1 = true ->
     (extract_all_features ab SR s).1 = Raise ValueError) /\
  raises (analyze ab role s).1 = raises (extract_all_features ab SR s).1 /\
  (forall feats,
     (extract_all_features ab SR s).1 = Ok feats ->
     length (filter (fun v => (v >? 0)%num = true) (_f0_track feats)) < 4 ->
     Forall (fun k => scalars feats !! k = Some (Finite 0))
            ["jitter_local"; "jitter_rap"; "shimmer_local"; "shimmer_db"]).
Proof.
  intros Hs. destruct (extract_raises_iff ab s Hs) as [Hiff Hexn].
  split; [exact Hiff|]. split; [exact Hexn|].
  split; [apply analyze_raises, Hs|].
  intros feats Hfeats Hfew.
  eapply extract_perturbation_fallback; eassumption.
Qed.

End Totality.

Lemma demo_library_laws : library_laws demo_numpy.
Proof.
  split; [apply demo_hamming_length|]. split.
  - intros x n. cbn [rfft demo_numpy].
    rewrite length_map, length_take, length_app, repeat_length. lia.
  - vm_compute.
    repeat (apply List.Forall_cons;
            [eexists; split; [reflexivity | split; discriminate]|]).
    apply List.Forall_nil.
Qed.

(** C4, on the four bytes of a NaN, from the empty store. *)
Lemma extract_all_features_raises_witness :
  (raises (extract_all_features (H := demo_numpy) nan_bytes SR empty_store).1
     = true <-> length nan_bytes mod 4 <> 0 \/ nan_bytes = []) /\
  (raises (extract_all_features (H := demo_numpy) nan_bytes SR empty_store).1
     = true ->
   (extract_all_features (H := demo_numpy) nan_bytes SR empty_store).1
     = Raise ValueError) /\
  raises (analyze (H := demo_numpy) nan_bytes "Pilot" empty_store).1
    = raises
        (extract_all_features (H := demo_numpy) nan_bytes SR empty_store).1 /\
  (forall feats,
     (extract_all_features (H := demo_numpy) nan_bytes SR empty_store).1
       = Ok feats ->
     length (filter (fun v => (v >? 0)%num = true) (_f0_track feats)) < 4 ->
     Forall (fun k => scalars feats !! k = Some (Finite 0))
            ["jitter_local"; "jitter_rap"; "shimmer_local"; "shimmer_db"]).
Proof.
  destruct demo_library_laws as (Hham & Hrfft & Hfb).
  apply (@extract_all_features_raises demo_numpy Hham Hrfft Hfb).
  apply empty_store_ok.
Defined.

(** C4, as stated, fails: the four bytes 00 00 c0 7f are one float32
    sample, a NaN, and neither [extract_all_features] nor the scoring that
    follows raises on them, whatever the library functions compute within
    their laws. *)
Lemma nan_buffer_is_accepted :
  np_frombuffer_float32 nan_bytes = Ok [NaN] /\
  every_numpy (fun NP => library_laws NP ->
    raises (extract_all_features nan_bytes SR empty_store).1 = false /\
    raises (analyze nan_bytes "Pilot" empty_store).1 = false).
Proof.
  split; [vm_compute; reflexivity|].
  intros NP (Hham & Hrfft & Hfb).
  assert (Hext : raises (extract_all_features nan_bytes SR empty_store).1
                 = false).
  { destruct (@extract_raises_iff NP Hham Hrfft Hfb nan_bytes
                empty_store) as [Hiff _]; [apply empty_store_ok|].
    apply not_true_is_false. intros E.
    apply Hiff in E as [Hmod|Hnil]; [|discriminate Hnil].
    apply Hmod. reflexivity. }
  split; [exact Hext|].
  rewrite analyze_raises; [exact Hext | apply empty_store_ok].
Qed.

(* ##################################################################### *)
(** * Further properties *)
(* ##################################################################### *)

(* ===================================================================== *)
(** ** Pre-emphasis, framing, deltas and the filterbank *)
(* ===================================================================== *)

Lemma lookup_removelast {A} (l : list A) (n : nat) :
  S n < length l -> removelast l !! n = l !! n.
Proof.
  intros Hn. rewrite removelast_firstn_len.
  change (firstn (Init.Nat.pred (length l)) l) with (take (Init.Nat.pred (length l)) l).
  apply lookup_take_lt. lia.
Qed.

(** X1. [pre_emphasis] raises [IndexError] on an empty signal (it reads
    [audio[0]]).  On any other signal it returns as many samples as it was
    given: the first one unchanged, and every later one less [coef] times
    the sample before it. *)
Theorem pre_emphasis_samples (audio : list num) (coef : num) :
  (audio = [] -> pre_emphasis audio coef = Raise IndexError) /\
  (audio <> [] ->
   exists y, pre_emphasis audio coef = Ok y /\
     length y = length audio /\
     y !! 0 = audio !! 0 /\
     forall n x prev,
       audio !! S n = Some x -> audio !! n = Some prev ->
       y !! S n = Some (x - coef * prev)%num).
Proof.
  split; [intros ->; reflexivity|]. intros Hne.
  destruct audio as [|x0 rest]; [contradiction|].
  eexists. split; [reflexivity|]. split.
  - eapply length_pre_emphasis. reflexivity.
  - split; [reflexivity|]. intros n x prev Hx Hprev.
    rewrite lookup_cons in Hx. rewrite lookup_cons.
    apply lookup_zip_with_Some. exists x, prev.
    split; [reflexivity|]. split; [exact Hx|].
    rewrite lookup_removelast; [exact Hprev|].
    apply lookup_lt_Some in Hx. simpl. lia.
Qed.

Lemma frame_sample_slice (audio : list num) (i j : nat) :
  FRAME_N <= length audio ->
  i < length (frame_signal audio FRAME_N HOP_N) -> j < FRAME_N ->
  frame_sample (frame_signal audio FRAME_N HOP_N) i j
    = audio !! (HOP_N * i + j).
Proof.
  intros Hlen Hi Hj. unfold frame_sample.
  assert (Hhop : 0 < HOP_N) by (rewrite HOP_N_value; lia).
  rewrite (frame_signal_long _ _ _ Hhop Hlen) in Hi |- *.
  rewrite length_map, length_seq in Hi.
  rewrite list_lookup_fmap, lookup_seq_lt by exact Hi.
  cbn [fmap option_fmap option_map mbind option_bind Nat.add].
  rewrite lookup_take_lt by exact Hj. apply lookup_drop.
Qed.

(** X2. On a buffer of at least one frame length, the [n] frames of
    [frame_signal] cover the buffer up to a tail shorter than one hop: sample
    [j] of frame [i] is sample [HOP_N * i + j] of the buffer, no sample is
    padded, and each frame begins with the end of the frame before it. *)
Theorem frame_signal_coverage (audio : list num) :
  FRAME_N <= length audio ->
  let n := length (frame_signal audio FRAME_N HOP_N) in
  HOP_N * (n - 1) + FRAME_N <= length audio < HOP_N * n + FRAME_N /\
  (forall i j, i < n -> j < FRAME_N ->
     frame_sample (frame_signal audio FRAME_N HOP_N) i j
       = audio !! (HOP_N * i + j)) /\
  (forall i j, S i < n -> j + HOP_N < FRAME_N ->
     frame_sample (frame_signal audio FRAME_N HOP_N) (S i) j
       = frame_sample (frame_signal audio FRAME_N HOP_N) i (j + HOP_N)).
Proof.
  intros Hlen n.
  assert (Hhop : 0 < HOP_N) by (rewrite HOP_N_value; lia).
  pose proof (frame_signal_count audio FRAME_N HOP_N Hhop Hlen) as Hn.
  fold n in Hn. split; [|split].
  - rewrite FRAME_N_value, HOP_N_value in *.
    pose proof (Z.mul_div_le (Z.of_nat (length audio) - 551) 220) as H1.
    pose proof (Z.mul_succ_div_gt (Z.of_nat (length audio) - 551) 220) as H2.
    change (Z.of_nat 551) with 551%Z in Hn.
    change (Z.of_nat 220) with 220%Z in Hn. lia.
  - intros i j Hi Hj. apply frame_sample_slice; assumption.
  - intros i j Hi Hj.
    rewrite !frame_sample_slice by (fold n; lia).
    f_equal. lia.
Qed.

(** X2, on a buffer of exactly one frame of ones. *)
Lemma frame_signal_coverage_witness :
  let n := length (frame_signal one_frame_of_ones FRAME_N HOP_N) in
  HOP_N * (n - 1) + FRAME_N <= length one_frame_of_ones
    < HOP_N * n + FRAME_N /\
  (forall i j, i < n -> j < FRAME_N ->
     frame_sample (frame_signal one_frame_of_ones FRAME_N HOP_N) i j
       = one_frame_of_ones !! (HOP_N * i + j)) /\
  (forall i j, S i < n -> j + HOP_N < FRAME_N ->
     frame_sample (frame_signal one_frame_of_ones FRAME_N HOP_N) (S i) j
       = frame_sample (frame_signal one_frame_of_ones FRAME_N HOP_N) i
           (j + HOP_N)).
Proof.
  apply (frame_signal_coverage one_frame_of_ones).
  apply Nat.leb_le. vm_compute. reflexivity.
Defined.

Lemma nth_constant {A} (x d : A) (l : list A) (i : nat) :
  Forall (eq x) l -> i < length l -> nth i l d = x.
Proof.
  intros Hall Hi. rewrite Forall_forall in Hall. symmetry. apply Hall.
  apply list_elem_of_In, nth_In, Hi.
Qed.

Lemma last_constant {A} (x d : A) (l : list A) :
  Forall (eq x) l -> l <> [] -> List.last l d = x.
Proof.
  induction l as [|y l IH]; intros Hall Hne; [contradiction|].
  apply Forall_cons in Hall as [<- Hl].
  destruct l as [|z l]; [reflexivity|]. apply IH; [exact Hl | discriminate].
Qed.

Lemma is_zero_finite (q : Q) : (q == 0)%Q -> is_zero (Finite q).
Proof. intros Hq. unfold is_zero. simpl. apply Qeq_bool_iff, Hq. Qed.

Lemma delta_row_constant (row : list num) (c : Q) :
  Forall (eq (Finite c)) row -> Forall is_zero (delta_row row 2).
Proof.
  intros Hrow. unfold delta_row. cbv zeta.
  set (pad := repeat (hd NaN row) 2 ++ row ++ repeat (List.last row NaN) 2).
  assert (Hlen : length pad = length row + 4).
  { unfold pad. rewrite !length_app, !repeat_length. lia. }
  apply Forall_map, Forall_forall. intros t Ht. apply elem_of_seq in Ht.
  assert (Hpad : Forall (eq (Finite c)) pad).
  { destruct row as [|x row']; [simpl in Ht; lia|].
    unfold pad. rewrite (last_constant (Finite c) NaN (x :: row') Hrow)
      by discriminate.
    apply Forall_cons in Hrow as Hx. destruct Hx as [<- _]. cbn [hd].
    repeat apply Forall_app_2; try exact Hrow; repeat constructor. }
  cbn [seq map].
  rewrite !(nth_constant (Finite c) NaN pad) by (exact Hpad || lia).
  match goal with |- context [Num.of_Z ?z] =>
    let v := eval vm_compute in z in change z with v end.
  unfold py_sum, Num.of_nat, Num.of_Z.
  cbn [fold_left Num.mul Num.sub Num.add Num.neg Num.div].
  change (Qeq_bool (inject_Z 10) 0) with false. cbv iota.
  apply is_zero_finite.
  change (inject_Z 10) with 10%Q. change (inject_Z (Z.of_nat 1)) with 1%Q.
  change (inject_Z (Z.of_nat 2)) with 2%Q.
  field.
Qed.

(** X3. [delta_features] at its default width raises exactly when the
    matrix has a row without columns, and then the [ValueError] of
    [np.pad]; otherwise it returns a matrix of the shape of its input, row
    for row, and the deltas of a row that holds one finite value throughout
    are all zero. *)
Theorem delta_features_shape (feat : list (list num)) :
  (raises (delta_features feat 2) = true
     <-> Exists (fun row => row = []) feat) /\
  (forall e, delta_features feat 2 = Raise e -> e = ValueError) /\
  (forall delta, delta_features feat 2 = Ok delta ->
     length delta = length feat /\
     forall i row, feat !! i = Some row ->
       exists d, delta !! i = Some d /\
         length d = length row /\
         forall c, Forall (eq (Finite c)) row -> Forall is_zero d).
Proof.
  unfold delta_features. cbv zeta.
  change (0 <? 2)%nat with true. cbv iota.
  destruct (existsb (fun row => (length row =? 0)%nat) feat) eqn:Eempty.
  - split; [|split; [intros e [= <-]; reflexivity | discriminate]].
    split; [intros _ | reflexivity].
    apply existsb_exists in Eempty as (row & Hin & Hlen).
    apply Exists_exists. exists row. split; [apply list_elem_of_In, Hin|].
    apply Nat.eqb_eq in Hlen. destruct row; [reflexivity | discriminate].
  - split; [|split; [discriminate|]].
    + split; [discriminate|]. intros Hex.
      apply Exists_exists in Hex as (row & Hin & ->).
      apply not_true_iff_false in Eempty. exfalso. apply Eempty.
      apply existsb_exists. exists []. split; [|reflexivity].
      apply list_elem_of_In, Hin.
    + intros delta [= <-]. split; [apply length_map|].
      intros i row Hrow. exists (delta_row row 2).
      rewrite list_lookup_fmap, Hrow. split; [reflexivity|]. split.
      * apply length_delta_row.
      * intros c. apply delta_row_constant.
Qed.

Lemma np_setitem_Forall (P : num -> Prop) (row row' : list num) (k : Z)
    (v : num) :
  Forall P row -> P v -> np_setitem row k v = Ok row' -> Forall P row'.
Proof.
  unfold np_setitem. intros Hrow Hv Hset.
  destruct (_ && _); [injection Hset as <-; apply Forall_insert; assumption|].
  destruct (_ && _); [injection Hset as <-; apply Forall_insert; assumption|].
  discriminate.
Qed.

Lemma foldlM_setitem_Forall (P : num -> Prop) (g : Z -> num) (ks : list Z)
    (row row' : list num) :
  Forall P row -> Forall (fun k => P (g k)) ks ->
  foldlM (fun row k => np_setitem row k (g k)) row ks = Ok row' ->
  Forall P row'.
Proof.
  revert row. induction ks as [|k ks IH]; intros row Hrow Hks Hfold.
  - injection Hfold as <-. exact Hrow.
  - apply Forall_cons in Hks as [Hk Hks]. cbn [foldlM] in Hfold.
    destruct (np_setitem row k (g k)) as [row1|e] eqn:Hset; [|discriminate].
    monad_step_in Hfold. eapply IH; [|exact Hks|exact Hfold].
    eapply np_setitem_Forall; [exact Hrow|exact Hk|exact Hset].
Qed.

Lemma wrap64_small (z : Z) :
  (- 2 ^ 63 <= z < 2 ^ 63)%Z -> wrap64 z = z.
Proof.
  intros Hz. unfold wrap64. rewrite Z.mod_small by lia. lia.
Qed.

(** A quotient [a / (b + 1e-10)] of integers with [0 <= a <= b]. *)
Lemma edge_weight_within (a b : Z) :
  (0 <= a <= b)%Z ->
  within 0 1 (Num.of_Z a / (Num.of_Z b + 0.0000000001))%num.
Proof.
  intros Hab. unfold Num.of_Z. cbn [Num.add Num.div].
  assert (Ha : (0 <= inject_Z a)%Q).
  { change 0%Q with (inject_Z 0). rewrite <- Zle_Qle. lia. }
  assert (Hb : (inject_Z a <= inject_Z b)%Q) by (rewrite <- Zle_Qle; lia).
  destruct (Qeq_bool (inject_Z b + 0.0000000001) 0) eqn:E; qbool; [lra|].
  eexists. split; [reflexivity|]. split.
  - apply Qle_shift_div_l; lra.
  - apply Qle_shift_div_r; lra.
Qed.

Lemma fbank_row_weights (bin_pts : list Z) (n_bins m : nat) (row : list num) :
  Forall (fun b => (- 2 ^ 62 <= b < 2 ^ 62)%Z) bin_pts ->
  fbank_row bin_pts n_bins m = Ok row -> Forall (within 0 1) row.
Proof.
  intros Hbins.
  assert (Hnth : forall i, (- 2 ^ 62 <= nth i bin_pts 0 < 2 ^ 62)%Z).
  { intros i. destruct (nth_in_or_default i bin_pts 0%Z) as [Hin| ->]; [|lia].
    rewrite Forall_forall in Hbins. apply Hbins, list_elem_of_In, Hin. }
  pose proof (Hnth (m - 1)) as Hlo. pose proof (Hnth m) as Hmid.
  pose proof (Hnth (m + 1)) as Hhi.
  unfold fbank_row. intros Hrow.
  destruct (foldlM _ (repeat (Finite 0) n_bins) _) as [row1|e] eqn:Hup;
    [|discriminate].
  monad_step_in Hrow.
  eapply (foldlM_setitem_Forall (within 0 1)
            (fun k => (Num.of_Z (wrap64 (nth (m + 1) bin_pts 0%Z - k))
                       / (Num.of_Z (wrap64 (nth (m + 1) bin_pts 0%Z
                                            - nth m bin_pts 0%Z))
                          + 0.0000000001))%num)); [| |exact Hrow].
  - eapply (foldlM_setitem_Forall (within 0 1)
              (fun k => (Num.of_Z (wrap64 (k - nth (m - 1) bin_pts 0%Z))
                         / (Num.of_Z (wrap64 (nth m bin_pts 0%Z
                                              - nth (m - 1) bin_pts 0%Z))
                            + 0.0000000001))%num)); [| |exact Hup].
    + apply Forall_forall. intros x Hx. apply list_elem_of_In, repeat_spec in Hx.
      subst x. exists 0%Q. split; [reflexivity | lra].
    + eapply Forall_impl; [apply py_range_bounds|].
      intros k Hk. cbv beta in Hk |- *.
      rewrite !wrap64_small by lia. apply edge_weight_within. lia.
  - eapply Forall_impl; [apply py_range_bounds|].
    intros k Hk. cbv beta in Hk |- *.
    rewrite !wrap64_small by lia. apply edge_weight_within. lia.
Qed.

(** X4. When the bin points of the filters lie within [-2^62, 2^62), so
    that their 64-bit differences do not wrap around, and [mel_filterbank]
    returns, the filterbank has [n_mels] rows of [n_fft // 2 + 1] weights,
    and every weight is a number between 0 and 1. *)
Theorem mel_filterbank_weights (sr : Z) (n_fft n_mels : nat) (fmin fmax : num)
    `{NumPy} (fbank : list (list num)) :
  Forall (fun b => (- 2 ^ 62 <= b < 2 ^ 62)%Z)
         (bin_points sr n_fft n_mels fmin fmax) ->
  mel_filterbank sr n_fft n_mels fmin fmax = Ok fbank ->
  length fbank = n_mels /\
  Forall (fun row => length row = n_fft / 2 + 1 /\ Forall (within 0 1) row)
         fbank.
Proof.
  unfold mel_filterbank. intros Hbins Hfb. apply mapM_inv in Hfb. split.
  - apply Forall2_length in Hfb. rewrite length_seq in Hfb. lia.
  - induction Hfb as [|m row ms rows Hrow _ IH]; constructor; [|exact IH].
    split; [eapply fbank_row_length, Hrow|].
    eapply fbank_row_weights; [exact Hbins | exact Hrow].
Qed.

(** X4, for 3 bands between 80 and 2000 Hz at 8000 Hz and [n_fft = 16]. *)
Lemma mel_filterbank_weights_witness :
  exists fbank,
    mel_filterbank (H := demo_numpy) 8000 16 3 80%num 2000%num = Ok fbank /\
    length fbank = 3 /\
    Forall (fun row => length row = 16 / 2 + 1 /\ Forall (within 0 1) row)
           fbank.
Proof.
  eexists. split; [vm_compute; reflexivity|].
  apply (mel_filterbank_weights 8000 16 3 80%num 2000%num (H := demo_numpy)).
  - apply Forall_forall. intros b Hb. vm_compute in Hb.
    repeat (apply elem_of_cons in Hb as [->|Hb]; [lia|]). inversion Hb.
  - vm_compute. reflexivity.
Defined.

(** Outside that range the differences wrap around and the weights leave
    [0, 1]: with the bin points -5, -3 and 2^63 - 2 the filter has a weight
    below -0.9 at bin 0. *)
Example fbank_row_wraps :
  exists row w,
    fbank_row [-5; -3; 2 ^ 63 - 2]%Z 5 1 = Ok row /\
    row !! 0 = Some (Finite w) /\ (w < - (9 # 10))%Q.
Proof.
  eexists. eexists. split; [vm_compute; reflexivity|].
  split; [reflexivity|]. vm_compute. reflexivity.
Qed.

(** X5. After [get_fbank] returns a filterbank it is in [_FBANK_CACHE]
    under its key, and a second call with the same arguments returns the
    same filterbank and leaves the cache as it is.  A call that raises
    leaves the cache unchanged.  No call touches another key of the cache,
    nor the cache of [extract_all_features]. *)
Theorem get_fbank_cached `{NumPy} (sr : Z) (n_fft n_mels : nat) (s : store) :
  let r := get_fbank sr n_fft n_mels s in
  (forall fbank, r.1 = Ok fbank ->
     fbank_cache r.2 !! (sr, n_fft, n_mels) = Some fbank /\
     get_fbank sr n_fft n_mels r.2 = (Ok fbank, r.2)) /\
  (raises r.1 = true -> r.2 = s) /\
  (forall key, key <> (sr, n_fft, n_mels) ->
     fbank_cache r.2 !! key = fbank_cache s !! key) /\
  data_cache r.2 = data_cache s.
Proof.
  unfold get_fbank. cbv zeta.
  destruct (fbank_cache s !! (sr, n_fft, n_mels)) as [cached|] eqn:Hc.
  - cbn [fst snd]. rewrite Hc. split; [|split; [discriminate|split]].
    + intros fbank [= <-]. split; reflexivity.
    + reflexivity.
    + reflexivity.
  - destruct (mel_filterbank sr n_fft n_mels 80%num 8000%num) as [fb|e];
      cbn [fst snd fbank_cache data_cache].
    + rewrite lookup_insert_eq. split; [|split; [discriminate|split]].
      * intros fbank [= <-]. split; reflexivity.
      * intros key Hkey. apply lookup_insert_ne. congruence.
      * reflexivity.
    + split; [discriminate|]. repeat split; reflexivity.
Qed.

(** The loop of [compute_prosody] from index [k] on: what the state counts. *)
Lemma run_step_invariant (l : list bool) (k : nat) (runs : list nat)
    (in_run : bool) (rs : nat) :
  (in_run = true -> rs < k) -> Forall (fun r => 1 <= r) runs ->
  let '(runs', in_run', rs') :=
    fold_left run_step (imap (fun i v => (k + i, v)) l) (runs, in_run, rs) in
  sum_list runs' + (if in_run' then k + length l - rs' else 0)
    = sum_list runs + (if in_run then k - rs else 0)
      + length (filter (fun v : bool => v = true) l) /\
  (in_run' = true -> rs' < k + length l) /\
  Forall (fun r => 1 <= r) runs'.
Proof.
  revert k runs in_run rs.
  induction l as [|v l IH]; intros k runs in_run rs Hrs Hruns.
  - cbn [imap fold_left length filter list_filter]. rewrite !Nat.add_0_r.
    split; [reflexivity|]. split; assumption.
  - rewrite imap_cons. cbn [fold_left].
    rewrite (imap_ext _ (fun i v => (S k + i, v))) by (intros i x _; unfold compose; f_equal; lia).
    unfold run_step at 2. rewrite Nat.add_0_r.
    destruct v, in_run; cbn [andb negb].
    + specialize (IH (S k) runs true rs).
      destruct (fold_left _ _ _) as [[runs' in_run'] rs'].
      destruct IH as (Hsum & Hlt & Hall); [intros _; specialize (Hrs eq_refl); lia | exact Hruns |].
      rewrite filter_cons_True by reflexivity. cbn [length].
      specialize (Hrs eq_refl).
      split; [destruct in_run'; lia|].
      split; [intros Hr; specialize (Hlt Hr); lia | exact Hall].
    + specialize (IH (S k) runs true k).
      destruct (fold_left _ _ _) as [[runs' in_run'] rs'].
      destruct IH as (Hsum & Hlt & Hall); [intros _; lia | exact Hruns |].
      rewrite filter_cons_True by reflexivity. cbn [length].
      split; [destruct in_run'; lia|].
      split; [intros Hr; specialize (Hlt Hr); lia | exact Hall].
    + specialize (IH (S k) (runs ++ [k - rs]) false rs).
      destruct (fold_left _ _ _) as [[runs' in_run'] rs'].
      specialize (Hrs eq_refl).
      destruct IH as (Hsum & Hlt & Hall);
        [discriminate | apply Forall_app_2; [exact Hruns | repeat constructor; lia] |].
      rewrite filter_cons_False by discriminate.
      rewrite sum_list_with_app in Hsum. cbn [sum_list_with id length] in Hsum |- *.
      split; [destruct in_run'; lia|].
      split; [intros Hr; specialize (Hlt Hr); lia | exact Hall].
    + specialize (IH (S k) runs false rs).
      destruct (fold_left _ _ _) as [[runs' in_run'] rs'].
      destruct IH as (Hsum & Hlt & Hall); [discriminate | exact Hruns |].
      rewrite filter_cons_False by discriminate. cbn [length].
      split; [destruct in_run'; lia|].
      split; [intros Hr; specialize (Hlt Hr); lia | exact Hall].
Qed.

(** X6. The runs of voiced frames that the loop of [compute_prosody]
    collects have at least one frame each, and their lengths add up to the
    number of voiced frames: no voiced frame is counted twice or left out,
    also when the recording ends inside a run. *)
Theorem voiced_runs_total (voiced : list bool) :
  sum_list (voiced_runs voiced)
    = length (filter (fun v : bool => v = true) voiced) /\
  Forall (fun r => 1 <= r) (voiced_runs voiced).
Proof.
  unfold voiced_runs.
  pose proof (run_step_invariant voiced 0 [] false 0) as Hinv.
  cbn [Nat.add] in Hinv.
  destruct (fold_left _ _ _) as [[runs in_run] rs].
  destruct Hinv as (Hsum & Hlt & Hall); [discriminate | constructor |].
  cbn [sum_list_with id] in Hsum. destruct in_run.
  - specialize (Hlt eq_refl). split.
    + rewrite sum_list_with_app. cbn [sum_list_with id]. lia.
    + apply Forall_app_2; [exact Hall | repeat constructor; lia].
  - split; [lia | exact Hall].
Qed.

Lemma length_select_mask {A B} (p : B -> bool) (xs : list A) (ys : list B) :
  length xs = length ys ->
  length (select_mask xs (map p ys))
    = length (filter (fun y => p y = true) ys).
Proof.
  unfold select_mask. rewrite length_fmap. revert ys.
  induction xs as [|x xs IH]; intros [|y ys] Hlen; try discriminate;
    [reflexivity|].
  injection Hlen as Hlen. cbn [map zip zip_with].
  rewrite !filter_cons. cbn [snd]. specialize (IH ys Hlen).
  destruct (p y); repeat case_decide; try congruence; cbn [length]; lia.
Qed.

(** X7. With four voiced frames or more, [compute_jitter_shimmer] has as
    many voiced amplitudes [vamps] as voiced frames, so its second fallback
    ([len(vamps) < 2]) is never taken: it returns with [shimmer_db] equal to
    [20 * log10(1 + shimmer_local + 1e-12)]. *)
Theorem shimmer_fallback_unreachable `{NumPy} (audio : list num) (sr : Z)
    (f0 : list num) :
  compute_f0_track audio sr = Ok f0 ->
  4 <= length (filter (fun v => (v >? 0)%num = true) f0) ->
  length (select_mask
            (take (length f0)
               (map (fun fr => (np_sqrt (np_mean (squares fr))
                                + 0.000000000001)%num)
                    (frame_signal audio FRAME_N HOP_N)))
            (map (fun v => (v >? 0)%num) f0))
    = length (filter (fun v => (v >? 0)%num = true) f0) /\
  exists jl jr sl,
    compute_jitter_shimmer audio sr
      = Ok (jitter_shimmer_dict jl jr sl
              (20 * np_log10 (1 + sl + 0.000000000001))%num).
Proof.
  intros Hf0 Hvoiced.
  assert (Hlen : length f0 = length (frame_signal audio FRAME_N HOP_N)).
  { unfold compute_f0_track in Hf0. apply mapM_inv, Forall2_length in Hf0.
    symmetry. exact Hf0. }
  assert (Hv : length (select_mask
            (take (length f0)
               (map (fun fr => (np_sqrt (np_mean (squares fr))
                                + 0.000000000001)%num)
                    (frame_signal audio FRAME_N HOP_N)))
            (map (fun v => (v >? 0)%num) f0))
    = length (filter (fun v => (v >? 0)%num = true) f0)).
  { apply length_select_mask. rewrite length_take, length_map. lia. }
  split; [exact Hv|].
  unfold compute_jitter_shimmer. rewrite Hf0. monad_step. cbv zeta.
  assert (H4 : (length (filter (fun v => (v >? 0)%num = true) f0) <? 4)%nat
               = false) by (apply Nat.ltb_ge; exact Hvoiced).
  rewrite H4, Hv.
  assert (H2 : (length (filter (fun v => (v >? 0)%num = true) f0) <? 2)%nat
               = false) by (apply Nat.ltb_ge; lia).
  rewrite H2. do 3 eexists. reflexivity.
Qed.

(** X7, on a train of pulses at 200 Hz, sampled at 1000 Hz, of four frames. *)
Lemma shimmer_fallback_unreachable_witness :
  length (select_mask
            (take (length (repeat (Finite (1000 # 5)) 4))
               (map (fun fr => (np_sqrt (NumPy := demo_numpy)
                                  (np_mean (squares fr))
                                + 0.000000000001)%num)
                    (frame_signal long_pulse_train FRAME_N HOP_N)))
            (map (fun v => (v >? 0)%num) (repeat (Finite (1000 # 5)) 4)))
    = length (filter (fun v => (v >? 0)%num = true)
                     (repeat (Finite (1000 # 5)) 4)) /\
  exists jl jr sl,
    compute_jitter_shimmer (H := demo_numpy) long_pulse_train 1000
      = Ok (jitter_shimmer_dict jl jr sl
              (20 * np_log10 (NumPy := demo_numpy)
                      (1 + sl + 0.000000000001))%num).
Proof.
  apply (shimmer_fallback_unreachable (H := demo_numpy) long_pulse_train 1000
           (repeat (Finite (1000 # 5)) 4)).
  - vm_compute. reflexivity.
  - vm_compute. lia.
Defined.

(* ===================================================================== *)
(** ** Silence *)
(* ===================================================================== *)

Lemma is_zero_inv (x : num) : is_zero x -> exists q, x = Finite q /\ (q == 0)%Q.
Proof.
  unfold is_zero. destruct x as [q| | |]; try discriminate.
  simpl. intros Hq. exists q. split; [reflexivity | apply Qeq_bool_iff, Hq].
Qed.

Lemma is_zero_mul_l (x y : num) :
  is_zero x -> Num.is_finite y = true -> is_zero (x * y)%num.
Proof.
  intros (q & -> & Hq)%is_zero_inv Hy. destruct y as [w| | |]; try discriminate.
  apply is_zero_finite. rewrite Hq. ring.
Qed.

Lemma is_zero_mul (x y : num) : is_zero x -> is_zero y -> is_zero (x * y)%num.
Proof.
  intros Hx (w & -> & _)%is_zero_inv. apply is_zero_mul_l; [exact Hx | reflexivity].
Qed.

Lemma is_zero_add (x y : num) : is_zero x -> is_zero y -> is_zero (x + y)%num.
Proof.
  intros (p & -> & Hp)%is_zero_inv (q & -> & Hq)%is_zero_inv.
  apply is_zero_finite. rewrite Hp, Hq. ring.
Qed.

Lemma is_zero_abs (x : num) : is_zero x -> is_zero (Num.abs x).
Proof.
  intros (q & -> & Hq)%is_zero_inv. apply is_zero_finite.
  rewrite Hq. reflexivity.
Qed.

Lemma is_zero_py_sum (xs : list num) : Forall is_zero xs -> is_zero (py_sum xs).
Proof.
  unfold py_sum. assert (H0 : is_zero (Finite 0)) by reflexivity.
  revert H0. generalize (Finite 0). induction xs as [|x xs IH]; intros a Ha Hxs.
  - exact Ha.
  - apply Forall_cons in Hxs as [Hx Hxs]. cbn [fold_left].
    apply IH; [apply is_zero_add; assumption | exact Hxs].
Qed.

Lemma is_zero_div_nat (x : num) (n : nat) :
  is_zero x -> 0 < n -> is_zero (x / Num.of_nat n)%num.
Proof.
  intros (q & -> & Hq)%is_zero_inv Hn. unfold Num.of_nat, Num.of_Z.
  cbn [Num.div].
  assert (Hne : ~ (inject_Z (Z.of_nat n) == 0)%Q).
  { intros Heq. unfold Qeq in Heq. simpl in Heq. lia. }
  apply Qeq_bool_false in Hne as Hb. rewrite Hb.
  apply is_zero_finite. rewrite Hq. field. exact Hne.
Qed.

Lemma is_zero_mean (xs : list num) :
  Forall is_zero xs -> xs <> [] -> is_zero (np_mean xs).
Proof.
  intros Hxs Hne. unfold np_mean. apply is_zero_div_nat.
  - apply is_zero_py_sum, Hxs.
  - apply nonempty_length, Hne.
Qed.

Lemma is_zero_squares (xs : list num) :
  Forall is_zero xs -> Forall is_zero (squares xs).
Proof.
  intros Hxs. unfold squares. apply Forall_map.
  eapply Forall_impl; [exact Hxs|]. intros x Hx. apply is_zero_mul; exact Hx.
Qed.

(** Every frame of a silent buffer is silent, and has 551 samples. *)
Lemma frame_signal_silent (audio : list num) :
  Forall is_zero audio ->
  Forall (fun fr => Forall is_zero fr /\ fr <> [])
         (frame_signal audio FRAME_N HOP_N).
Proof.
  intros Hz.
  assert (Hhop : 0 < HOP_N) by (rewrite HOP_N_value; lia).
  pose proof (frame_signal_rows audio FRAME_N HOP_N Hhop) as Hrows.
  assert (Hzero : Forall (Forall is_zero) (frame_signal audio FRAME_N HOP_N)).
  { destruct (Nat.lt_ge_cases (length audio) FRAME_N) as [Hlen|Hlen].
    - rewrite (frame_signal_short _ _ _ Hhop Hlen).
      constructor; [|constructor]. apply Forall_forall.
      intros x Hx. apply list_elem_of_In, repeat_spec in Hx. subst x.
      reflexivity.
    - rewrite (frame_signal_long _ _ _ Hhop Hlen).
      apply Forall_map, Forall_forall. intros i _. cbv beta.
      apply Forall_take, Forall_drop, Hz. }
  rewrite Forall_forall in Hrows, Hzero. apply Forall_forall.
  intros fr Hfr. split; [apply Hzero, Hfr|].
  apply nonempty_length. rewrite (Hrows fr Hfr), FRAME_N_value. lia.
Qed.

Lemma length_vad (audio : list num) (sr : Z) :
  length (vad_energy_zcr audio sr)
    = length (frame_signal audio FRAME_N HOP_N).
Proof.
  unfold vad_energy_zcr. cbv zeta. rewrite length_zip_with, !length_map. lia.
Qed.

Lemma vad_silent (audio : list num) (sr : Z) :
  Forall is_zero audio -> Forall (eq false) (vad_energy_zcr audio sr).
Proof.
  unfold vad_energy_zcr. cbv zeta.
  intros Hz. pose proof (frame_signal_silent audio Hz) as Hfr.
  pose proof (frame_signal_nonempty audio FRAME_N HOP_N) as Hne.
  set (frames := frame_signal audio FRAME_N HOP_N) in *.
  set (energy := map frame_energy frames).
  assert (He : Forall is_zero energy).
  { unfold energy. apply Forall_map. eapply Forall_impl; [exact Hfr|].
    intros fr [Hzero Hnil]. unfold frame_energy. cbv beta.
    apply is_zero_mean; [apply is_zero_squares, Hzero|].
    unfold squares. destruct fr; [contradiction | discriminate]. }
  set (nf := Z.to_nat _).
  assert (Hnf : 0 < nf) by (unfold nf; lia).
  assert (Hthr : is_zero (np_mean (take nf energy))).
  { apply is_zero_mean; [apply Forall_take, He|].
    assert (Hen : energy <> []).
    { unfold energy. destruct frames; [|discriminate].
      exfalso. apply Hne. rewrite HOP_N_value. lia. reflexivity. }
    destruct energy; [contradiction|]. destruct nf; [lia | discriminate]. }
  apply is_zero_inv in Hthr as (t & -> & Ht).
  generalize (map frame_zcr frames). intros zcr.
  generalize (np_mean (take nf zcr) * 2 + 0.05)%num. intros z_thr.
  clearbody energy. clear -He Ht.
  revert zcr. induction He as [|e energy Hz' _ IH]; intros zcr;
    [constructor|].
  destruct zcr as [|z zcr]; [constructor|]. cbn [zip_with].
  constructor; [|apply IH].
  apply is_zero_inv in Hz' as (q & -> & Hq).
  cbn [Num.mul Num.add Num.ltb].
  replace (Qltb (t * 5 + 0.000000000001) q) with false; [reflexivity|].
  symmetry. apply Qltb_ge. rewrite Hq, Ht. lra.
Qed.

(** X8. [vad_energy_zcr] returns one flag per frame, and on a buffer of
    zeros it flags no frame as speech, whatever the sample rate. *)
Theorem vad_silence (audio : list num) (sr : Z) :
  length (vad_energy_zcr audio sr)
    = length (frame_signal audio FRAME_N HOP_N) /\
  (Forall is_zero audio -> Forall (eq false) (vad_energy_zcr audio sr)).
Proof. split; [apply length_vad | apply vad_silent]. Qed.

Lemma mapM_const {A B} (f : A -> result B) (c : B) (l : list A) :
  Forall (fun x => f x = Ok c) l -> mapM f l = Ok (repeat c (length l)).
Proof.
  induction l as [|x l IH]; intros Hall; [reflexivity|].
  apply Forall_cons in Hall as [Hx Hl]. cbn [mapM length repeat].
  rewrite Hx. monad_step. rewrite (IH Hl). reflexivity.
Qed.

Lemma np_max_zero (xs : list num) :
  Forall is_zero xs -> xs <> [] -> exists p, np_max xs = Ok p /\ is_zero p.
Proof.
  intros Hxs Hne. destruct xs as [|x xs]; [contradiction|].
  apply Forall_cons in Hxs as [Hx Hxs]. eexists. split; [reflexivity|].
  clear Hne. revert x Hx. induction Hxs as [|y ys Hy _ IH]; intros x Hx; [exact Hx|].
  cbn [fold_left]. apply IH.
  apply is_zero_inv in Hx as (p & -> & Hp).
  apply is_zero_inv in Hy as (q & -> & Hq).
  unfold np_maximum. cbn [Num.is_nan Num.ltb].
  destruct (Qltb p q); apply is_zero_finite; assumption.
Qed.

Lemma autocorr_zero (a : list num) :
  Forall is_zero a -> Forall is_zero (autocorr a).
Proof.
  intros Ha. unfold autocorr. apply Forall_map, Forall_forall. intros k _.
  cbv beta. unfold dot. apply is_zero_py_sum.
  apply Forall_zip_with_fst with (P := is_zero); [apply Forall_drop, Ha|].
  eapply Forall_impl; [exact Ha|]. intros y Hy x Hx.
  apply is_zero_mul; assumption.
Qed.

Section Silence.
Context `{NumPy}.

(** [np.hamming(n)] has [n] entries, all of them numbers. *)
Hypothesis np_hamming_length : forall n, length (np_hamming n) = n.
Hypothesis np_hamming_finite :
  forall n, Forall (fun w => Num.is_finite w = true) (np_hamming n).

Lemma hamming_windowed_zero (frame : list num) :
  Forall is_zero frame -> Forall is_zero (hamming_windowed frame).
Proof.
  intros Hfr. unfold hamming_windowed.
  apply Forall_zip_with_fst with (P := is_zero); [exact Hfr|].
  eapply Forall_impl; [apply np_hamming_finite|]. intros w Hw x Hx.
  apply is_zero_mul_l; assumption.
Qed.

Lemma hamming_windowed_nonempty (frame : list num) :
  frame <> [] -> hamming_windowed frame <> [].
Proof.
  intros Hne. apply nonempty_length. unfold hamming_windowed.
  rewrite length_zip_with, np_hamming_length.
  apply nonempty_length in Hne. lia.
Qed.

Lemma estimate_f0_silent_frame (frame : list num) (sr : Z) :
  Forall is_zero frame -> frame <> [] ->
  estimate_f0_frame frame sr = Ok (Finite 0).
Proof.
  intros Hz Hne. unfold estimate_f0_frame, clipped_autocorr. cbv zeta.
  pose proof (hamming_windowed_zero frame Hz) as Hw.
  pose proof (hamming_windowed_nonempty frame Hne) as Hwne.
  destruct (np_max_zero (map Num.abs (hamming_windowed frame)))
    as (peak & Hpeak & Hp).
  { apply Forall_map. eapply Forall_impl; [exact Hw|]. apply is_zero_abs. }
  { destruct (hamming_windowed frame); [contradiction | discriminate]. }
  rewrite Hpeak. monad_step.
  set (fc := map _ (hamming_windowed frame)).
  assert (Hfc : Forall is_zero fc).
  { unfold fc. apply Forall_map. eapply Forall_impl; [exact Hw|].
    intros x Hx. cbv beta. destruct (_ <? _)%num; [exact Hx | reflexivity]. }
  assert (Hfcne : fc <> []).
  { unfold fc. destruct (hamming_windowed frame); [contradiction | discriminate]. }
  rewrite (np_correlate_tail_ok fc Hfcne). monad_step.
  destruct (_ <=? _)%Z; [reflexivity|].
  pose proof (autocorr_zero fc Hfc) as Hcorr.
  destruct (autocorr fc) as [|c0 corr] eqn:Ecorr.
  { apply (f_equal length) in Ecorr. rewrite length_autocorr in Ecorr.
    apply nonempty_length in Hfcne. simpl in Ecorr. lia. }
  cbn [seq_item lookup list_lookup]. monad_step.
  apply Forall_cons in Hcorr as [(q & -> & Hq)%is_zero_inv _].
  cbn [Num.ltb].
  replace (Qltb q 0.000000000001) with true; [reflexivity|].
  symmetry. apply Qltb_lt. rewrite Hq. lra.
Qed.

Lemma hnr_silent_frame (frame : list num) (sr : Z) :
  Forall is_zero frame -> frame <> [] -> hnr_of_frame frame sr = Ok None.
Proof.
  intros Hz Hne. unfold hnr_of_frame. cbv zeta.
  pose proof (hamming_windowed_zero frame Hz) as Hw.
  pose proof (hamming_windowed_nonempty frame Hne) as Hwne.
  rewrite (np_correlate_tail_ok _ Hwne). monad_step.
  pose proof (autocorr_zero _ Hw) as Hcorr.
  destruct (autocorr (hamming_windowed frame)) as [|c0 corr] eqn:Ecorr.
  { apply (f_equal length) in Ecorr. rewrite length_autocorr in Ecorr.
    apply nonempty_length in Hwne. simpl in Ecorr. lia. }
  cbn [seq_item lookup list_lookup]. monad_step.
  apply Forall_cons in Hcorr as [(q & -> & Hq)%is_zero_inv _].
  cbn [Num.ltb].
  replace (Qltb q 0.000000000001) with true; [reflexivity|].
  symmetry. apply Qltb_lt. rewrite Hq. lra.
Qed.

(** X9. On a buffer of zeros, at any sample rate, every frame is
    unvoiced: the F0 track is zero throughout, the harmonics-to-noise ratio
    is 0, and jitter and shimmer are the all-zero fallback.  It holds for a
    Hamming window of the length asked for whose entries are numbers. *)
Theorem silence_is_unvoiced (audio : list num) (sr : Z) :
  Forall is_zero audio ->
  compute_f0_track audio sr
    = Ok (repeat (Finite 0) (length (frame_signal audio FRAME_N HOP_N))) /\
  compute_hnr audio sr = Ok (Finite 0) /\
  compute_jitter_shimmer audio sr
    = Ok (jitter_shimmer_dict (Finite 0) (Finite 0) (Finite 0) (Finite 0)).
Proof.
  intros Hz. pose proof (frame_signal_silent audio Hz) as Hfr.
  assert (Hf0 : compute_f0_track audio sr
    = Ok (repeat (Finite 0) (length (frame_signal audio FRAME_N HOP_N)))).
  { unfold compute_f0_track. apply mapM_const.
    eapply Forall_impl; [exact Hfr|]. intros fr [Hzero Hne].
    apply estimate_f0_silent_frame; assumption. }
  split; [exact Hf0|]. split.
  - unfold compute_hnr.
    rewrite (mapM_const _ None (frame_signal audio FRAME_N HOP_N)).
    + monad_step. generalize (length (frame_signal audio FRAME_N HOP_N)).
      intros n. replace (omap id (repeat (@None num) n)) with (@nil num);
        [reflexivity|].
      induction n as [|n IH]; [reflexivity | exact IH].
    + eapply Forall_impl; [exact Hfr|]. intros fr [Hzero Hne].
      apply hnr_silent_frame; assumption.
  - eapply few_voiced_fallback; [exact Hf0|].
    generalize (length (frame_signal audio FRAME_N HOP_N)). intros n.
    replace (filter _ (repeat (Finite 0) n)) with (@nil num); [simpl; lia|].
    induction n as [|n IH]; [reflexivity|]. cbn [repeat].
    rewrite filter_cons_False by discriminate. exact IH.
Qed.

End Silence.

Lemma demo_hamming_finite (n : nat) :
  Forall (fun w => Num.is_finite w = true) (np_hamming (NumPy := demo_numpy) n).
Proof.
  cbn [np_hamming demo_numpy].
  induction n as [|n IH]; [constructor|]. constructor; [reflexivity | exact IH].
Qed.

(** X9, on three samples of silence at the operating rate. *)
Lemma silence_is_unvoiced_witness :
  compute_f0_track (H := demo_numpy) [Finite 0; Finite 0; Finite 0] SR
    = Ok (repeat (Finite 0)
            (length (frame_signal [Finite 0; Finite 0; Finite 0]
                                  FRAME_N HOP_N))) /\
  compute_hnr (H := demo_numpy) [Finite 0; Finite 0; Finite 0] SR
    = Ok (Finite 0) /\
  compute_jitter_shimmer (H := demo_numpy) [Finite 0; Finite 0; Finite 0] SR
    = Ok (jitter_shimmer_dict (Finite 0) (Finite 0) (Finite 0) (Finite 0)).
Proof.
  apply (@silence_is_unvoiced demo_numpy demo_hamming_length
           demo_hamming_finite).
  repeat constructor.
Defined.

(* ===================================================================== *)
(** ** Prosody *)
(* ===================================================================== *)

Lemma ratio_within (c total : nat) :
  c <= total ->
  within 0 1 (Num.of_nat c / (Num.of_nat total + 0.000001))%num.
Proof.
  intros Hc. unfold Num.of_nat, Num.of_Z. cbn [Num.add Num.div].
  assert (H0 : (0 <= inject_Z (Z.of_nat c))%Q).
  { change 0%Q with (inject_Z 0). rewrite <- Zle_Qle. lia. }
  assert (H1 : (inject_Z (Z.of_nat c) <= inject_Z (Z.of_nat total))%Q)
    by (rewrite <- Zle_Qle; lia).
  destruct (Qeq_bool (inject_Z (Z.of_nat total) + 0.000001) 0) eqn:E; qbool;
    [lra|].
  eexists. split; [reflexivity|]. split.
  - apply Qle_shift_div_l; lra.
  - apply Qle_shift_div_r; lra.
Qed.

Lemma length_np_where {A} (test : A -> bool) (xs : list A) :
  length (np_where test xs) <= length xs.
Proof.
  unfold np_where. rewrite length_fmap.
  etransitivity; [apply length_filter|]. rewrite length_imap. reflexivity.
Qed.

Lemma np_where_none {A} (test : A -> bool) (xs : list A) :
  Forall (fun x => test x = false) xs -> np_where test xs = [].
Proof.
  intros Hxs. unfold np_where.
  assert (Hnil : forall g : nat -> nat,
            filter (fun ix : nat * A => test ix.2 = true)
                   (imap (fun i x => (g i, x)) xs) = []).
  { induction Hxs as [|x xs Hx _ IH]; intros g; [reflexivity|].
    rewrite imap_cons, filter_cons_False
      by (cbn [snd]; rewrite Hx; discriminate).
    apply (IH (g ∘ S)). }
  pose proof (Hnil (fun i => i)) as Hn. cbv beta in Hn.
  rewrite Hn. reflexivity.
Qed.

Lemma frame_count_formula (audio : list num) :
  Z.of_nat (length (frame_signal audio FRAME_N HOP_N))
    = Z.max 1 (1 + (Z.of_nat (length audio) - 551) / 220).
Proof.
  assert (Hhop : 0 < HOP_N) by (rewrite HOP_N_value; lia).
  destruct (Nat.lt_ge_cases (length audio) FRAME_N) as [Hlen|Hlen].
  - rewrite (frame_signal_short _ _ _ Hhop Hlen). cbn [length].
    rewrite FRAME_N_value in Hlen.
    assert ((Z.of_nat (length audio) - 551) / 220 < 0)%Z
      by (apply Z.div_lt_upper_bound; lia).
    lia.
  - rewrite (frame_signal_count _ _ _ Hhop Hlen).
    rewrite FRAME_N_value, HOP_N_value in *.
    change (Z.of_nat 551) with 551%Z. change (Z.of_nat 220) with 220%Z.
    assert (0 <= (Z.of_nat (length audio) - 551) / 220)%Z
      by (apply Z.div_pos; lia).
    lia.
Qed.

Lemma single_frame (audio : list num) :
  length audio < FRAME_N + HOP_N ->
  length (frame_signal audio FRAME_N HOP_N) = 1.
Proof.
  intros Hlen. pose proof (frame_count_formula audio) as Hn.
  rewrite FRAME_N_value, HOP_N_value in Hlen.
  assert ((Z.of_nat (length audio) - 551) / 220 <= 0)%Z.
  { assert ((Z.of_nat (length audio) - 551) / 220 < 1)%Z
      by (apply Z.div_lt_upper_bound; lia).
    lia. }
  lia.
Qed.

Section Prosody.
Context `{NumPy}.

Lemma compute_prosody_returns (audio : list num) (sr : Z) :
  (0 < sr)%Z ->
  let voiced := vad_energy_zcr audio sr in
  exists (m : gmap string num) (count : nat),
    compute_prosody audio sr = Ok m /\
    m !! "speech_ratio"
      = Some (Num.of_nat (length (filter (fun v : bool => v = true) voiced))
              / (Num.of_nat (length voiced) + 0.000001))%num /\
    m !! "pause_count" = Some (Num.of_nat count) /\
    count < length (frame_signal audio FRAME_N HOP_N) /\
    (Forall (eq false) voiced -> count = 0).
Proof.
  intros Hsr voiced. unfold compute_prosody. fold voiced. cbv zeta.
  unfold py_truediv.
  replace (sr =? 0)%Z with false by (symmetry; apply Z.eqb_neq; lia).
  monad_step.
  rewrite py_floatdiv_ok by (apply total_dur_nonzero, Hsr). monad_step.
  set (uv := map (fun v : bool => if v then 0%Z else 1%Z) voiced).
  set (transitions := zip_with (fun a b => (b - a)%Z) uv (tail uv)).
  set (ps := np_where (fun t => (t =? 1)%Z) transitions).
  set (pe := np_where (fun t => (t =? -1)%Z) transitions).
  set (pause_dur := match ps with [] => [] | _ => _ end).
  assert (Hlen : length voiced = length (frame_signal audio FRAME_N HOP_N)).
  { unfold voiced, vad_energy_zcr. cbv zeta.
    rewrite length_zip_with, !length_map. lia. }
  assert (Hpos : 0 < length (frame_signal audio FRAME_N HOP_N)).
  { apply nonempty_length, frame_signal_nonempty. rewrite HOP_N_value. lia. }
  assert (Hps : length ps < length voiced).
  { unfold ps. eapply Nat.le_lt_trans; [apply length_np_where|].
    unfold transitions. rewrite length_zip_with.
    assert (Huv : length uv = length voiced) by (unfold uv; apply length_map).
    assert (Htl : length (tail uv) = length uv - 1)
      by (destruct uv; simpl; lia).
    lia. }
  assert (Hcount : length pause_dur <= length ps).
  { unfold pause_dur. destruct ps as [|ps0 ps']; [simpl; lia|].
    destruct pe as [|pe0 pe']; [simpl; lia|].
    rewrite length_zip_with, !length_take. lia. }
  assert (Hmax : exists pause_max,
            (if (length pause_dur =? 0)%nat then Ok (Finite 0)
             else np_max pause_dur) = Ok pause_max).
  { destruct pause_dur as [|d ds]; [eexists; reflexivity|].
    eexists. reflexivity. }
  destruct Hmax as [pause_max ->]. monad_step.
  eexists. exists (length pause_dur). split; [reflexivity|].
  rewrite !list_to_map_cons.
  split; [apply lookup_insert_eq|]. split.
  { rewrite lookup_insert_ne by discriminate. apply lookup_insert_eq. }
  split; [lia|].
  intros Hsilent.
  assert (Hnil : ps = []).
  { unfold ps. apply np_where_none. unfold transitions.
    assert (Huv : Forall (eq 1%Z) uv).
    { unfold uv. apply Forall_map. eapply Forall_impl; [exact Hsilent|].
      intros v <-. reflexivity. }
    clearbody uv. clear -Huv.
    induction Huv as [|u uv <- Huv IH]; [constructor|].
    destruct Huv as [|u' uv' <- Huv']; [constructor|].
    cbn [tail zip_with]. constructor; [reflexivity | exact IH]. }
  unfold pause_dur. rewrite Hnil. reflexivity.
Qed.

(** With a single frame and the sample rate -220000000 the duration
    [total_dur] is -1e-6, and the pause rate divides by zero. *)
Lemma compute_prosody_negative_rate (audio : list num) :
  length audio < FRAME_N + HOP_N ->
  compute_prosody audio (-220000000) = Raise ZeroDivisionError.
Proof.
  intros Hlen. pose proof (single_frame audio Hlen) as Hone.
  rewrite <- (length_vad audio (-220000000)) in Hone.
  unfold compute_prosody. cbv zeta.
  destruct (vad_energy_zcr audio (-220000000)) as [|v [|v' vs]];
    try discriminate Hone.
  destruct v; vm_compute; reflexivity.
Qed.

(** X10. [compute_spectral_features] raises the [ValueError] of [rfft] for
    an FFT size of 0, at any sample rate; for another FFT size and the
    sample rate 0 it raises [ZeroDivisionError], as [compute_prosody] does
    at the sample rate 0.  At a positive sample rate [compute_prosody]
    returns, with a [speech_ratio] between 0 and 1 and a [pause_count] below
    the number of frames; on a buffer of zeros both are 0.  A negative rate
    can make it raise: a recording of a single frame at the rate -220000000
    has a duration of -1e-6 and raises [ZeroDivisionError]. *)
Theorem compute_prosody_speech (audio : list num) (sr : Z) (n_fft : nat) :
  compute_prosody audio 0 = Raise ZeroDivisionError /\
  compute_spectral_features audio sr 0 = Raise ValueError /\
  (n_fft <> 0 ->
   compute_spectral_features audio 0 n_fft = Raise ZeroDivisionError) /\
  (length audio < FRAME_N + HOP_N ->
   compute_prosody audio (-220000000) = Raise ZeroDivisionError) /\
  ((0 < sr)%Z ->
   exists (m : gmap string num) (ratio : num) (count : nat),
     compute_prosody audio sr = Ok m /\
     m !! "speech_ratio" = Some ratio /\ within 0 1 ratio /\
     m !! "pause_count" = Some (Num.of_nat count) /\
     count < length (frame_signal audio FRAME_N HOP_N) /\
     (Forall is_zero audio -> is_zero ratio /\ count = 0)).
Proof.
  split; [reflexivity|]. split; [reflexivity|]. split.
  { intros Hn. unfold compute_spectral_features, power_spectrum.
    apply Nat.eqb_neq in Hn. rewrite Hn. reflexivity. }
  split; [apply compute_prosody_negative_rate|]. intros Hsr.
  destruct (compute_prosody_returns audio sr Hsr)
    as (m & count & Hm & Hratio & Hcount & Hlt & Hsilent).
  exists m. eexists. exists count. split; [exact Hm|].
  split; [exact Hratio|]. split; [|split; [exact Hcount|split; [exact Hlt|]]].
  - apply ratio_within, length_filter.
  - intros Hz. pose proof (vad_silent audio sr Hz) as Hv.
    split; [|apply Hsilent, Hv].
    replace (filter (fun v : bool => v = true) (vad_energy_zcr audio sr))
      with (@nil bool).
    + destruct (ratio_within 0 (length (vad_energy_zcr audio sr)))
        as (q & Hq & _); [lia|].
      cbn [length]. rewrite Hq. apply is_zero_finite.
      revert Hq. unfold Num.of_nat, Num.of_Z. cbn [Num.add Num.div].
      destruct (Qeq_bool _ 0); [discriminate|]. intros [= <-].
      change (inject_Z (Z.of_nat 0)) with 0%Q. apply Qmult_0_l.
    + clear -Hv. induction Hv as [|v vs <- _ IH]; [reflexivity|].
      rewrite filter_cons_False by discriminate. exact IH.
Qed.

End Prosody.

(** X10, on three samples of silence, at the operating rate and FFT size. *)
Lemma compute_prosody_speech_witness :
  compute_prosody (H := demo_numpy) [Finite 0; Finite 0; Finite 0] 0
    = Raise ZeroDivisionError /\
  compute_spectral_features (H := demo_numpy)
    [Finite 0; Finite 0; Finite 0] SR 0 = Raise ValueError /\
  compute_spectral_features (H := demo_numpy)
    [Finite 0; Finite 0; Finite 0] 0 512 = Raise ZeroDivisionError /\
  compute_prosody (H := demo_numpy)
    [Finite 0; Finite 0; Finite 0] (-220000000) = Raise ZeroDivisionError /\
  exists (m : gmap string num) (ratio : num) (count : nat),
    compute_prosody (H := demo_numpy) [Finite 0; Finite 0; Finite 0] SR
      = Ok m /\
    m !! "speech_ratio" = Some ratio /\ within 0 1 ratio /\
    m !! "pause_count" = Some (Num.of_nat count) /\
    count < length (frame_signal [Finite 0; Finite 0; Finite 0]
                                 FRAME_N HOP_N) /\
    is_zero ratio /\ count = 0.
Proof.
  destruct (@compute_prosody_speech demo_numpy
              [Finite 0; Finite 0; Finite 0] SR 512)
    as (Hzero & Hfft & Hrate & Hneg & Hpos).
  split; [exact Hzero|]. split; [exact Hfft|].
  split; [apply Hrate; discriminate|].
  split; [apply Hneg; vm_compute; lia|].
  destruct Hpos as (m & ratio & count & Hm & Hr & Hw & Hc & Hlt & Hsilent);
    [reflexivity|].
  exists m, ratio, count.
  split; [exact Hm|]. split; [exact Hr|]. split; [exact Hw|].
  split; [exact Hc|]. split; [exact Hlt|].
  apply Hsilent. repeat constructor.
Defined.

(* ===================================================================== *)
(** ** Shapes of the feature arrays *)
(* ===================================================================== *)

Section Shapes.
Context `{NumPy}.

Lemma mfcc_of_power_rows (power fbank : list (list num)) (n_mfcc : nat)
    (mfcc : list (list num)) :
  mfcc_of_power power fbank n_mfcc = Ok mfcc ->
  Forall (fun row => length row = length power) mfcc.
Proof.
  unfold mfcc_of_power. intros Hm.
  destruct (np_dot_T power fbank) as [mel_e|e] eqn:E;
    monad_step_in Hm; [|discriminate Hm].
  cbv zeta in Hm.
  destruct (_ && _); [discriminate Hm|]. injection Hm as <-.
  assert (Hl : length mel_e = length power).
  { unfold np_dot_T in E. destruct fbank as [|b fb].
    - injection E as <-. apply length_map.
    - destruct (forallb _ power); [|discriminate E].
      injection E as <-. apply length_map. }
  apply Forall_map, Forall_forall. intros i _. cbv beta.
  rewrite !length_map. exact Hl.
Qed.

Hypothesis np_hamming_length : forall n, length (np_hamming n) = n.
Hypothesis rfft_length : forall x n, length (rfft x n) = n / 2 + 1.
Hypothesis band_edges_in_range : Forall (within 0 11025) band_edges.

Lemma compute_mfcc_rows (audio : list num) (sr : Z) (n_mfcc n_fft : nat)
    (s : store) (mfcc : list (list num)) :
  (compute_mfcc audio sr n_mfcc n_fft s).1 = Ok mfcc ->
  Forall (fun row => length row = length (frame_signal audio FRAME_N HOP_N))
         mfcc.
Proof.
  unfold compute_mfcc, mfcc_frames. intros Hm.
  destruct (pre_emphasis audio PRE_EMP) as [emph|e] eqn:Hemph;
    monad_step_in Hm; [|discriminate Hm].
  cbv zeta in Hm.
  destruct (power_spectrum _ n_fft) as [power|e] eqn:Hpower;
    [|discriminate Hm].
  destruct (get_fbank sr n_fft 40 s) as [[fbank|e] s']; cbn [fst] in Hm;
    monad_step_in Hm; [|discriminate Hm].
  apply mfcc_of_power_rows in Hm.
  eapply Forall_impl; [exact Hm|]. intros row ->.
  unfold power_spectrum in Hpower.
  destruct (n_fft =? 0)%nat; [discriminate Hpower|]. injection Hpower as <-.
  unfold apply_window. rewrite !length_map.
  apply frame_count_by_length. eapply length_pre_emphasis, Hemph.
Qed.

(** X11. [compute_mfcc] raises [IndexError] on an empty signal.  On any
    other signal, at the operating rate and with a cache that holds only
    what [get_fbank] stored, it returns 13 rows with one column per frame.
    It holds for a real FFT of [n // 2 + 1] bins and band edges within the
    Nyquist range. *)
Theorem compute_mfcc_shape (audio : list num) (s : store) :
  (compute_mfcc [] SR N_MFCC 512 s).1 = Raise IndexError /\
  (audio <> [] -> fbank_ok s ->
   exists mfcc,
     (compute_mfcc audio SR N_MFCC 512 s).1 = Ok mfcc /\
     length mfcc = 13 /\
     Forall (fun row =>
               length row = length (frame_signal audio FRAME_N HOP_N)) mfcc).
Proof.
  split; [reflexivity|]. intros Hne Hs.
  destruct (compute_mfcc_ok rfft_length band_edges_in_range audio s Hne Hs)
    as (mfcc & Hm & Hlen & _).
  exists mfcc. split; [exact Hm|]. split; [exact Hlen|].
  eapply compute_mfcc_rows, Hm.
Qed.

Lemma features_arrays (audio : list num) (s : store) (feats : features) :
  (features_from_audio audio SR s).1 = Ok feats ->
  exists mfcc,
    (compute_mfcc audio SR N_MFCC 512 s).1 = Ok mfcc /\
    compute_f0_track audio SR = Ok (_f0_track feats) /\
    _mfcc feats = take 5 mfcc /\ _sr feats = SR.
Proof.
  unfold features_from_audio. intros Hf.
  destruct (compute_mfcc audio SR N_MFCC 512 s) as [r s']. cbn [fst] in Hf |- *.
  destruct r as [mfcc|e]; monad_step_in Hf; [|discriminate Hf].
  do 10 invert_bind Hf. injection Hf as <-.
  exists mfcc. repeat split; reflexivity || assumption.
Qed.

(** X12. For a non-empty buffer of whole float32 samples,
    [extract_all_features] returns a feature set whose [_sr] is the rate it
    was given, whose [_f0_track] has [max(1, 1 + (n - 551) // 220)] entries
    for [n] samples, and whose [_mfcc] has 5 rows, each as long as the F0
    track. *)
Theorem features_shape (ab : list byte) (s : store) :
  store_ok s -> length ab mod 4 = 0 -> ab <> [] ->
  exists feats,
    (extract_all_features ab SR s).1 = Ok feats /\
    _sr feats = SR /\
    Z.of_nat (length (_f0_track feats))
      = Z.max 1 (1 + (Z.of_nat (length ab / 4) - 551) / 220) /\
    length (_mfcc feats) = 5 /\
    Forall (fun row => length row = length (_f0_track feats)) (_mfcc feats).
Proof.
  intros Hs Hmod Hne.
  destruct (extract_all_features_store ab SR s Hs) as [Hcall _].
  rewrite Hcall. unfold extract_all_features_body.
  destruct (np_frombuffer_ok ab Hmod) as (raw & Hraw & Hrawlen).
  rewrite Hraw. monad_step.
  assert (Hrawne : raw <> []).
  { apply nonempty_length. rewrite Hrawlen.
    apply nonempty_length in Hne.
    pose proof (Nat.div_mod_eq (length ab) 4) as Hdiv. lia. }
  destruct (normalize_audio_ok raw Hrawne) as (audio & Haudio & Hlen).
  rewrite Haudio.
  assert (Hane : audio <> []).
  { apply nonempty_length. rewrite Hlen. apply nonempty_length, Hrawne. }
  destruct (features_from_audio_ok np_hamming_length rfft_length
              band_edges_in_range audio empty_store Hane)
    as [feats Hfeats]; [apply empty_store_ok|].
  exists feats. split; [exact Hfeats|].
  destruct (features_arrays audio empty_store feats Hfeats)
    as (mfcc & Hmfcc & Hf0 & Hm5 & Hsr).
  split; [exact Hsr|].
  assert (Hcount : length (_f0_track feats)
                   = length (frame_signal audio FRAME_N HOP_N)).
  { unfold compute_f0_track in Hf0. apply mapM_inv, Forall2_length in Hf0.
    symmetry. exact Hf0. }
  split.
  - rewrite Hcount, frame_count_formula, Hlen, Hrawlen. reflexivity.
  - destruct (compute_mfcc_ok rfft_length band_edges_in_range audio
                empty_store Hane) as (mfcc' & Hmfcc' & Hlen13 & _);
      [apply empty_store_ok|].
    rewrite Hmfcc in Hmfcc'. injection Hmfcc' as <-.
    rewrite Hm5. split.
    + rewrite length_take, Hlen13. reflexivity.
    + apply Forall_take. rewrite Hcount. eapply compute_mfcc_rows, Hmfcc.
Qed.

(** X13. A recording shorter than one frame and one hop makes a single
    frame, so nothing changes from frame to frame: [compute_lpc_features]
    returns an [lpc_flux] of exactly 0 and [compute_spectral_features] a
    [flux_mean] of zero. *)
Theorem single_frame_flux (audio : list num) :
  length audio < FRAME_N + HOP_N ->
  exists (lpc spec : gmap string num) (flux_mean : num),
    compute_lpc_features audio = Ok lpc /\
    lpc !! "lpc_flux" = Some (Finite 0) /\
    compute_spectral_features audio SR 512 = Ok spec /\
    spec !! "flux_mean" = Some flux_mean /\ is_zero flux_mean.
Proof.
  intros Hlen. pose proof (single_frame audio Hlen) as Hone.
  destruct (compute_lpc_features_ok np_hamming_length audio) as [lpc Hlpc].
  destruct (compute_spectral_features_ok rfft_length audio) as [spec Hspec].
  destruct (power_spectrum_shape rfft_length
              (apply_window (frame_signal audio FRAME_N HOP_N)) 512)
    as (power & Hpower & Hplen & _); [discriminate|].
  exists lpc, spec.
  exists (np_mean (Finite 0 :: zip_with row_distance power (tail power))).
  split; [exact Hlpc|].
  unfold compute_lpc_features in Hlpc. cbv zeta in Hlpc.
  destruct (mapM _ (frame_signal audio FRAME_N HOP_N)) as [per_frame|e]
    eqn:Hmap; monad_step_in Hlpc; [|discriminate Hlpc].
  apply mapM_inv, Forall2_length in Hmap. rewrite Hone in Hmap.
  injection Hlpc as <-. rewrite length_fmap, <- Hmap.
  rewrite ?list_to_map_cons.
  split.
  { do 2 (rewrite lookup_insert_ne by discriminate). apply lookup_insert_eq. }
  split; [exact Hspec|].
  unfold compute_spectral_features in Hspec. cbv zeta in Hspec.
  rewrite Hpower in Hspec. monad_step_in Hspec.
  do 4 invert_bind Hspec. injection Hspec as <-.
  rewrite ?list_to_map_cons.
  do 3 (rewrite lookup_insert_ne by discriminate).
  rewrite lookup_insert_eq.
  unfold apply_window in Hplen. rewrite length_map, Hone in Hplen.
  destruct power as [|p [|p' ps]]; try discriminate Hplen.
  split; reflexivity.
Qed.

End Shapes.

(** X11, on a signal of one sample, from the empty cache. *)
Lemma compute_mfcc_shape_witness :
  (compute_mfcc (H := demo_numpy) [] SR N_MFCC 512 empty_store).1
    = Raise IndexError /\
  exists mfcc,
    (compute_mfcc (H := demo_numpy) [Finite 1] SR N_MFCC 512 empty_store).1
      = Ok mfcc /\
    length mfcc = 13 /\
    Forall (fun row =>
              length row = length (frame_signal [Finite 1] FRAME_N HOP_N))
           mfcc.
Proof.
  destruct demo_library_laws as (_ & Hrfft & Hband).
  destruct (@compute_mfcc_shape demo_numpy Hrfft Hband [Finite 1] empty_store)
    as [Hempty Hshape].
  split; [exact Hempty|]. apply Hshape; [discriminate|].
  apply empty_store_ok.
Defined.

(** X12, on a buffer of one sample, from the empty store. *)
Lemma features_shape_witness :
  exists feats,
    (extract_all_features (H := demo_numpy) nan_bytes SR empty_store).1
      = Ok feats /\
    _sr feats = SR /\
    Z.of_nat (length (_f0_track feats))
      = Z.max 1 (1 + (Z.of_nat (length nan_bytes / 4) - 551) / 220) /\
    length (_mfcc feats) = 5 /\
    Forall (fun row => length row = length (_f0_track feats)) (_mfcc feats).
Proof.
  destruct demo_library_laws as (Hham & Hrfft & Hband).
  apply (@features_shape demo_numpy Hham Hrfft Hband).
  - apply empty_store_ok.
  - reflexivity.
  - discriminate.
Defined.

(** X13, on a recording of three samples. *)
Lemma single_frame_flux_witness :
  exists (lpc spec : gmap string num) (flux_mean : num),
    compute_lpc_features (H := demo_numpy) [Finite 1; Finite 0; Finite 1]
      = Ok lpc /\
    lpc !! "lpc_flux" = Some (Finite 0) /\
    compute_spectral_features (H := demo_numpy)
      [Finite 1; Finite 0; Finite 1] SR 512 = Ok spec /\
    spec !! "flux_mean" = Some flux_mean /\ is_zero flux_mean.
Proof.
  destruct demo_library_laws as (Hham & Hrfft & _).
  apply (@single_frame_flux demo_numpy Hham Hrfft).
  vm_compute. lia.
Defined.

(* ===================================================================== *)
(** ** Reads and outputs of the scoring *)
(* ===================================================================== *)

Lemma bind_fmap_getitem_Some {V A B} (g : V -> A) (d : gmap string V)
    (k : string) (K : A -> result B) (v : V) :
  d !! k = Some v -> (g <$> getitem d k) ≫= K = K (g v).
Proof. unfold getitem. intros ->. reflexivity. Qed.

Lemma bind_fmap_getitem_None {V A B} (g : V -> A) (d : gmap string V)
    (k : string) (K : A -> result B) :
  d !! k = None -> (g <$> getitem d k) ≫= K = Raise (KeyError k).
Proof. unfold getitem. intros ->. reflexivity. Qed.

Lemma bind_getitem_Some {V B} (d : gmap string V) (k : string)
    (K : V -> result B) (v : V) :
  d !! k = Some v -> getitem d k ≫= K = K v.
Proof. unfold getitem. intros ->. reflexivity. Qed.

Lemma bind_getitem_None {V B} (d : gmap string V) (k : string)
    (K : V -> result B) :
  d !! k = None -> getitem d k ≫= K = Raise (KeyError k).
Proof. unfold getitem. intros ->. reflexivity. Qed.

(** One read [f[k]] at the head of the rest of [compute_indicators]: the
    value is bound, or the goal is left with the missing key. *)
Ltac read_key Hr :=
  cbv beta zeta in Hr;
  lazymatch type of Hr with
  | (?g <$> getitem ?f ?k) ≫= ?K = _ =>
      lazymatch goal with
      | E : f !! k = Some ?v |- _ =>
          rewrite (bind_fmap_getitem_Some g f k K v E) in Hr
      | _ =>
          let E := fresh "E" in
          destruct (f !! k) eqn:E;
          [ rewrite (bind_fmap_getitem_Some g f k K _ E) in Hr
          | rewrite (bind_fmap_getitem_None g f k K E) in Hr ]
      end
  | getitem ?f ?k ≫= ?K = _ =>
      lazymatch goal with
      | E : f !! k = Some ?v |- _ =>
          rewrite (bind_getitem_Some f k K v E) in Hr
      | _ =>
          let E := fresh "E" in
          destruct (f !! k) eqn:E;
          [ rewrite (bind_getitem_Some f k K _ E) in Hr
          | rewrite (bind_getitem_None f k K E) in Hr ]
      end
  end.

Ltac is_input :=
  unfold indicator_inputs;
  repeat first [apply list_elem_of_here | apply list_elem_of_further].

Section IndicatorReads.
Context `{NumPy}.

Lemma compute_indicators_cases (f : gmap string num) (role : string)
    (res : result indicators) :
  compute_indicators f role = res ->
  (exists k, k ∈ indicator_inputs /\ f !! k = None /\
     res = Raise (KeyError k)) \/
  (Forall (fun k => is_Some (f !! k)) indicator_inputs /\
   exists r, res = Ok r /\ risk_level r = severity_label (composite r)).
Proof.
  intros Hr. unfold compute_indicators in Hr.
  repeat (read_key Hr;
          try solve [left; eexists;
                     split; [|split; [eassumption | symmetry; exact Hr]];
                     is_input]).
  cbv beta zeta in Hr. right. split.
  - unfold indicator_inputs. repeat apply List.Forall_cons;
      try apply List.Forall_nil; eexists; eassumption.
  - eexists. split; [symmetry; exact Hr | reflexivity].
Qed.

(** X14. [compute_indicators] returns exactly when the feature set holds
    the 21 features it reads with [f[...]]; otherwise it raises, and what it
    raises is the [KeyError] of one of those features that is missing.  No
    value of a feature makes it raise. *)
Theorem compute_indicators_keyerror (f : gmap string num) (role : string) :
  (raises (compute_indicators f role) = false
     <-> Forall (fun k => is_Some (f !! k)) indicator_inputs) /\
  (forall e, compute_indicators f role = Raise e ->
     exists k, e = KeyError k /\ k ∈ indicator_inputs /\ f !! k = None).
Proof.
  destruct (compute_indicators_cases f role _ eq_refl)
    as [(k & Hin & Hk & Hr) | (Hkeys & r & Hr & _)]; rewrite Hr.
  - split.
    + split; [discriminate|]. intros Hkeys. rewrite Forall_forall in Hkeys.
      destruct (Hkeys k Hin) as [v Hv]. congruence.
    + intros e [= <-]. exists k. repeat split; assumption.
  - split; [|discriminate]. split; [intros _; exact Hkeys | reflexivity].
Qed.

(** X15. The colour [RISK_COLORS] holds for the level of a score is the
    colour [sev_color] gives the score, so the lookup
    [RISK_COLORS[ind['risk_level']]] of the report never raises and agrees
    with the colour of the composite. *)
Theorem risk_colour_consistent :
  (forall score : num,
     RISK_COLORS !! risk_name (severity_label score)
       = Some (sev_color score)) /\
  (forall f role r,
     compute_indicators f role = Ok r ->
     getitem RISK_COLORS (risk_name (risk_level r))
       = Ok (sev_color (composite r))).
Proof.
  assert (Hscore : forall score : num,
            RISK_COLORS !! risk_name (severity_label score)
              = Some (sev_color score)).
  { intros score. unfold severity_label, sev_color.
    destruct (score <? 30)%num; [reflexivity|].
    destruct (score <? 50)%num; [reflexivity|].
    destruct (score <? 70)%num; reflexivity. }
  split; [exact Hscore|]. intros f role r Hr.
  destruct (compute_indicators_cases f role _ Hr)
    as [(k & _ & _ & Hk) | (_ & r' & [= <-] & Hlevel)]; [discriminate Hk|].
  unfold getitem. rewrite Hlevel, Hscore. reflexivity.
Qed.

(** X16. The role only moves the F0 reference of the stress score: for
    another role [compute_indicators] still returns, with the same fatigue,
    cognitive load, clarity, confidence and the same fatigue and cognitive
    breakdowns; and two roles that agree on whether they contain [Male] and
    [Female] give the same record. *)
Theorem role_shifts_f0_reference (f : gmap string num) (role1 role2 : string)
    (r1 : indicators) :
  compute_indicators f role1 = Ok r1 ->
  exists r2, compute_indicators f role2 = Ok r2 /\
    fatigue r2 = fatigue r1 /\ cognitive r2 = cognitive r1 /\
    rt_clarity r2 = rt_clarity r1 /\ confidence r2 = confidence r1 /\
    fat_subs r2 = fat_subs r1 /\ cog_subs r2 = cog_subs r1 /\
    (str_in "Male" role2 = str_in "Male" role1 ->
     str_in "Female" role2 = str_in "Female" role1 -> r2 = r1).
Proof.
  intros Hr1.
  destruct (compute_indicators_cases f role1 _ Hr1)
    as [(k & _ & _ & Hk) | (Hkeys & _)]; [discriminate Hk|].
  unfold indicator_inputs in Hkeys.
  repeat match type of Hkeys with
  | Forall _ (_ :: _) =>
      let Hk := fresh "Hk" in
      apply Forall_cons in Hkeys as [[? Hk] Hkeys]
  end.
  revert Hr1. unfold compute_indicators, getitem.
  repeat match goal with Hk : f !! _ = Some _ |- _ => rewrite Hk end.
  monad_step. intros [= <-].
  eexists. split; [reflexivity|].
  cbn [fatigue cognitive rt_clarity confidence fat_subs cog_subs].
  repeat (split; [reflexivity|]).
  intros -> ->. reflexivity.
Qed.

End IndicatorReads.

(** X16, from a male pilot to a pilot of unstated sex. *)
Lemma role_shifts_f0_reference_witness :
  exists r1 r2,
    compute_indicators (H := demo_numpy) calm_features "Male Pilot" = Ok r1 /\
    compute_indicators (H := demo_numpy) calm_features "Pilot" = Ok r2 /\
    fatigue r2 = fatigue r1 /\ cognitive r2 = cognitive r1 /\
    rt_clarity r2 = rt_clarity r1 /\ confidence r2 = confidence r1 /\
    fat_subs r2 = fat_subs r1 /\ cog_subs r2 = cog_subs r1 /\
    (str_in "Male" "Pilot" = str_in "Male" "Male Pilot" ->
     str_in "Female" "Pilot" = str_in "Female" "Male Pilot" -> r2 = r1).
Proof.
  destruct (compute_indicators_total (H := demo_numpy) calm_features
              "Male Pilot") as [r1 Hr1].
  { unfold indicator_inputs.
    repeat (apply Forall_cons; split; [vm_compute; eexists; reflexivity|]).
    apply Forall_nil. exact I. }
  exists r1.
  destruct (role_shifts_f0_reference (H := demo_numpy) calm_features
              "Male Pilot" "Pilot" r1 Hr1) as (r2 & Hr2).
  exists r2. split; [exact Hr1 | exact Hr2].
Defined.

(* ===================================================================== *)
(** ** Bars of the breakdown charts *)
(* ===================================================================== *)

Lemma bar_within (v : num) (lo w : Q) :
  within lo w v -> (0 <= lo)%Q -> within 0 100 (py_min (v * 5) 100)%num.
Proof.
  intros (q & -> & Hq) Hlo. unfold py_min. cbn [Num.mul Num.ltb].
  destruct (Qltb 100 (q * 5)) eqn:E; qbool.
  - exists 100%Q. split; [reflexivity | lra].
  - exists (q * 5)%Q. split; [reflexivity | lra].
Qed.

Lemma bar_within_scaled (v : num) (lo w : Q) :
  within lo w v -> (0 <= lo)%Q ->
  within 0 (w * 5) (py_min (v * 5) 100)%num.
Proof.
  intros (q & -> & Hq) Hlo. unfold py_min. cbn [Num.mul Num.ltb].
  destruct (Qltb 100 (q * 5)) eqn:E; qbool.
  - exists 100%Q. split; [reflexivity | lra].
  - exists (q * 5)%Q. split; [reflexivity | lra].
Qed.

Section SubIndicators.
Context `{NumPy}.
Hypothesis np_exp_range :
  forall x, Num.is_nan x = false -> (0 <=? np_exp x)%num = true.

Ltac weight_nonzero := let Hz := fresh in intro Hz; lra.

Ltac term_nonan :=
  first
    [ assumption
    | reflexivity
    | apply mul_const_not_nan; [weight_nonzero | term_nonan]
    | apply div_const_not_nan; [weight_nonzero | term_nonan]
    | apply abs_not_nan; term_nonan ]
with term_bound :=
  first
    [ apply one_minus_within; term_bound
    | apply np_clip_within; [term_nonan | lra]
    | apply (sigmoid_within np_exp_range);
        [weight_nonzero | reflexivity | term_nonan]
    | eapply mul_within; [lra | term_bound] ].

Ltac bar :=
  first
    [ solve [eapply within_weaken; cycle 2;
             [eapply bar_within_scaled; [term_bound | lra] | lra | lra]]
    | solve [eapply bar_within; [term_bound | lra]] ].

(** X17. With every feature present and none a NaN, each bar of the three
    breakdowns is a number from 0 up to five times the weight of its term,
    capped at 100: at most 100, 90, 80, 75, 75, 40, 40 for fatigue, 100, 75,
    80, 65, 60, 60, 50 for stress and 100, 90, 75, 70, 70, 50, 35 for
    cognitive load. *)
Theorem sub_indicators_capped (f : gmap string num) (role : string) :
  Forall (fun k => is_Some (f !! k)) indicator_inputs ->
  (forall k v, f !! k = Some v -> Num.is_nan v = false) ->
  exists r, compute_indicators f role = Ok r /\
    Forall2 (fun kv cap => within 0 cap kv.2) (fat_subs r)
            [100; 90; 80; 75; 75; 40; 40]%Q /\
    Forall2 (fun kv cap => within 0 cap kv.2) (stre_subs r)
            [100; 75; 80; 65; 60; 60; 50]%Q /\
    Forall2 (fun kv cap => within 0 cap kv.2) (cog_subs r)
            [100; 90; 75; 70; 70; 50; 35]%Q.
Proof.
  intros Hkeys Hnan. unfold indicator_inputs in Hkeys.
  repeat match type of Hkeys with
  | Forall _ (_ :: _) =>
      let Hk := fresh "Hk" in
      apply Forall_cons in Hkeys as [[? Hk] Hkeys]
  end.
  assert (Hd : Num.is_nan (dict_get f "mfccD1_mean" 0%num) = false).
  { unfold dict_get. destruct (f !! "mfccD1_mean") eqn:E; [|reflexivity].
    simpl. eapply Hnan, E. }
  repeat match goal with
  | Hk : f !! _ = Some _ |- _ => apply Hnan in Hk as ?; revert Hk
  end.
  intros. unfold compute_indicators, getitem.
  repeat match goal with Hk : f !! _ = Some _ |- _ => rewrite Hk end.
  destruct (f0_center_finite role) as [c ->].
  eexists. split; [reflexivity|].
  cbn [fat_subs stre_subs cog_subs subs map fst snd].
  repeat split.
  all: repeat (apply Forall2_cons; split; [cbn [snd]|]); try apply Forall2_nil_2.
  all: bar.
Qed.

End SubIndicators.

(** X17, on the features of a calm male pilot. *)
Lemma sub_indicators_capped_witness :
  exists r, compute_indicators (H := demo_numpy) calm_features "Male Pilot"
              = Ok r /\
    Forall2 (fun kv cap => within 0 cap kv.2) (fat_subs r)
            [100; 90; 80; 75; 75; 40; 40]%Q /\
    Forall2 (fun kv cap => within 0 cap kv.2) (stre_subs r)
            [100; 75; 80; 65; 60; 60; 50]%Q /\
    Forall2 (fun kv cap => within 0 cap kv.2) (cog_subs r)
            [100; 90; 75; 70; 70; 50; 35]%Q.
Proof.
  apply (@sub_indicators_capped demo_numpy demo_exp_range).
  - unfold indicator_inputs.
    repeat (apply Forall_cons; split; [vm_compute; eauto|]). constructor.
  - intros k v Hk. unfold calm_features in Hk.
    apply elem_of_list_to_map_2 in Hk. cbn [map fst snd] in Hk.
    repeat (apply elem_of_cons in Hk as [Hk|Hk];
            [injection Hk as _ ->; reflexivity|]).
    inversion Hk.
Defined.

(* ===================================================================== *)
(** ** Adaptive difficulty *)
(* ===================================================================== *)

Lemma list_index_Ok (x : string) (l : list string) (i : nat) :
  list_index x l = Ok i -> l !! i = Some x.
Proof.
  revert i. induction l as [|y l IH]; intros i Hi; [discriminate Hi|].
  cbn [list_index] in Hi. destruct (decide (x = y)) as [->|Hne].
  - injection Hi as <-. reflexivity.
  - destruct (list_index x l) as [j|e]; [|discriminate Hi].
    injection Hi as <-. apply IH. reflexivity.
Qed.

Lemma list_index_raises (x : string) (l : list string) :
  raises (list_index x l) = true <-> x ∉ l.
Proof.
  induction l as [|y l IH]; cbn [list_index].
  - split; [intros _; apply not_elem_of_nil | reflexivity].
  - destruct (decide (x = y)) as [->|Hne].
    + split; [discriminate|]. intros Hnot. exfalso. apply Hnot. left.
    + rewrite not_elem_of_cons. destruct (list_index x l); cbn in *.
      * split; [discriminate|]. intros [_ Hnot]. apply IH, Hnot.
      * split; [intros _; split; [exact Hne | apply IH; reflexivity]
               | reflexivity].
Qed.

Lemma accuracy_above (c t : Z) (k : Q) :
  (0 < t)%Z ->
  (Num.of_Z c / Num.of_Z t >? k)%num = true -> (k * inject_Z t < inject_Z c)%Q.
Proof.
  intros Ht. unfold Num.of_Z. cbn [Num.div].
  assert (Hpos : (0 < inject_Z t)%Q).
  { change 0%Q with (inject_Z 0). rewrite <- Zlt_Qlt. exact Ht. }
  destruct (Qeq_bool (inject_Z t) 0) eqn:E; qbool; [lra|].
  cbn [Num.ltb]. intros Hlt. qbool.
  assert (Hmul : (inject_Z c / inject_Z t * inject_Z t == inject_Z c)%Q)
    by (field; exact E).
  pose proof (Qmult_lt_compat_r _ _ _ Hpos Hlt) as Hm. lra.
Qed.

Lemma accuracy_below (c t : Z) (k : Q) :
  (0 < t)%Z ->
  (Num.of_Z c / Num.of_Z t <? k)%num = true -> (inject_Z c < k * inject_Z t)%Q.
Proof.
  intros Ht. unfold Num.of_Z. cbn [Num.div].
  assert (Hpos : (0 < inject_Z t)%Q).
  { change 0%Q with (inject_Z 0). rewrite <- Zlt_Qlt. exact Ht. }
  destruct (Qeq_bool (inject_Z t) 0) eqn:E; qbool; [lra|].
  cbn [Num.ltb]. intros Hlt. qbool.
  assert (Hmul : (inject_Z c / inject_Z t * inject_Z t == inject_Z c)%Q)
    by (field; exact E).
  pose proof (Qmult_lt_compat_r _ _ _ Hpos Hlt) as Hm. lra.
Qed.

(** X18. [adaptive_difficulty] raises exactly when it adapts (switch on,
    three attempts or more) and the session's difficulty is not one of the
    four levels.  Otherwise it changes nothing but the difficulty, and that by at
    most one level: up only when more than 85 % of the attempts were
    correct, down only when fewer than half were; with the switch off or
    fewer than three attempts it changes nothing. *)
Theorem adaptive_difficulty_step (st : session) :
  (raises (adaptive_difficulty st) = true
     <-> auto_adapt st = true /\ (3 <= total_attempts st)%Z /\
         difficulty st ∉ DIFFICULTY_LEVELS) /\
  (forall st', adaptive_difficulty st = Ok st' ->
     st' = set_difficulty (difficulty st') st /\
     (auto_adapt st = false \/ (total_attempts st < 3)%Z -> st' = st) /\
     (st' = st \/
      exists i j,
        DIFFICULTY_LEVELS !! i = Some (difficulty st) /\
        DIFFICULTY_LEVELS !! j = Some (difficulty st') /\
        ((j = i + 1 /\
          (0.85 * inject_Z (total_attempts st)
             < inject_Z (correct_responses st))%Q) \/
         (i = j + 1 /\
          (inject_Z (correct_responses st)
             < 0.5 * inject_Z (total_attempts st))%Q)))).
Proof.
  unfold adaptive_difficulty.
  destruct (auto_adapt st) eqn:Hauto; cbn [negb orb].
  2:{ split; [split; [discriminate | intros [[=] _]]|].
      intros st' [= <-]. destruct st. repeat split; auto. }
  destruct (total_attempts st <? 3)%Z eqn:Hatt.
  { apply Z.ltb_lt in Hatt. split; [split; [discriminate | lia]|].
    intros st' [= <-]. destruct st. repeat split; auto. }
  apply Z.ltb_ge in Hatt. cbv zeta.
  replace (Z.max (total_attempts st) 1) with (total_attempts st) by lia.
  pose proof (list_index_raises (difficulty st) DIFFICULTY_LEVELS) as Hraise.
  pose proof (list_index_Ok (difficulty st) DIFFICULTY_LEVELS) as Hidx.
  destruct (list_index (difficulty st) DIFFICULTY_LEVELS) as [idx|e];
    monad_step.
  - specialize (Hidx idx eq_refl).
    assert (Hlt : idx < 4) by (apply lookup_lt_Some in Hidx; exact Hidx).
    destruct (Num.ltb 0.85 _) eqn:Hup; cbn [andb].
    + apply accuracy_above in Hup; [|lia].
      destruct (idx <? length DIFFICULTY_LEVELS - 1)%nat eqn:Htop.
      * apply Nat.ltb_lt in Htop.
        change (length DIFFICULTY_LEVELS - 1) with 3 in Htop.
        destruct (DIFFICULTY_LEVELS !! (idx + 1)) as [lvl|] eqn:Hlvl.
        2:{ apply lookup_ge_None in Hlvl.
            change (length DIFFICULTY_LEVELS) with 4 in Hlvl. lia. }
        unfold seq_item. rewrite Hlvl. monad_step.
        split.
        { split; [discriminate|]. intros (_ & _ & Hnot). exfalso.
          apply Hnot. eapply list_elem_of_lookup_2, Hidx. }
        intros st' [= <-]. split; [reflexivity|].
        split; [intros [[=]|?]; lia|]. right. exists idx, (idx + 1).
        split; [exact Hidx|]. split; [exact Hlvl|]. left.
        split; [reflexivity | exact Hup].
      * destruct (_ && _) eqn:Hdown.
        { apply andb_true_iff in Hdown as [Hacc _].
          apply accuracy_below in Hacc; [|lia].
          assert (0 < inject_Z (total_attempts st))%Q.
          { change 0%Q with (inject_Z 0). rewrite <- Zlt_Qlt. lia. }
          lra. }
        split.
        { split; [discriminate|]. intros (_ & _ & Hnot). exfalso.
          apply Hnot. eapply list_elem_of_lookup_2, Hidx. }
        intros st' [= <-]. destruct st. repeat split; auto.
    + destruct (Num.ltb (Num.of_Z _ / Num.of_Z _)%num _) eqn:Hdown;
        cbn [andb].
      * apply accuracy_below in Hdown; [|lia].
        destruct (0 <? idx)%nat eqn:Hbot.
        -- apply Nat.ltb_lt in Hbot.
           destruct (DIFFICULTY_LEVELS !! (idx - 1)) as [lvl|] eqn:Hlvl.
           2:{ apply lookup_ge_None in Hlvl.
            change (length DIFFICULTY_LEVELS) with 4 in Hlvl. lia. }
           unfold seq_item. rewrite Hlvl. monad_step.
           split.
           { split; [discriminate|]. intros (_ & _ & Hnot). exfalso.
             apply Hnot. eapply list_elem_of_lookup_2, Hidx. }
           intros st' [= <-]. split; [reflexivity|].
           split; [intros [[=]|?]; lia|]. right. exists idx, (idx - 1).
           split; [exact Hidx|]. split; [exact Hlvl|]. right.
           split; [lia | lra].
        -- split.
           { split; [discriminate|]. intros (_ & _ & Hnot). exfalso.
             apply Hnot. eapply list_elem_of_lookup_2, Hidx. }
           intros st' [= <-]. destruct st. repeat split; auto.
      * split.
        { split; [discriminate|]. intros (_ & _ & Hnot). exfalso.
          apply Hnot. eapply list_elem_of_lookup_2, Hidx. }
        intros st' [= <-]. destruct st. repeat split; auto.
  - split; [|discriminate]. split; [|reflexivity].
    intros _. split; [reflexivity|]. split; [lia|].
    apply Hraise. reflexivity.
Qed.

(* ===================================================================== *)
(** ** The Q-table and the weak areas *)
(* ===================================================================== *)

Section OrderedDictProps.
Context {K V : Type} `{EqDecision K}.

Lemma od_get_set_eq (d : list (K * V)) (k : K) (v : V) :
  od_get (od_set d k v) k = Some v.
Proof.
  induction d as [|[k' v'] d IH]; cbn [od_set od_get].
  - rewrite decide_True by reflexivity. reflexivity.
  - destruct (decide (k = k')) as [->|Hne]; cbn [od_get].
    + rewrite decide_True by reflexivity. reflexivity.
    + rewrite decide_False by exact Hne. exact IH.
Qed.

Lemma od_get_set_ne (d : list (K * V)) (k k' : K) (v : V) :
  k' <> k -> od_get (od_set d k v) k' = od_get d k'.
Proof.
  intros Hne. induction d as [|[k0 v0] d IH]; cbn [od_set od_get].
  - rewrite decide_False by exact Hne. reflexivity.
  - destruct (decide (k = k0)) as [->|Hne0]; cbn [od_get].
    + rewrite !decide_False by exact Hne. reflexivity.
    + destruct (decide (k' = k0)); [reflexivity | exact IH].
Qed.

Lemma od_get_set (d : list (K * V)) (k k' : K) (v : V) :
  od_get (od_set d k v) k' = if decide (k' = k) then Some v else od_get d k'.
Proof.
  destruct (decide (k' = k)) as [->|Hne];
    [apply od_get_set_eq | apply od_get_set_ne, Hne].
Qed.

(** Setting a key keeps the keys and their order; a new key goes last. *)
Lemma od_set_keys (d : list (K * V)) (k : K) (v : V) :
  (od_set d k v).*1
    = match od_get d k with Some _ => d.*1 | None => d.*1 ++ [k] end.
Proof.
  induction d as [|[k' v'] d IH]; cbn [od_set od_get]; [reflexivity|].
  destruct (decide (k = k')) as [->|Hne]; [reflexivity|].
  cbn [fmap list_fmap fst]. rewrite IH. destruct (od_get d k); reflexivity.
Qed.

End OrderedDictProps.

Lemma q_ensure_get (qt : list ((nat * string) * list (string * num)))
    (s s' : nat * string) :
  od_get (q_ensure qt s) s'
    = if decide (s' = s) then Some (row_or_fresh qt s) else od_get qt s'.
Proof.
  unfold q_ensure, row_or_fresh.
  destruct (od_get qt s) as [row|] eqn:Hs.
  - destruct (decide (s' = s)) as [->|Hne]; [exact Hs | reflexivity].
  - rewrite od_get_set. cbn [default]. reflexivity.
Qed.

Lemma fresh_row_ok : Forall (fun a => is_Some (od_get fresh_row a)) actions.
Proof. repeat constructor; eexists; reflexivity. Qed.

Lemma row_or_fresh_ok qt s :
  q_table_ok qt -> Forall (fun a => is_Some (od_get (row_or_fresh qt s) a)) actions.
Proof.
  intros Hok. unfold row_or_fresh.
  destruct (od_get qt s) as [row|] eqn:Hs; [eapply Hok, Hs | apply fresh_row_ok].
Qed.

Lemma row_nonempty (row : list (string * num)) :
  Forall (fun a => is_Some (od_get row a)) actions -> row <> [].
Proof.
  intros Hrow Hnil. subst row. apply Forall_cons in Hrow as [[v Hv] _].
  discriminate Hv.
Qed.

Lemma rl_update_returns (state : nat * string) (action : string)
    (reward : num) (next_state : nat * string) (st : session) :
  q_table_ok (rl_q_table st) ->
  let qt := rl_q_table st in
  let row := row_or_fresh qt state in
  let next_row :=
    if decide (next_state = state) then row
    else row_or_fresh qt next_state in
  let old := default (Finite 0) (od_get row action) in
  exists best,
    py_max_list (map snd next_row) = Ok best /\
    rl_update state action reward next_state st
      = Ok (set_rl_q_table
              (od_set (q_ensure (q_ensure qt state) next_state) state
                 (od_set row action
                    (old + RL_ALPHA * (reward + RL_GAMMA * best - old))%num))
              st).
Proof.
  intros Hok qt row next_row old.
  assert (Hrow : od_get (q_ensure (q_ensure qt state) next_state) state
                 = Some row).
  { rewrite !q_ensure_get. rewrite (decide_True (P := state = state))
      by reflexivity.
    destruct (decide (state = next_state)) as [<-|Hne]; [|reflexivity].
    unfold row_or_fresh at 1. rewrite q_ensure_get, decide_True by reflexivity.
    reflexivity. }
  assert (Hnext : od_get (q_ensure (q_ensure qt state) next_state) next_state
                  = Some next_row).
  { rewrite q_ensure_get, decide_True by reflexivity. unfold next_row.
    unfold row_or_fresh at 1. rewrite q_ensure_get.
    destruct (decide (next_state = state)) as [->|Hne]; reflexivity. }
  assert (Hne : next_row <> []).
  { apply row_nonempty. unfold next_row.
    destruct (decide _); apply row_or_fresh_ok, Hok. }
  destruct (map snd next_row) as [|v vs] eqn:Hvals.
  { destruct next_row; [contradiction | discriminate Hvals]. }
  eexists. split; [reflexivity|].
  unfold rl_update. cbn [fold_left]. fold qt. unfold q_row.
  rewrite Hrow, Hnext. monad_step. rewrite Hvals. reflexivity.
Qed.

Section OrderedDictForall.
Context {K V : Type} `{EqDecision K}.

Lemma od_set_Forall (P : K * V -> Prop) (d : list (K * V)) (k : K) (v : V) :
  Forall P d -> P (k, v) -> Forall P (od_set d k v).
Proof.
  intros Hd Hkv. induction Hd as [|[k' v'] d Hx Hd IH]; cbn [od_set].
  - repeat constructor. exact Hkv.
  - destruct (decide (k = k')) as [->|Hne]; constructor; assumption.
Qed.

Lemma od_get_Forall (P : K * V -> Prop) (d : list (K * V)) (k : K) (v : V) :
  Forall P d -> od_get d k = Some v -> P (k, v).
Proof.
  intros Hd. induction Hd as [|[k' v'] d Hx Hd IH]; cbn [od_get];
    [discriminate|].
  destruct (decide (k = k')) as [->|Hne]; [|exact IH].
  intros [= <-]. exact Hx.
Qed.

End OrderedDictForall.

Lemma q_ensure_ok qt s : q_table_ok qt -> q_table_ok (q_ensure qt s).
Proof.
  intros Hok s' row. rewrite q_ensure_get.
  destruct (decide (s' = s)) as [->|Hne]; [|apply Hok].
  intros [= <-]. apply row_or_fresh_ok, Hok.
Qed.

(** X19. On a Q-table whose rows hold the three actions, [rl_update]
    returns and changes only the Q-table: the rows of other states are as
    before, a missing row of [state] or [next_state] is created with zeros,
    the value of [action] in the row of [state] becomes
    [old + 0.3 * (reward + 0.7 * best - old)] with [best] the largest value
    of the row of [next_state] before the update, and the other values of
    that row are kept. *)
Theorem rl_update_table (state : nat * string) (action : string)
    (reward : num) (next_state : nat * string) (st : session) :
  q_table_ok (rl_q_table st) ->
  exists st' row' best,
    rl_update state action reward next_state st = Ok st' /\
    st' = set_rl_q_table (rl_q_table st') st /\
    q_table_ok (rl_q_table st') /\
    (forall s, s <> state -> s <> next_state ->
       od_get (rl_q_table st') s = od_get (rl_q_table st) s) /\
    od_get (rl_q_table st') state = Some row' /\
    py_max_list
      (map snd (row_or_fresh (rl_q_table st) next_state)) = Ok best /\
    (let old := default (Finite 0)
                  (od_get (row_or_fresh (rl_q_table st) state) action) in
     od_get row' action
       = Some (old + RL_ALPHA * (reward + RL_GAMMA * best - old))%num) /\
    (forall a, a <> action ->
       od_get row' a = od_get (row_or_fresh (rl_q_table st) state) a).
Proof.
  intros Hok.
  destruct (rl_update_returns state action reward next_state st Hok)
    as (best & Hbest & Hupd).
  cbv zeta in Hbest, Hupd.
  eexists. eexists. exists best. split; [exact Hupd|].
  cbn [rl_q_table set_rl_q_table]. split; [reflexivity|]. split.
  { intros s row. rewrite od_get_set.
    destruct (decide (s = state)) as [->|Hne].
    - intros [= <-]. apply Forall_forall. intros a Ha.
      rewrite od_get_set. destruct (decide (a = action)); [eexists; reflexivity|].
      pose proof (row_or_fresh_ok (rl_q_table st) state Hok) as Hrow.
      rewrite Forall_forall in Hrow. apply Hrow, Ha.
    - apply q_ensure_ok, q_ensure_ok, Hok. }
  split.
  { intros s Hs Hn. rewrite od_get_set_ne by exact Hs.
    rewrite !q_ensure_get, !decide_False by assumption. reflexivity. }
  split; [apply od_get_set_eq|]. split.
  { destruct (decide (next_state = state)) as [->|Hne]; exact Hbest. }
  split; [apply od_get_set_eq|].
  intros a Ha. apply od_get_set_ne, Ha.
Qed.

Lemma py_max_list_within (lo hi : Q) (xs : list num) (best : num) :
  Forall (within lo hi) xs -> py_max_list xs = Ok best -> within lo hi best.
Proof.
  destruct xs as [|x xs]; [discriminate|]. intros Hall [= <-].
  apply Forall_cons in Hall as [Hx Hxs]. revert x Hx.
  induction Hxs as [|y ys Hy _ IH]; intros x Hx; [exact Hx|].
  cbn [fold_left]. apply IH. unfold py_max. destruct (_ <? _)%num; assumption.
Qed.

Lemma row_or_fresh_within (hi : Q) qt s :
  (0 <= hi)%Q -> q_table_within 0 hi qt ->
  Forall (fun av : string * num => within 0 hi av.2) (row_or_fresh qt s).
Proof.
  intros Hhi Hqt. unfold row_or_fresh.
  destruct (od_get qt s) as [row|] eqn:Hs; cbn [default].
  - apply (od_get_Forall _ _ _ _ Hqt Hs).
  - unfold fresh_row, actions. cbn [map].
    repeat constructor; exists 0%Q; (split; [reflexivity | lra]).
Qed.

Lemma q_ensure_within (hi : Q) qt s :
  (0 <= hi)%Q -> q_table_within 0 hi qt -> q_table_within 0 hi (q_ensure qt s).
Proof.
  intros Hhi Hqt. unfold q_ensure.
  destruct (od_get qt s) as [row|] eqn:Hs; [exact Hqt|].
  apply od_set_Forall; [exact Hqt|]. cbn [snd].
  pose proof (row_or_fresh_within hi qt s Hhi Hqt) as Hrow.
  unfold row_or_fresh in Hrow. rewrite Hs in Hrow. exact Hrow.
Qed.

(** The update keeps a value within [0, 10/3] when the reward is within
    [0, 1]: [0.7 old + 0.3 reward + 0.21 best]. *)
Lemma q_value_within (old reward best : num) :
  within 0 (10 # 3) old -> within 0 1 reward -> within 0 (10 # 3) best ->
  within 0 (10 # 3)
    (old + RL_ALPHA * (reward + RL_GAMMA * best - old))%num.
Proof.
  intros (o & -> & Ho) (r & -> & Hr) (b & -> & Hb).
  eexists. split; [reflexivity|]. lra.
Qed.

(** X20. With rewards between 0 and 1 (a score out of 100, divided by
    100) the Q-values never leave [0, 10/3]: if every row holds the three
    actions and every value is within [0, 10/3], so it is after
    [rl_update]. *)
Theorem rl_update_bounded (state : nat * string) (action : string)
    (reward : num) (next_state : nat * string) (st : session) :
  q_table_ok (rl_q_table st) ->
  q_table_within 0 (10 # 3) (rl_q_table st) ->
  within 0 1 reward ->
  exists st',
    rl_update state action reward next_state st = Ok st' /\
    q_table_ok (rl_q_table st') /\
    q_table_within 0 (10 # 3) (rl_q_table st').
Proof.
  intros Hok Hin Hreward.
  destruct (rl_update_returns state action reward next_state st Hok)
    as (best & Hbest & Hupd).
  cbv zeta in Hbest, Hupd.
  assert (HB : (0 <= 10 # 3)%Q) by lra.
  eexists. split; [exact Hupd|]. cbn [rl_q_table set_rl_q_table]. split.
  { intros s row. rewrite od_get_set.
    destruct (decide (s = state)) as [->|Hne].
    - intros [= <-]. apply Forall_forall. intros a Ha.
      rewrite od_get_set. destruct (decide (a = action)); [eexists; reflexivity|].
      pose proof (row_or_fresh_ok (rl_q_table st) state Hok) as Hrow.
      rewrite Forall_forall in Hrow. apply Hrow, Ha.
    - apply q_ensure_ok, q_ensure_ok, Hok. }
  apply od_set_Forall; [apply q_ensure_within, q_ensure_within; assumption|].
  cbn [snd].
  pose proof (row_or_fresh_within _ (rl_q_table st) state HB Hin) as Hrow.
  apply od_set_Forall; [exact Hrow|]. cbn [snd].
  apply q_value_within; [|exact Hreward|].
  - destruct (od_get (row_or_fresh (rl_q_table st) state) action) as [v|]
      eqn:Hv; cbn [default].
    + apply (od_get_Forall _ _ _ _ Hrow Hv).
    + exists 0%Q. split; [reflexivity | lra].
  - eapply py_max_list_within; [|exact Hbest].
    apply Forall_map.
    destruct (decide (next_state = state));
      [exact Hrow | apply row_or_fresh_within; assumption].
Qed.

(** The loop [for item in ...: ie[item] = ie.get(item, 0) + 1] counts the
    occurrences of each item. *)
Lemma item_errors_count (items : list string) (ie : list (string * Z))
    (item : string) :
  od_get (fold_left
            (fun ie x => od_set ie x (default 0%Z (od_get ie x) + 1)%Z)
            items ie) item
    = match length (filter (fun x => x = item) items) with
      | 0 => od_get ie item
      | S n => Some (default 0%Z (od_get ie item) + Z.of_nat (S n))%Z
      end.
Proof.
  revert ie. induction items as [|x items IH]; intros ie; [reflexivity|].
  cbn [fold_left]. rewrite IH, filter_cons.
  destruct (decide (x = item)) as [->|Hne].
  - rewrite od_get_set_eq. cbn [length default].
    destruct (length (filter _ items)) as [|n]; f_equal; unfold id; lia.
  - rewrite od_get_set_ne by congruence. reflexivity.
Qed.

(** X21. [rl_update_weak_areas] adds one attempt and
    [len(items_missed) + len(items_incorrect)] errors to the scenario type
    (counted from zero if it is new, and then appended after the other
    types), leaves the other types as they are, adds to the count of each
    item the number of times it is listed, and changes nothing else in the
    session. *)
Theorem rl_update_weak_areas_counts (scenario_type : string)
    (items_missed items_incorrect : list string) (st : session) :
  let st' :=
    rl_update_weak_areas scenario_type items_missed items_incorrect st in
  let before := default {| attempts := 0; errors := 0 |}
                        (od_get (rl_weak_areas st) scenario_type) in
  od_get (rl_weak_areas st') scenario_type
    = Some {| attempts := attempts before + 1;
              errors := errors before
                        + Z.of_nat (length items_missed
                                    + length items_incorrect) |} /\
  (forall t, t <> scenario_type ->
     od_get (rl_weak_areas st') t = od_get (rl_weak_areas st) t) /\
  (rl_weak_areas st').*1
    = match od_get (rl_weak_areas st) scenario_type with
      | Some _ => (rl_weak_areas st).*1
      | None => (rl_weak_areas st).*1 ++ [scenario_type]
      end /\
  (forall item,
     od_get (rl_item_errors st') item
       = match length (filter (fun x => x = item)
                              (items_missed ++ items_incorrect)) with
         | 0 => od_get (rl_item_errors st) item
         | S n => Some (default 0%Z (od_get (rl_item_errors st) item)
                        + Z.of_nat (S n))%Z
         end) /\
  st' = set_weak_areas (rl_weak_areas st') (rl_item_errors st') st.
Proof.
  unfold rl_update_weak_areas. cbv zeta.
  cbn [rl_weak_areas rl_item_errors set_weak_areas].
  split; [|split; [|split; [|split]]].
  - rewrite od_get_set_eq.
    destruct (od_get (rl_weak_areas st) scenario_type) as [stats|] eqn:Hs.
    + rewrite Hs. reflexivity.
    + rewrite od_get_set_eq. reflexivity.
  - intros t Ht. rewrite od_get_set_ne by exact Ht.
    destruct (od_get (rl_weak_areas st) scenario_type); [reflexivity|].
    apply od_get_set_ne, Ht.
  - rewrite od_set_keys.
    destruct (od_get (rl_weak_areas st) scenario_type) as [stats|] eqn:Hs.
    + rewrite Hs. reflexivity.
    + rewrite od_get_set_eq, od_set_keys, Hs. reflexivity.
  - intros item. apply item_errors_count.
  - reflexivity.
Qed.

Lemma weak_key_finite (stats : weak_stats) :
  exists q, weak_key stats = Finite q.
Proof.
  unfold weak_key, py_max, Num.of_Z. cbn [Num.add Num.ltb].
  match goal with
  | |- context [Qltb ?a ?b] => destruct (Qltb a b) eqn:E
  end; qbool; cbn [Num.div].
  - eexists. reflexivity.
  - destruct (Qeq_bool (inject_Z (errors stats) + 0.1) 0) eqn:E0; qbool.
    + lra.
    + eexists. reflexivity.
Qed.

Lemma min_by_key_least {A} (key : A -> num) (best : A) (rest : list A) :
  (forall x, exists q, key x = Finite q) ->
  min_by_key key best rest ∈ best :: rest /\
  Forall (fun x => (key (min_by_key key best rest) <=? key x)%num = true)
         (best :: rest).
Proof.
  intros Hfin. revert best. induction rest as [|x rest IH]; intros best.
  - cbn [min_by_key]. split; [left|]. constructor; [|constructor].
    destruct (Hfin best) as [q ->]. cbn [Num.leb]. qbool. lra.
  - cbn [min_by_key]. destruct (key x <? key best)%num eqn:E.
    + destruct (IH x) as [Hin Hall]. split; [right; exact Hin|].
      apply Forall_cons in Hall as [Hx Hrest].
      constructor; [|constructor; assumption].
      destruct (Hfin (min_by_key key x rest)) as [m Hm].
      destruct (Hfin x) as [qx Hqx]. destruct (Hfin best) as [qb Hqb].
      rewrite Hm, Hqx, Hqb in *. cbn [Num.leb Num.ltb] in *. qbool. lra.
    + destruct (IH best) as [Hin Hall]. split.
      * apply elem_of_cons in Hin as [->|Hin]; [left | right; right; exact Hin].
      * apply Forall_cons in Hall as [Hb Hrest].
        constructor; [exact Hb|]. constructor; [|exact Hrest].
        destruct (Hfin (min_by_key key best rest)) as [m Hm].
        destruct (Hfin x) as [qx Hqx]. destruct (Hfin best) as [qb Hqb].
        rewrite Hm, Hqx, Hqb in *. cbn [Num.leb Num.ltb] in *. qbool. lra.
Qed.

(** X22. [rl_get_state] raises exactly when the session's difficulty is not
    one of the four levels.  Otherwise it returns the position of the level
    and, with no weak area recorded, the word [none]; else a recorded
    scenario type whose ratio [attempts / max(errors + 0.1, 1)] is the least
    of all. *)
Theorem rl_get_state_picks (st : session) :
  (raises (rl_get_state st) = true <-> difficulty st ∉ DIFFICULTY_LEVELS) /\
  (forall idx top, rl_get_state st = Ok (idx, top) ->
     DIFFICULTY_LEVELS !! idx = Some (difficulty st) /\
     (rl_weak_areas st = [] -> top = "none") /\
     (rl_weak_areas st <> [] ->
      exists stats, (top, stats) ∈ rl_weak_areas st /\
        forall t s, (t, s) ∈ rl_weak_areas st ->
          (weak_key stats <=? weak_key s)%num = true)).
Proof.
  unfold rl_get_state.
  pose proof (list_index_raises (difficulty st) DIFFICULTY_LEVELS) as Hraise.
  pose proof (list_index_Ok (difficulty st) DIFFICULTY_LEVELS) as Hidx.
  destruct (list_index (difficulty st) DIFFICULTY_LEVELS) as [i|e];
    monad_step.
  - split; [exact Hraise|]. intros idx top [= <- <-].
    split; [apply Hidx; reflexivity|].
    destruct (rl_weak_areas st) as [|first rest].
    + split; [reflexivity | contradiction].
    + split; [discriminate|]. intros _.
      destruct (min_by_key_least (fun x : string * weak_stats => weak_key x.2)
                  first rest) as [Hin Hall].
      { intros x. apply weak_key_finite. }
      destruct (min_by_key _ first rest) as [top stats] eqn:Hmin.
      exists stats. split; [exact Hin|]. intros t s Hts.
      rewrite Forall_forall in Hall. apply (Hall (t, s) Hts).
  - split; [exact Hraise | discriminate].
Qed.

Lemma initial_table_ok : q_table_ok (rl_q_table initial_session).
Proof. intros s row Hget. discriminate Hget. Qed.

(** X19, on the first update of a new session. *)
Lemma rl_update_table_witness :
  exists st' row' best,
    rl_update (0, "none") "Emergency" (Finite 1) (1, "none") initial_session
      = Ok st' /\
    st' = set_rl_q_table (rl_q_table st') initial_session /\
    q_table_ok (rl_q_table st') /\
    (forall s, s <> (0, "none") -> s <> (1, "none") ->
       od_get (rl_q_table st') s = od_get (rl_q_table initial_session) s) /\
    od_get (rl_q_table st') (0, "none") = Some row' /\
    py_max_list
      (map snd (row_or_fresh (rl_q_table initial_session) (1, "none")))
      = Ok best /\
    (let old := default (Finite 0)
                  (od_get (row_or_fresh (rl_q_table initial_session)
                                        (0, "none")) "Emergency") in
     od_get row' "Emergency"
       = Some (old + RL_ALPHA * (Finite 1 + RL_GAMMA * best - old))%num) /\
    (forall a, a <> "Emergency" ->
       od_get row' a
       = od_get (row_or_fresh (rl_q_table initial_session) (0, "none")) a).
Proof.
  apply (rl_update_table (0, "none") "Emergency" (Finite 1) (1, "none")
           initial_session).
  apply initial_table_ok.
Defined.

(** X20, on the first update of a new session. *)
Lemma rl_update_bounded_witness :
  exists st',
    rl_update (0, "none") "Emergency" (Finite 1) (1, "none") initial_session
      = Ok st' /\
    q_table_ok (rl_q_table st') /\
    q_table_within 0 (10 # 3) (rl_q_table st').
Proof.
  apply (rl_update_bounded (0, "none") "Emergency" (Finite 1) (1, "none")
           initial_session).
  - apply initial_table_ok.
  - constructor.
  - eexists. split; [reflexivity|]. split; discriminate.
Defined.

Lemma max_by_key_elem {A} (key : A -> num) (best : A) (rest : list A) :
  max_by_key key best rest ∈ best :: rest.
Proof.
  revert best. induction rest as [|x rest IH]; intros best; [left|].
  cbn [max_by_key]. destruct (key x >? key best)%num.
  - right. apply IH.
  - specialize (IH best).
    apply elem_of_cons in IH as [->|IH]; [left | right; right; exact IH].
Qed.

Lemma max_by_key_greatest {A} (key : A -> num) (best : A) (rest : list A) :
  (forall x, exists q, key x = Finite q) ->
  max_by_key key best rest ∈ best :: rest /\
  Forall (fun x => (key x <=? key (max_by_key key best rest))%num = true)
         (best :: rest).
Proof.
  intros Hfin. revert best. induction rest as [|x rest IH]; intros best.
  - cbn [max_by_key]. split; [left|]. constructor; [|constructor].
    destruct (Hfin best) as [q ->]. cbn [Num.leb]. qbool. lra.
  - cbn [max_by_key]. destruct (key x >? key best)%num eqn:E.
    + destruct (IH x) as [Hin Hall]. split; [right; exact Hin|].
      apply Forall_cons in Hall as [Hx Hrest].
      constructor; [|constructor; assumption].
      destruct (Hfin (max_by_key key x rest)) as [m Hm].
      destruct (Hfin x) as [qx Hqx]. destruct (Hfin best) as [qb Hqb].
      rewrite Hm, Hqx, Hqb in *. cbn [Num.leb Num.ltb] in *. qbool. lra.
    + destruct (IH best) as [Hin Hall]. split.
      * apply elem_of_cons in Hin as [->|Hin]; [left | right; right; exact Hin].
      * apply Forall_cons in Hall as [Hb Hrest].
        constructor; [exact Hb|]. constructor; [|exact Hrest].
        destruct (Hfin (max_by_key key best rest)) as [m Hm].
        destruct (Hfin x) as [qx Hqx]. destruct (Hfin best) as [qb Hqb].
        rewrite Hm, Hqx, Hqb in *. cbn [Num.leb Num.ltb] in *. qbool. lra.
Qed.

Lemma od_get_elem {K V} `{EqDecision K} (d : list (K * V)) (k : K) (v : V) :
  od_get d k = Some v -> (k, v) ∈ d.
Proof.
  induction d as [|[k' v'] d IH]; [discriminate|]. cbn [od_get].
  destruct (decide (k = k')) as [->|Hne].
  - intros [= ->]. left.
  - intros Hget. right. apply IH, Hget.
Qed.

(** X23. Whatever the random source draws, [rl_choose_action] returns one
    of the three scenario types.  It returns the one [random.choice] draws
    when [random.random()] is below 0.2 or the state has no row; otherwise,
    when the values of the row are numbers, one whose Q-value is the
    greatest. *)
Theorem rl_choose_action_greedy (u : num) (pick : nat) (state : nat * string)
    (st : session) :
  pick < length actions ->
  exists a,
    rl_choose_action u pick state st = Ok a /\ a ∈ actions /\
    ((u <? RL_EPSILON)%num = true \/ od_get (rl_q_table st) state = None ->
     actions !! pick = Some a) /\
    (forall row,
       (u <? RL_EPSILON)%num = false ->
       od_get (rl_q_table st) state = Some row ->
       Forall (fun av : string * num => Num.is_finite av.2 = true) row ->
       Forall (fun a' =>
                 (q_value (rl_q_table st) state a'
                  <=? q_value (rl_q_table st) state a)%num = true) actions).
Proof.
  intros Hpick. unfold rl_choose_action. cbv zeta.
  destruct (actions !! pick) as [chosen|] eqn:Echosen;
    [|apply lookup_ge_None in Echosen; lia].
  assert (Hin : chosen ∈ actions) by (eapply list_elem_of_lookup_2, Echosen).
  destruct (u <? RL_EPSILON)%num eqn:Eu; cbn [orb].
  { exists chosen. unfold seq_item. rewrite Echosen.
    split; [reflexivity|]. split; [exact Hin|]. split; [reflexivity|].
    discriminate. }
  destruct (od_get (rl_q_table st) state) as [row|] eqn:Erow; cbn [negb].
  2: { exists chosen. unfold seq_item. rewrite Echosen.
       split; [reflexivity|]. split; [exact Hin|]. split; [reflexivity|].
       discriminate. }
  unfold actions at 1.
  eexists. split; [reflexivity|].
  split.
  { apply max_by_key_elem. }
  split; [intros [|]; discriminate|].
  intros row' _ [= <-] Hfinite.
  apply max_by_key_greatest.
  intros a'. unfold q_value. rewrite Erow. unfold default, id.
  destruct (od_get row a') as [v|] eqn:Ev; [|eexists; reflexivity].
  apply od_get_elem in Ev. rewrite Forall_forall in Hfinite.
  specialize (Hfinite _ Ev). cbn [snd] in Hfinite.
  destruct v; try discriminate. eexists. reflexivity.
Qed.

(** X23, on a new session, with draws 0.5 and 1. *)
Lemma rl_choose_action_greedy_witness :
  exists a,
    rl_choose_action 0.5%num 1 (0%nat, "none") initial_session = Ok a /\
    a ∈ actions /\
    ((0.5 <? RL_EPSILON)%num = true
     \/ od_get (rl_q_table initial_session) (0%nat, "none") = None ->
     actions !! 1 = Some a) /\
    (forall row,
       (0.5 <? RL_EPSILON)%num = false ->
       od_get (rl_q_table initial_session) (0%nat, "none") = Some row ->
       Forall (fun av : string * num => Num.is_finite av.2 = true) row ->
       Forall (fun a' =>
                 (q_value (rl_q_table initial_session) (0%nat, "none") a'
                  <=? q_value (rl_q_table initial_session) (0%nat, "none") a)%num
                 = true) actions).
Proof.
  apply (rl_choose_action_greedy 0.5%num 1 (0%nat, "none") initial_session).
  vm_compute. lia.
Defined.

(* ===================================================================== *)
(** ** Turns of a transcription *)
(* ===================================================================== *)














Lemma turns_or_text_nonempty (turns : list pystr) (wr : whisper_result) :
  turns_or_text turns wr <> [].
Proof. destruct turns; discriminate. Qed.

Lemma require_raises {A} (key : string) (v : option A) (e : exn) :
  require key v = Raise e -> e = KeyError key.
Proof. destruct v; [discriminate|]. intros [= <-]. reflexivity. Qed.

Lemma segment_step_raises (gap_threshold : num) (st : list pystr * pystr)
    (pair : whisper_segment * whisper_segment) (e : exn) :
  segment_step gap_threshold st pair = Raise e ->
  exists k, e = KeyError k /\ k ∈ ["text"; "start"; "end"].
Proof.
  destruct st as [turns current], pair as [seg prev]. unfold segment_step.
  destruct (seg_start seg) as [start|]; cbn [require]; monad_step;
    [|intros [= <-]; eexists; split; [reflexivity | set_solver]].
  destruct (seg_end prev) as [stop|]; cbn [require]; monad_step;
    [|intros [= <-]; eexists; split; [reflexivity | set_solver]].
  destruct (seg_text seg) as [text|]; cbn [require];
    destruct (start - stop >=? gap_threshold)%num; monad_step;
    try discriminate.
  all: intros [= <-]; eexists; split; [reflexivity | set_solver].
Qed.

Lemma segment_loop_raises (gap_threshold : num)
    (pairs : list (whisper_segment * whisper_segment))
    (st : list pystr * pystr) (e : exn) :
  foldlM (segment_step gap_threshold) st pairs = Raise e ->
  exists k, e = KeyError k /\ k ∈ ["text"; "start"; "end"].
Proof.
  revert st. induction pairs as [|pair pairs IH]; intros st; [discriminate|].
  cbn [foldlM].
  destruct (segment_step gap_threshold st pair) as [st'|e'] eqn:Estep;
    monad_step.
  - apply IH.
  - intros [= <-]. eapply segment_step_raises, Estep.
Qed.

(** X24. [_segment_by_silence] never returns an empty list of turns.
    Without segments it returns the stripped text alone.  It can raise only
    when no segment has a word that is not blank, and then a [KeyError] for
    [text], [start] or [end]. *)
Theorem segment_by_silence_result (wr : whisper_result) (gap_threshold : num) :
  (default [] (wr_segments wr) = [] ->
   _segment_by_silence wr gap_threshold
     = Ok [strip (default [] (wr_text wr))]) /\
  (forall turns, _segment_by_silence wr gap_threshold = Ok turns ->
     turns <> []) /\
  (forall e, _segment_by_silence wr gap_threshold = Raise e ->
     timed_words (default [] (wr_segments wr)) = [] /\
     exists k, e = KeyError k /\ k ∈ ["text"; "start"; "end"]).
Proof.
  unfold _segment_by_silence. cbv zeta.
  split; [intros ->; reflexivity|].
  destruct (default [] (wr_segments wr)) as [|first segments];
    [split; [intros turns [= <-]; discriminate | discriminate]|].
  destruct (timed_words (first :: segments)) as [|[[word start] stop] words].
  - split.
    + intros turns Hret.
      destruct (require "text" (seg_text first)); monad_step_in Hret;
        [|discriminate Hret].
      destruct (foldlM _ _ _) as [[turns' current]|]; monad_step_in Hret;
        [|discriminate Hret].
      injection Hret as <-. apply turns_or_text_nonempty.
    + intros e Hraise. split; [reflexivity|].
      destruct (require "text" (seg_text first)) eqn:Etext;
        monad_step_in Hraise.
      * destruct (foldlM _ _ _) as [[turns' current]|e'] eqn:Eloop;
          monad_step_in Hraise; [discriminate Hraise|].
        injection Hraise as ->. eapply segment_loop_raises, Eloop.
      * injection Hraise as ->. apply require_raises in Etext.
        eexists. split; [exact Etext | set_solver].
  - destruct (fold_left _ _ _) as [turns' current]. split.
    + intros turns [= <-]. apply turns_or_text_nonempty.
    + discriminate.
Qed.



Example two_calls_turns :
  _segment_by_silence two_calls 0.6%num
    = Ok [pystr_of "Tower, ready"; pystr_of "Roger"].
Proof. vm_compute. reflexivity. Qed.

